(** * ScanCode: the Codebase/Resource tree and the merkle tree builder

    A shallow embedding of [src/scancode/resource.py] (the registry of
    codebases, the [Codebase] and its [Resource] nodes, the scan cache) and of
    [src/scancode/plugin_merkle_tree.py] (the directory tree rebuilt from flat
    scan records and the per-directory SHA1).

    Python values are embedded as follows.
    - An [int] is a [Z]; a [str]/[unicode]/[bytes] is a [string].
    - A raised exception is the [Raise] branch of [result]; a loop or a
      recursion that Python runs until it is done takes a [fuel] argument and
      raises [OutOfFuel] when the fuel is spent.
    - Objects that are shared and mutated ([Resource], [Dir], the lists hung on
      a [Dir]) live in an explicit heap and are named by their address. *)

From Stdlib Require Import ZArith String Ascii HexString List Sorting.Sorted Permutation Lia.
From stdpp Require Import base option list gmap strings sorting.

Local Open Scope Z_scope.

(** ** Exceptions and results *)

Inductive exn : Type :=
| IndexError
| AttributeError
| ValueError
| TypeError
| FileLockTimeout
| RootRemoval      (* Exception('Cannot remove the root resource from codebase:', ...) *)
| OutOfFuel.

Inductive result (A : Type) : Type :=
| Ok (a : A)
| Raise (e : exn).
Arguments Ok {A} a.
Arguments Raise {A} e.

#[export] Instance result_ret : MRet result := fun _ a => Ok a.
#[export] Instance result_bind : MBind result := fun _ _ k r =>
  match r with
  | Ok a => k a
  | Raise e => Raise e
  end.

(** ** Python lists *)

Module Py.

(** [l[i]]: a negative index counts from the end; out of range raises
    [IndexError]. *)
Definition getitem {A : Type} (l : list A) (i : Z) : result A :=
  let n := Z.of_nat (length l) in
  let j := if i <? 0 then i + n else i in
  if (j <? 0) || (n <=? j) then Raise IndexError
  else match l !! Z.to_nat j with
       | Some a => Ok a
       | None => Raise IndexError
       end.

(** [l[i] = x]: same index rule. *)
Definition setitem {A : Type} (l : list A) (i : Z) (x : A) : result (list A) :=
  let n := Z.of_nat (length l) in
  let j := if i <? 0 then i + n else i in
  if (j <? 0) || (n <=? j) then Raise IndexError
  else Ok (<[Z.to_nat j := x]> l).

(** [l.remove(x)]: drops the first element equal to [x]; [ValueError] when
    there is none. *)
Fixpoint remove (l : list Z) (x : Z) : result (list Z) :=
  match l with
  | [] => Raise ValueError
  | y :: l' => if Z.eqb y x then Ok l'
               else r ← remove l' x; Ok (y :: r)
  end.

(** [sorted(l, key=...)]: a stable sort; [leb] compares two keys. *)
Section Sorted.
Context {A K : Type} (leb : K -> K -> bool) (key : A -> K).

Fixpoint insert_sorted (x : A) (s : list A) : list A :=
  match s with
  | [] => [x]
  | y :: s' => if leb (key x) (key y) then x :: s else y :: insert_sorted x s'
  end.

(* The elements are inserted from the right, each one before the first
   element whose key is not smaller: equal keys keep their order. *)
Fixpoint sorted (l : list A) : list A :=
  match l with
  | [] => []
  | x :: l' => insert_sorted x (sorted l')
  end.

(* The order of the elements by their keys. *)
Definition key_le (a b : A) : Prop := leb (key a) (key b) = true.
End Sorted.

(** [max(l)] of a non-empty list of ints. *)
Definition max (l : list Z) : result Z :=
  match l with
  | [] => Raise ValueError
  | x :: l' => Ok (fold_left Z.max l' x)
  end.

End Py.

(** ** The registry of codebases ([_CODEBASES])

    A codebase object is named by its identity ([is] compares identities);
    the registry maps a codebase id to the codebase registered under it. *)

Module Registry.

Abbreviation codebase_ref := nat.

Abbreviation t := (gmap Z codebase_ref).

(** The [for cid, cached_codebase in _CODEBASES.items()] loop: the id of the
    first entry holding this very object. (The order of the entries only
    matters when one object is held under two ids, which [add_codebase] never
    brings about.) *)
Definition find_codebase (codebases : t) (codebase : codebase_ref) : option Z :=
  fst <$> List.find (fun e => Nat.eqb (snd e) codebase) (map_to_list codebases).

(** [add_codebase]; [locked] tells whether the file lock was acquired within
    the timeout. Returns the codebase id and the registry afterwards. *)
Definition add_codebase (locked : bool) (codebase : codebase_ref) (codebases : t)
  : result (Z * t) :=
  if negb locked then Raise FileLockTimeout
  else if bool_decide (codebases <> ∅) then
    match find_codebase codebases codebase with
    | Some cid => Ok (cid, codebases)
    | None =>
        m ← Py.max (fst <$> map_to_list codebases);
        let new_cid := m + 1 in
        Ok (new_cid, <[new_cid := codebase]> codebases)
    end
  else
    let new_cid := 1 in
    Ok (new_cid, <[new_cid := codebase]> codebases).

(** [del_codebase]: [_CODEBASES.pop(cid, None)]. *)
Definition del_codebase (locked : bool) (cid : Z) (codebases : t)
  : result (option codebase_ref * t) :=
  if negb locked then Raise FileLockTimeout
  else Ok (codebases !! cid, delete cid codebases).

(** [get_codebase]. *)
Definition get_codebase (cid : Z) (codebases : t) : option codebase_ref :=
  codebases !! cid.

(** A process: a sequence of registrations and removals, run from the empty
    registry with the lock always acquired. *)
Inductive op : Type :=
| Register (codebase : codebase_ref)
| Unregister (cid : Z).

(** One operation; a registration that stored the codebase under a new id
    reports that id. *)
Definition step (codebases : t) (o : op) : t * option Z :=
  match o with
  | Register codebase =>
      match add_codebase true codebase codebases with
      | Ok (cid, codebases') =>
          (codebases', if bool_decide (codebases !! cid = None) then Some cid else None)
      | Raise _ => (codebases, None)
      end
  | Unregister cid =>
      match del_codebase true cid codebases with
      | Ok (_, codebases') => (codebases', None)
      | Raise _ => (codebases, None)
      end
  end.

(** The registry after the operations, and the ids that were assigned, in
    order. *)
Fixpoint run (codebases : t) (ops : list op) : t * list Z :=
  match ops with
  | [] => (codebases, [])
  | o :: ops' =>
      let '(codebases', new) := step codebases o in
      let '(final, assigned) := run codebases' ops' in
      (final, match new with Some cid => cid :: assigned | None => assigned end)
  end.

(** What the spec asks of a process: no id is assigned twice. *)
Definition never_reused (ops : list op) : Prop :=
  NoDup (snd (run ∅ ops)).

End Registry.

(** ** Resources and the codebase that owns them *)

(** A scan result value, as [json] writes and reads it. *)
#[local] Unset Elimination Schemes.
Inductive json : Type :=
| JNull
| JBool (b : bool)
| JInt (z : Z)
| JStr (s : string)
| JList (l : list json)
| JObject (d : list (string * json)).
#[local] Set Elimination Schemes.

(** An [OrderedDict] of scan results: its items in insertion order. A mapping
    has each key once. *)
Abbreviation OrderedDict := (list (string * json)).

(** The attributes of a [Resource] that the tree and the cache operations read
    or write. ([cid] is left out: the codebase is passed along instead of
    being fetched from the registry. The file information that is only
    serialized, [errors] and the timings are left out as well.) *)
Record Resource : Type := mkResource {
  name : string;
  rid : Z;
  pid : option Z;
  is_file : bool;
  children_rids : list Z;
  _scans : OrderedDict;
  use_cache : bool;
  cache_keys : string * string;
  size : Z;
  files_count : Z;
  dirs_count : Z;
}.

Definition with_children_rids (l : list Z) (r : Resource) : Resource :=
  mkResource (name r) (rid r) (pid r) (is_file r) l (_scans r) (use_cache r)
    (cache_keys r) (size r) (files_count r) (dirs_count r).

Definition with_scans (d : OrderedDict) (r : Resource) : Resource :=
  mkResource (name r) (rid r) (pid r) (is_file r) (children_rids r) d
    (use_cache r) (cache_keys r) (size r) (files_count r) (dirs_count r).

Definition with_counts (files dirs sz : Z) (r : Resource) : Resource :=
  mkResource (name r) (rid r) (pid r) (is_file r) (children_rids r) (_scans r)
    (use_cache r) (cache_keys r) sz files dirs.

(** ['%08x' % rid]. *)
Definition zero_pad (width : nat) (s : string) : string :=
  String.concat "" (replicate (width - String.length s) "0"%string) ++ s.

Definition hex (n : N) : string :=
  match n with
  | N0 => "0"
  | Npos p => HexString.Raw.of_pos p ""
  end.

Definition format_08x (rid : Z) : string :=
  match rid with
  | Zneg p => "-" ++ zero_pad 7 (hex (Npos p))
  | _ => zero_pad 8 (hex (Z.to_N rid))
  end.

(** [hx[-2:], hx] of [__attrs_post_init__]. *)
Definition make_cache_keys (rid : Z) : string * string :=
  let hx := format_08x rid in
  (String.substring (String.length hx - 2) 2 hx, hx).

(** [Resource(name=..., rid=..., pid=..., is_file=..., use_cache=...)]. *)
Definition new_Resource (name : string) (rid : Z) (pid : option Z)
    (is_file use_cache : bool) : Resource :=
  mkResource name rid pid is_file [] [] use_cache (make_cache_keys rid) 0 0 0.

(** Resource objects are shared: the codebase list, [Codebase.root] and the
    callers all hold references to the same object. An object is named by its
    address in [heap]. *)
Abbreviation addr := nat.

(** What an element of [Codebase.resources] can be: [None] for a removed
    resource, a reference to a [Resource], or a plain int ([add_child]
    appends one). *)
Inductive slot : Type :=
| SNone
| SResource (a : addr)
| SInt (n : Z).

(** The codebase with the objects it refers to. [codebase_is_file] is
    [Codebase.is_file]. *)
Record Codebase : Type := mkCodebase {
  heap : list Resource;
  resources : list slot;
  root : addr;
  codebase_is_file : bool;
}.

Definition with_heap (h : list Resource) (cb : Codebase) : Codebase :=
  mkCodebase h (resources cb) (root cb) (codebase_is_file cb).

Definition with_resources (l : list slot) (cb : Codebase) : Codebase :=
  mkCodebase (heap cb) l (root cb) (codebase_is_file cb).

(** Methods that change the codebase or its resources: the state is threaded
    through and is still there when an exception is raised. *)
Definition M (A : Type) : Type := Codebase -> result A * Codebase.

#[export] Instance M_ret : MRet M := fun _ a cb => (Ok a, cb).
#[export] Instance M_bind : MBind M := fun _ _ k m cb =>
  match m cb with
  | (Ok a, cb') => k a cb'
  | (Raise e, cb') => (Raise e, cb')
  end.

Definition raise {A : Type} (e : exn) : M A := fun cb => (Raise e, cb).

(** A computation that only reads the codebase. *)
Definition reading {A : Type} (f : Codebase -> result A) : M A :=
  fun cb => (f cb, cb).

Definition modify (f : Codebase -> Codebase) : M unit :=
  fun cb => (Ok tt, f cb).

(** The object at an address. Every address handed out is in the heap;
    [AttributeError] stands for one that is not. *)
Definition deref (cb : Codebase) (a : addr) : result Resource :=
  match heap cb !! a with
  | Some r => Ok r
  | None => Raise AttributeError
  end.

(** Attribute access on an element of the list: only a [Resource] has the
    attributes. *)
Definition as_resource (s : slot) : result addr :=
  match s with
  | SResource a => Ok a
  | _ => Raise AttributeError
  end.

Definition attr_of (cb : Codebase) (s : slot) : result Resource :=
  a ← as_resource s; deref cb a.

(** Changing attributes of the object at [a] in place. *)
Definition update_object (a : addr) (f : Resource -> Resource) : M unit :=
  modify (fun cb => with_heap (alter f a (heap cb)) cb).

(** [Resource.is_root]. *)
Definition is_root (r : Resource) : bool :=
  match pid r with None => true | Some _ => false end.

(** [Resource.children]: [[resources[rid] for rid in self.children_rids]]. *)
Definition children (cb : Codebase) (self : addr) : result (list slot) :=
  r ← deref cb self;
  mapM (Py.getitem (resources cb)) (children_rids r).

(** [Resource.parent]. *)
Definition parent (cb : Codebase) (self : addr) : result slot :=
  r ← deref cb self;
  match pid r with
  | Some p => Py.getitem (resources cb) p
  | None => Ok SNone
  end.

(** [sorter = lambda r: (r.is_file, r.name)] and the order of its tuples. *)
Definition sorter (cb : Codebase) (s : slot) : result (bool * string) :=
  r ← attr_of cb s; Ok (is_file r, name r).

Definition sorter_leb (k1 k2 : bool * string) : bool :=
  match fst k1, fst k2 with
  | false, true => true
  | true, false => false
  | _, _ => String.leb (snd k1) (snd k2)
  end.

(** [children.sort(key=sorter)]: the keys are computed first. *)
Definition sort_children (cb : Codebase) (l : list slot) : result (list slot) :=
  keyed ← mapM (fun s => k ← sorter cb s; Ok (k, s)) l;
  Ok (snd <$> Py.sorted sorter_leb fst keyed).

(** [Resource._walk], with the resources it yields collected in order. *)
Fixpoint _walk (fuel : nat) (cb : Codebase) (self : addr) (topdown sort : bool)
  : result (list addr) :=
  match fuel with
  | O => Raise OutOfFuel
  | S fuel' =>
      cs ← children cb self;
      cs ← (if sort && negb (bool_decide (cs = [])) then sort_children cb cs
            else Ok cs);
      subs ← mapM (fun child =>
                     a ← as_resource child; _walk fuel' cb a topdown sort) cs;
      Ok ((if topdown then [self] else []) ++ concat subs
          ++ (if topdown then [] else [self]))
  end.

(** Modelled from the spec: [iter_skip] of [commoncode.functional] is not
    among the sources. The spec has [skip_root] elide the root from the
    sequence, "first element if [topdown], last if not": [iter_skip] leaves
    out the first item when [skip_first] and the last item when [skip_last]. *)
Definition iter_skip {A : Type} (l : list A) (skip_first skip_last : bool) : list A :=
  let l := if skip_first then tail l else l in
  if skip_last then removelast l else l.

(** [Resource.walk]. *)
Definition walk (fuel : nat) (cb : Codebase) (self : addr)
    (topdown sort skip_root : bool) : result (list addr) :=
  r ← deref cb self;
  if is_root r && bool_decide (children_rids r = []) then Ok [self]
  else
    walked ← _walk fuel cb self topdown sort;
    if skip_root then
      let skip_first := topdown in
      let skip_last := negb topdown in
      Ok (iter_skip walked skip_first skip_last)
    else Ok walked.

(** [Codebase.walk]. *)
Definition Codebase_walk (fuel : nat) (cb : Codebase)
    (topdown sort skip_root : bool) : result (list addr) :=
  r ← deref cb (root cb);
  if bool_decide (children_rids r = []) then Ok [root cb]
  else walk fuel cb (root cb) topdown sort skip_root.

(** [Codebase.get_resource]: [None] when the index is out of range. *)
Definition get_resource (cb : Codebase) (rid : Z) : slot :=
  match Py.getitem (resources cb) rid with
  | Ok s => s
  | Raise _ => SNone
  end.

(** [Codebase._get_next_rid]: [len([r for r in self.resources if r is not None])]. *)
Definition is_not_None (s : slot) : bool :=
  match s with SNone => false | _ => true end.

Definition _get_next_rid (cb : Codebase) : Z :=
  Z.of_nat (length (List.filter is_not_None (resources cb))).

(** [Resource._add_child]: the new object is put in the heap and its id is
    appended to the children of [self]. Returns the new object. *)
Definition _add_child (self : addr) (child_name : string) (child_rid : Z)
    (child_is_file : bool) : M addr :=
  r ← reading (fun cb => deref cb self);
  let res := new_Resource child_name child_rid (Some (rid r)) child_is_file
               (use_cache r) in
  a ← (fun cb => (Ok (length (heap cb)), with_heap (heap cb ++ [res]) cb));
  update_object self
    (fun r => with_children_rids (children_rids r ++ [child_rid]) r);;
  mret a.

(** [Resource.add_child]. *)
Definition add_child (self : addr) (name : string) (is_file : bool) : M addr :=
  rid ← reading (fun cb => Ok (_get_next_rid cb));
  child ← _add_child self name rid is_file;
  modify (fun cb => with_resources (resources cb ++ [SInt rid]) cb);;
  mret child.

(** [Codebase.add_resource]. *)
Definition add_resource (name : string) (parent : addr) (is_file : bool) : M addr :=
  add_child parent name is_file.

(** The truth value of an element of the list: [None] and [0] are false, an
    object is true. *)
Definition truthy (s : slot) : bool :=
  match s with
  | SNone => false
  | SResource _ => true
  | SInt n => negb (n =? 0)
  end.

(** [for rid in rids: resources[rid] = None]. *)
Fixpoint clear_slots (rids : list Z) : M unit :=
  match rids with
  | [] => mret tt
  | rid :: rids' =>
      (fun cb => match Py.setitem (resources cb) rid SNone with
                 | Ok l => (Ok tt, with_resources l cb)
                 | Raise e => (Raise e, cb)
                 end);;
      clear_slots rids'
  end.

(** [Codebase.remove_resource]. *)
Definition remove_resource (fuel : nat) (resource : addr) : M (list Z) :=
  r ← reading (fun cb => deref cb resource);
  if is_root r then raise RootRemoval
  else
    rids ← reading (fun cb =>
                      walked ← walk fuel cb resource true false false;
                      mapM (fun a => r' ← deref cb a; Ok (rid r')) walked);
    clear_slots rids;;
    p ← reading (fun cb => parent cb resource);
    (if truthy p then
       pa ← reading (fun _ => as_resource p);
       pr ← reading (fun cb => deref cb pa);
       match Py.remove (children_rids pr) (rid r) with
       | Ok l => update_object pa (with_children_rids l)
       | Raise ValueError => mret tt
       | Raise e => raise e
       end
     else mret tt);;
    mret rids.

(** The loop of [Resource._children_counts] over the children. *)
Fixpoint add_children_counts (cb : Codebase) (cs : list slot) (acc : Z * Z * Z)
  : result (Z * Z * Z) :=
  match cs with
  | [] => Ok acc
  | c :: cs' =>
      res ← attr_of cb c;
      let '(files_count0, dirs_count0, size0) := acc in
      let files_count1 := files_count0 + files_count res in
      let dirs_count1 := dirs_count0 + dirs_count res in
      add_children_counts cb cs'
        (if is_file res then (files_count1 + 1, dirs_count1, size0 + size res)
         else (files_count1, dirs_count1 + 1, size0 + size res))
  end.

(** [Resource._children_counts]: [(files_count, dirs_count, size)]. *)
Definition _children_counts (cb : Codebase) (self : addr) : result (Z * Z * Z) :=
  r ← deref cb self;
  if bool_decide (children_rids r = []) then Ok (0, 0, 0)
  else
    cs ← children cb self;
    add_children_counts cb cs (0, 0, 0).

(** [Resource._update_children_counts]: the size is only set for a
    directory. *)
Definition _update_children_counts (self : addr) : M unit :=
  '(files, dirs, sz) ← reading (fun cb => _children_counts cb self);
  update_object self
    (fun r => with_counts files dirs (if is_file r then size r else sz) r).

(** [for resource in ...: resource._update_children_counts()]. *)
Fixpoint update_each (walked : list addr) : M unit :=
  match walked with
  | [] => mret tt
  | resource :: walked' => _update_children_counts resource;; update_each walked'
  end.

(** [Codebase.update_counts]. The walk only reads [children_rids] and the
    list of resources, which the updates leave alone, so the resources it
    hands out are collected first. *)
Definition update_counts (fuel : nat) : M unit :=
  walked ← reading (fun cb => Codebase_walk fuel cb false false false);
  update_each walked.

(** [map(sum, zip( *counts))] unpacked into three names: the three sums, and
    [ValueError] when there is nothing to unpack. *)
Definition sum_counts (counts : list (Z * Z * Z)) : result (Z * Z * Z) :=
  match counts with
  | [] => Raise ValueError
  | _ => Ok (foldr Z.add 0 ((fun c => fst (fst c)) <$> counts),
             foldr Z.add 0 ((fun c => snd (fst c)) <$> counts),
             foldr Z.add 0 (snd <$> counts))
  end.

(** [Codebase.counts]. *)
Definition counts (fuel : nat) (update skip_root : bool) : M (Z * Z * Z) :=
  (if update then update_counts fuel else mret tt);;
  reading (fun cb =>
    r ← deref cb (root cb);
    if skip_root && negb (codebase_is_file cb) then
      cs ← children cb (root cb);
      counts ← mapM (fun c => res ← attr_of cb c;
                              Ok (files_count res, dirs_count res, size res)) cs;
      sum_counts counts
    else
      let files_count0 := files_count r in
      let dirs_count0 := dirs_count r in
      if codebase_is_file cb then Ok (files_count0 + 1, dirs_count0, size r)
      else Ok (files_count0, dirs_count0 + 1, size r)).

(** ** The scans of a resource and their cache *)

(** [d[k] = v] on an [OrderedDict]: a key already there keeps its place. *)
Fixpoint od_setitem (d : OrderedDict) (k : string) (v : json) : OrderedDict :=
  match d with
  | [] => [(k, v)]
  | (k', v') :: d' =>
      if String.eqb k' k then (k, v) :: d' else (k', v') :: od_setitem d' k v
  end.

(** [d.update(other)]. *)
Definition od_update (d other : OrderedDict) : OrderedDict :=
  fold_left (fun d kv => od_setitem d (fst kv) (snd kv)) other d.
Arguments od_update : simpl never.

(** [d.get(k)]. *)
Fixpoint od_get (d : OrderedDict) (k : string) : option json :=
  match d with
  | [] => None
  | (k', v) :: d' => if String.eqb k' k then Some v else od_get d' k
  end.

(** The files under the cache directory of the codebase, by their path below
    it. [json.dump] writes the items of the mapping in order and [json.load]
    with [object_pairs_hook=OrderedDict] reads them back in that order: a file
    is modelled by the items it holds. *)
Abbreviation cache_files := (gmap string OrderedDict).

(** [Resource._get_cached_path], below the cache directory. *)
Definition _get_cached_path (r : Resource) : string :=
  let '(cache_sub_dir, cache_file_name) := cache_keys r in
  cache_sub_dir ++ "/" ++ cache_file_name.

(** [Resource.get_scans]. *)
Definition get_scans (r : Resource) (files : cache_files) : OrderedDict :=
  if negb (use_cache r) then _scans r
  else
    match files !! _get_cached_path r with
    | None => []
    | Some cached => cached
    end.

(** [Resource.put_scans]; [scans] is [None] for Python's [None]. Returns the
    saved mapping with the resource and the files afterwards. *)
Definition put_scans (r : Resource) (files : cache_files)
    (scans : option OrderedDict) (update : bool)
  : OrderedDict * Resource * cache_files :=
  match scans with
  | None | Some [] => ([], r, files)
  | Some scans =>
      if negb (use_cache r) then
        let d := if update then od_update (_scans r) scans
                 else od_update [] scans in
        (d, with_scans d r, files)
      else
        let r := with_scans [] r in
        let cached_path := _get_cached_path r in
        let existing := if update then od_update (get_scans r files) scans
                        else scans in
        (existing, r, <[cached_path := existing]> files)
  end.

(** ** The merkle tree builder ([plugin_merkle_tree.py]) *)

Module Merkle.

Local Open Scope string_scope.

(** A scan result: the keys of the mapping that the builder reads or writes.
    [sha1] is [None] for Python's [None]. *)
Record record : Type := mkRecord {
  path : string;
  type : string;
  sha1 : option string;
}.

(** *** Paths *)

(** [s.lstrip('/')], [s.rstrip('/')] and [s.strip('/')]. *)
Fixpoint lstrip_slash (s : string) : string :=
  match s with
  | String c s' => if Ascii.eqb c "/" then lstrip_slash s' else s
  | EmptyString => EmptyString
  end.

Definition rstrip_slash (s : string) : string :=
  String.rev (lstrip_slash (String.rev s)).

Definition strip_slash (s : string) : string :=
  rstrip_slash (lstrip_slash s).

(** [s.split('/')[0]]. *)
Fixpoint first_segment (s : string) : string :=
  match s with
  | String c s' => if Ascii.eqb c "/" then EmptyString else String c (first_segment s')
  | EmptyString => EmptyString
  end.

(** The text after the last ['/'] dropped: [s[:s.rfind('/') + 1]]. *)
Fixpoint keep_from_slash (s : string) : string :=
  match s with
  | String c s' => if Ascii.eqb c "/" then s else keep_from_slash s'
  | EmptyString => EmptyString
  end.

Definition up_to_last_slash (s : string) : string :=
  String.rev (keep_from_slash (String.rev s)).

(** Modelled from the spec: [parent_directory] of [commoncode.fileutils] is
    not among the sources. The spec calls what the builder looks up the
    "direct parent path" of a "POSIX-style" path: the path without its last
    segment. The result ends with the separator, which [build_tree] strips;
    a path of one segment has the bare separator for parent. *)
Definition parent_directory (path : string) : string :=
  let parent := rstrip_slash (up_to_last_slash (rstrip_slash path)) in
  parent ++ "/".

(** [parent_directory(path).strip('/')]. *)
Definition parent_path (path : string) : string :=
  strip_slash (parent_directory path).

(** *** The tree objects *)

(** [Dir] objects are shared and changed in place, and so are the lists hung
    on them: [dir.dirs = current.dirs] makes two [Dir] objects hold the same
    list. A [Dir] and a list are named by their address. A [File] is never
    changed: it is the record it wraps. *)
Abbreviation dir_ref := nat.
Abbreviation list_ref := nat.

Record Dir : Type := mkDir {
  data : record;
  dirs : list_ref;   (* a list of Dir *)
  files : list_ref;  (* a list of File *)
}.

Record heap : Type := mkHeap {
  dir_objects : list Dir;
  dir_lists : list (list dir_ref);
  file_lists : list (list record);
}.

Definition empty_heap : heap := mkHeap [] [] [].

Definition get_dir (h : heap) (d : dir_ref) : result Dir :=
  match dir_objects h !! d with
  | Some o => Ok o
  | None => Raise AttributeError
  end.

Definition get_dirs (h : heap) (d : dir_ref) : result (list dir_ref) :=
  o ← get_dir h d;
  match dir_lists h !! dirs o with
  | Some l => Ok l
  | None => Raise AttributeError
  end.

Definition get_files (h : heap) (d : dir_ref) : result (list record) :=
  o ← get_dir h d;
  match file_lists h !! files o with
  | Some l => Ok l
  | None => Raise AttributeError
  end.

(** [Dir(data)]: a new object with two new empty lists. *)
Definition new_Dir (h : heap) (data : record) : dir_ref * heap :=
  (length (dir_objects h),
   mkHeap (dir_objects h ++ [mkDir data (length (dir_lists h)) (length (file_lists h))])%list
          (dir_lists h ++ [[]])%list
          (file_lists h ++ [[]])%list).

Arguments new_Dir : simpl never.

Definition set_dir (h : heap) (d : dir_ref) (f : Dir -> Dir) : heap :=
  mkHeap (alter f d (dir_objects h)) (dir_lists h) (file_lists h).

(** [d.dirs.append(x)] and [d.files.append(f)]. *)
Definition append_dir (h : heap) (d : dir_ref) (x : dir_ref) : result heap :=
  o ← get_dir h d;
  Ok (mkHeap (dir_objects h) (alter (fun l => (l ++ [x])%list) (dirs o) (dir_lists h))
             (file_lists h)).

Definition append_file (h : heap) (d : dir_ref) (f : record) : result heap :=
  o ← get_dir h d;
  Ok (mkHeap (dir_objects h) (dir_lists h)
             (alter (fun l => (l ++ [f])%list) (files o) (file_lists h))).

(** [Dir.__eq__] between two [Dir] objects: the same path. *)
Definition dir_eqb (h : heap) (d1 d2 : dir_ref) : result bool :=
  o1 ← get_dir h d1;
  o2 ← get_dir h d2;
  Ok (String.eqb (path (data o1)) (path (data o2))).

(** The first [dir] of a list with [dir == d], as the [for ... if ... break]
    loops look for it. *)
Fixpoint find_equal (h : heap) (l : list dir_ref) (d : dir_ref)
  : result (option dir_ref) :=
  match l with
  | [] => Ok None
  | dir :: l' =>
      b ← dir_eqb h dir d;
      if (b : bool) then Ok (Some dir) else find_equal h l' d
  end.

(** Modelled from the spec: [_empty_file_infos] of [scancode.api] is not among
    the sources. The spec has a synthesized directory be a "placeholder",
    "replaced in place by its real record's data" later: a record with no
    content hash. [create_empty_dir] gives it its path and the type
    ['directory']. *)
Definition create_empty_dir (h : heap) (path : string) : dir_ref * heap :=
  new_Dir h (mkRecord path "directory" None).
Arguments create_empty_dir : simpl never.

(** What [build_tree] holds while it runs: the objects and the local
    dictionary [dirs], from a path to the [Dir] made for it. *)
Record builder : Type := mkBuilder {
  objects : heap;
  known : gmap string dir_ref;
}.

(** The [while current != root] loop. Returns the local [parent] afterwards. *)
Fixpoint attach (fuel : nat) (b : builder) (root parent current : dir_ref)
  : result (builder * dir_ref) :=
  match fuel with
  | O => Raise OutOfFuel
  | S fuel' =>
      same ← dir_eqb (objects b) current root;
      if (same : bool) then Ok (b, parent)
      else
        c ← get_dir (objects b) current;
        let curr_path := path (data c) in
        let curr_parent_path := parent_path curr_path in
        match known b !! curr_parent_path with
        | Some curr_parent =>
            l ← get_dirs (objects b) curr_parent;
            found ← find_equal (objects b) l current;
            h ← match found with
                | Some dir =>
                    Ok (set_dir (objects b) dir
                          (fun o => mkDir (data o) (dirs c) (files c)))
                | None => append_dir (objects b) curr_parent current
                end;
            attach fuel' (mkBuilder h (known b)) root parent curr_parent
        | None =>
            let '(parent, h) := create_empty_dir (objects b) curr_parent_path in
            let b := mkBuilder h (<[curr_parent_path := parent]> (known b)) in
            attach fuel' b root parent parent
        end
  end.

(** The body of [for scanned_file in results]. *)
Definition add_record (fuel : nat) (root : dir_ref) (b : builder)
    (scanned_file : record) : result builder :=
  let path := path scanned_file in
  let isdir := String.eqb (type scanned_file) "directory" in
  let parent_path := parent_path path in
  '(b, parent) ←
    match known b !! parent_path with
    | Some parent => Ok (b, parent)
    | None =>
        let '(parent, h) := create_empty_dir (objects b) parent_path in
        let b := mkBuilder h (<[parent_path := parent]> (known b)) in
        attach fuel b root parent parent
    end;
  if isdir then
    let '(d, h) := new_Dir (objects b) scanned_file in
    l ← get_dirs h parent;
    found ← find_equal h l d;
    match found with
    | Some dir =>
        Ok (mkBuilder (set_dir h dir (fun o => mkDir scanned_file (dirs o) (files o)))
              (known b))
    | None => h ← append_dir h parent d; Ok (mkBuilder h (known b))
    end
  else
    h ← append_file (objects b) parent scanned_file;
    Ok (mkBuilder h (known b)).

Fixpoint add_records (fuel : nat) (root : dir_ref) (b : builder)
    (results : list record) : result builder :=
  match results with
  | [] => Ok b
  | scanned_file :: results' =>
      b ← add_record fuel root b scanned_file;
      add_records fuel root b results'
  end.

(** [build_tree]: the root and the objects of the tree. *)
Definition build_tree (fuel : nat) (results : list record)
  : result (dir_ref * heap) :=
  sample_file ← Py.getitem results 0;
  let sample_file_path := path sample_file in
  let root_path := first_segment sample_file_path in
  let '(root, h) := create_empty_dir empty_heap root_path in
  b ← add_records fuel root (mkBuilder h {[ root_path := root ]}) results;
  Ok (root, objects b).

(** [Dir.postorder_walk]: the directories in the order they are yielded. *)
Fixpoint postorder_walk (fuel : nat) (h : heap) (self : dir_ref)
  : result (list dir_ref) :=
  match fuel with
  | O => Raise OutOfFuel
  | S fuel' =>
      ds ← get_dirs h self;
      subs ← mapM (postorder_walk fuel' h) ds;
      Ok (concat subs ++ [self])%list
  end.

(** *** Hashing *)

Section Hashing.

(** [hashlib]'s SHA1: the hex digest of a message. *)
Variable hexdigest : string -> string.

(** A [sha1()] object: the text it has been fed so far. *)
Definition sha1_object := string.

(** [h.update(s)]; [None] is not a string. *)
Definition update (h : sha1_object) (s : option string) : result sha1_object :=
  match s with
  | Some s => Ok (h ++ s)
  | None => Raise TypeError
  end.

(** The order of the [sha1] keys: [None] sorts before every string. *)
Definition sha1_leb (k1 k2 : option string) : bool :=
  match k1, k2 with
  | None, _ => true
  | Some _, None => false
  | Some s1, Some s2 => String.leb s1 s2
  end.

Definition sha1_le (k1 k2 : option string) : Prop := sha1_leb k1 k2 = true.

(** [for file in ...: dir_hash.update(file.data['sha1']); yield file.data]. *)
Fixpoint hash_files (dir_hash : sha1_object) (files : list record)
  : result (sha1_object * list record) :=
  match files with
  | [] => Ok (dir_hash, [])
  | file :: files' =>
      dir_hash ← update dir_hash (sha1 file);
      '(dir_hash, yielded) ← hash_files dir_hash files';
      Ok (dir_hash, file :: yielded)
  end.

(** [for hash in ...: dir_hash.update(hash.hexdigest())]. *)
Definition hash_pending (dir_hash : sha1_object) (hashes : list sha1_object)
  : sha1_object :=
  fold_left (fun h hash => h ++ hexdigest hash) hashes dir_hash.

(** The body of the loop of [build_merkle_tree] for one directory, given its
    [dirs] and [files] and the [hash_stack]: the [dir_hash] at the end, the
    [hash_stack] afterwards and the file records yielded. *)
Definition hash_dir (hash_stack : list sha1_object) (dirs : list dir_ref)
    (files : list record)
  : result (sha1_object * list sha1_object * list record) :=
  '(dir_hash, yielded) ← hash_files "" (Py.sorted sha1_leb sha1 files);
  if bool_decide (dirs <> []) then
    let dir_hash := hash_pending dir_hash (Py.sorted String.leb hexdigest hash_stack) in
    Ok (dir_hash, [], yielded)
  else
    Ok (dir_hash, (hash_stack ++ [dir_hash])%list, yielded).

(** The state of the generator between two directories. *)
Record pass : Type := mkPass {
  tree : heap;
  hash_stack : list sha1_object;
  yielded : list record;
}.

(** [present_dir.data['sha1'] = dir_hash.hexdigest()]: the record of the
    directory with its digest. *)
Definition hashed (o : Dir) (dir_hash : sha1_object) : record :=
  mkRecord (path (data o)) (type (data o)) (Some (hexdigest dir_hash)).

(** One directory of the walk: its files are yielded, then its own record
    with the digest. *)
Definition visit (p : pass) (present_dir : dir_ref) : result pass :=
  ds ← get_dirs (tree p) present_dir;
  fs ← get_files (tree p) present_dir;
  '(dir_hash, stack, file_records) ← hash_dir (hash_stack p) ds fs;
  let h := set_dir (tree p) present_dir
             (fun o => mkDir (hashed o dir_hash) (dirs o) (files o)) in
  o ← get_dir h present_dir;
  Ok (mkPass h stack (yielded p ++ file_records ++ [data o])%list).

Fixpoint visit_all (p : pass) (walked : list dir_ref) : result pass :=
  match walked with
  | [] => Ok p
  | present_dir :: walked' => p ← visit p present_dir; visit_all p walked'
  end.

(** [build_merkle_tree]: the records it yields, in order. *)
Definition build_merkle_tree (fuel : nat) (results : list record)
  : result (list record) :=
  '(root, h) ← build_tree fuel results;
  walked ← postorder_walk fuel h root;
  p ← visit_all (mkPass h [] []) walked;
  Ok (yielded p).

End Hashing.

End Merkle.

(** ** What the properties speak of *)

(** The handle [h] of the codebase names the resource object at [a], whose
    attributes are [r]. *)
Definition live (cb : Codebase) (h : Z) (a : addr) (r : Resource) : Prop :=
  0 <= h /\ resources cb !! Z.to_nat h = Some (SResource a) /\ heap cb !! a = Some r.

(** [c] is in the children of the resource with handle [p]. *)
Definition child_of (cb : Codebase) (p c : Z) : Prop :=
  exists a r, live cb p a r /\ c ∈ children_rids r.

(** [d] is [h] or one of its descendants. *)
Definition descendant (cb : Codebase) : Z -> Z -> Prop := rtc (child_of cb).

(** The shape of a tree as [populate] builds it and [remove_resource] leaves
    it: the list holds [None] or a resource at the index that is its [rid];
    the root is first and is the only resource without a parent; the children
    of a resource are resources further down the list that name it as their
    parent, each listed once; and a resource is listed by its parent. *)
Record populated (cb : Codebase) : Prop := mkPopulated {
  populated_slot : forall (i : nat) s,
    resources cb !! i = Some s ->
    s = SNone \/ exists a r, s = SResource a /\ heap cb !! a = Some r /\ rid r = Z.of_nat i;
  populated_root : exists r, live cb 0 (root cb) r /\ pid r = None;
  populated_root_only : forall h a r, live cb h a r -> pid r = None -> h = 0;
  populated_children : forall h a r c,
    live cb h a r -> c ∈ children_rids r ->
    h < c /\ exists ac rc, live cb c ac rc /\ pid rc = Some h;
  populated_NoDup : forall h a r, live cb h a r -> NoDup (children_rids r);
  populated_parent : forall h a r p,
    live cb h a r -> pid r = Some p ->
    exists ap rp, live cb p ap rp /\ h ∈ children_rids rp;
}.

(** The aggregates are up to date: every resource of the list holds the
    counts of its children, and every directory their size. *)
Definition aggregates_current (cb : Codebase) : Prop :=
  forall h a r, live cb h a r ->
    exists sz, _children_counts cb a = Ok (files_count r, dirs_count r, sz)
               /\ (is_file r = false -> size r = sz).

(** The sum of an attribute over the children of the root. *)
Definition sum_over (f : Resource -> Z) (rs : list Resource) : Z :=
  foldr Z.add 0 (f <$> rs).

(** A mapping has each key once. *)
Definition is_mapping (d : OrderedDict) : Prop := NoDup (fst <$> d).

(** ** Sample trees *)

Module Sample.

Local Open Scope string_scope.

(** A directory [root] with a sub-directory [b] holding [c.txt], and a file
    [a.txt]; the aggregates are up to date. *)
Definition root_dir : Resource :=
  with_counts 2 1 15 (with_children_rids [1; 2] (new_Resource "root" 0 None false false)).
Definition b_dir : Resource :=
  with_counts 1 0 5 (with_children_rids [3] (new_Resource "b" 1 (Some 0) false false)).
Definition a_txt : Resource :=
  with_counts 0 0 10 (new_Resource "a.txt" 2 (Some 0) true false).
Definition c_txt : Resource :=
  with_counts 0 0 5 (new_Resource "c.txt" 3 (Some 1) true false).

Definition tree : Codebase :=
  mkCodebase [root_dir; b_dir; a_txt; c_txt]
    [SResource 0%nat; SResource 1%nat; SResource 2%nat; SResource 3%nat] 0%nat false.

(** A codebase that is a single directory, and one that is a single file. *)
Definition lone_dir : Codebase :=
  mkCodebase [new_Resource "root" 0 None false false] [SResource 0%nat] 0%nat false.

Definition lone_file : Codebase :=
  mkCodebase [with_counts 0 0 7 (new_Resource "f.txt" 0 None true false)]
    [SResource 0%nat] 0%nat true.

End Sample.

(** What the spec says of [counts] without [skip_root]: the aggregates of
    the root as they are. *)
Definition counts_is_root_triple (cb : Codebase) : Prop :=
  forall r, heap cb !! root cb = Some r ->
    fst (counts (length (resources cb)) true false cb)
    = Ok (files_count r, dirs_count r, size r).

(** ** Sample streams of scan results *)

Module Stream.

Import Merkle.
Local Open Scope string_scope.

Definition file (path sha1 : string) : record := mkRecord path "file" (Some sha1).

(** Two files of one directory, no directory listed, in both orders. *)
Definition x_then_y : list record := [file "a/b/c/x" "11"; file "a/b/c/y" "22"].
Definition y_then_x : list record := [file "a/b/c/y" "22"; file "a/b/c/x" "11"].

(** Two files whose paths start with different segments. *)
Definition two_tops : list record := [file "a/x" "11"; file "b/y" "22"].

Definition placeholder (path : string) (lists : nat) : Dir :=
  mkDir (mkRecord path "directory" None) lists lists.

(** [build_tree] on [two_tops]: what it holds when the loop starts for
    ["b/y"], with the root for ["a"] and the placeholder for ["b"]. *)
Definition before_loop : builder :=
  mkBuilder
    (mkHeap [placeholder "a" 0; placeholder "b" 1] [[]; []] [[file "a/x" "11"]; []])
    {[ "a" := 0%nat; "b" := 1%nat ]}.

(** And two rounds later: the placeholder for the empty path is known under
    the empty path and is in its own [dirs]. *)
Definition in_loop : builder :=
  mkBuilder
    (mkHeap [placeholder "a" 0; placeholder "b" 1; placeholder "" 2]
       [[]; []; [2%nat]] [[file "a/x" "11"]; []; []])
    {[ "a" := 0%nat; "b" := 1%nat; "" := 2%nat ]}.

End Stream.

(** The paths of the [Dir] objects made so far, by address. *)
Definition dir_paths (h : Merkle.heap) : list string :=
  (fun o => Merkle.path (Merkle.data o)) <$> Merkle.dir_objects h.

(** What the object at [a0] is after the removal of the resource [h], whose
    parent is the object at [ap]. *)
Definition after_removal (h : Z) (ap : addr) (a0 : addr) (r0 : Resource) : Resource :=
  if decide (a0 = ap)
  then with_children_rids (filter (fun c => c <> h) (children_rids r0)) r0
  else r0.

(** ** More of [resource.py] *)

(** [Codebase.resource_counts]; [given] is the optional list of resources.
    [resources or self.resources] takes the list of the codebase when none is
    given and also when the one given is empty. *)
Fixpoint count_resources (cb : Codebase) (l : list slot) (acc : Z * Z)
  : result (Z * Z) :=
  match l with
  | [] => Ok acc
  | SNone :: l' => count_resources cb l' acc
  | res :: l' =>
      r ← attr_of cb res;
      count_resources cb l'
        (if is_file r then (fst acc + 1, snd acc) else (fst acc, snd acc + 1))
  end.

Definition resource_counts (cb : Codebase) (given : option (list slot))
  : result (Z * Z) :=
  let l := match given with
           | None | Some [] => resources cb
           | Some l => l
           end in
  count_resources cb l (0, 0).

(** [Codebase.get_resources_with_rid]: the pairs yielded, in order. *)
Fixpoint enumerate_from {A : Type} (i : Z) (l : list A) : list (Z * A) :=
  match l with
  | [] => []
  | x :: l' => (i, x) :: enumerate_from (i + 1) l'
  end.

Definition get_resources_with_rid (cb : Codebase) : list (Z * slot) :=
  List.filter (fun p => is_not_None (snd p)) (enumerate_from 0 (resources cb)).

(** [Resource.ancestors]: the [while current.pid is not None] loop, with
    [ancestors.appendleft]. *)
Fixpoint ancestors_from (fuel : nat) (cb : Codebase) (current : slot)
    (ancestors : list addr) : result (list addr) :=
  match fuel with
  | O => Raise OutOfFuel
  | S fuel' =>
      a ← as_resource current;
      r ← deref cb a;
      match pid r with
      | Some p =>
          next ← Py.getitem (resources cb) p;
          ancestors_from fuel' cb next (a :: ancestors)
      | None => Ok (a :: ancestors)
      end
  end.

Definition ancestors (fuel : nat) (cb : Codebase) (self : addr) : result (list addr) :=
  ancestors_from fuel cb (SResource self) [].

(** [Resource.get_path]. The functions of [os.path] and of [commoncode] it
    calls are taken as they come: [join] for [join( *segments)],
    [as_posixpath] and [fsdecode]; [base_location] is that of the codebase. *)
Section GetPath.
Variable join : list string -> string.
Variable as_posixpath : string -> string.
Variable fsdecode : string -> string.
Variable base_location : string.

Definition get_path (fuel : nat) (cb : Codebase) (self : addr)
    (absolute strip_root decode posix : bool) : result string :=
  ancestors ← ancestors fuel cb self;
  segments ← mapM (fun a => r ← deref cb a; Ok (name r)) ancestors;
  let segments :=
    if absolute then
      (if posix then as_posixpath base_location else base_location) :: segments
    else if strip_root then
      (if bool_decide (1 < length segments)%nat then drop 1 segments else segments)
    else segments in
  let path := join segments in
  let path := if posix then as_posixpath path else path in
  let path := if decode then fsdecode path else path in
  Ok path.
End GetPath.

(** ** What the properties of the walks speak of *)

(** The resource a handle names, if any. *)
Definition resource_at (cb : Codebase) (h : Z) : option Resource :=
  if h <? 0 then None
  else match resources cb !! Z.to_nat h with
       | Some (SResource a) => heap cb !! a
       | _ => None
       end.

(** The key [sorter] gives the resource a handle names. *)
Definition sort_key (cb : Codebase) (h : Z) : bool * string :=
  match resource_at cb h with
  | Some r => (is_file r, name r)
  | None => (false, EmptyString)
  end.

(** The order of two handles by their keys. *)
Definition sorted_by_key (cb : Codebase) (c1 c2 : Z) : Prop :=
  sorter_leb (sort_key cb c1) (sort_key cb c2) = true.

(** The ids a walk from [h] hands out, by the depth [n] of the walk: [h]
    before or after the ids handed out from its children, which are taken in
    the order of [children_rids], or by their keys with [sort]. *)
Fixpoint walks (n : nat) (cb : Codebase) (topdown sort : bool) (h : Z)
    (rids : list Z) : Prop :=
  match n with
  | O => False
  | S n' =>
      exists a r kids subs,
        live cb h a r
        /\ kids ≡ₚ children_rids r
        /\ (if sort then StronglySorted (sorted_by_key cb) kids
            else kids = children_rids r)
        /\ Forall2 (walks n' cb topdown sort) kids subs
        /\ rids = (if topdown then [h] else []) ++ concat subs
                  ++ (if topdown then [] else [h])
  end.

(** Two codebases with the same tree: the same list of resources, and objects
    that differ in nothing but their counts. *)
Definition same_tree (cb cb' : Codebase) : Prop :=
  resources cb' = resources cb
  /\ root cb' = root cb
  /\ codebase_is_file cb' = codebase_is_file cb
  /\ Forall2 (fun r r' => exists files dirs sz, r' = with_counts files dirs sz r)
       (heap cb) (heap cb').

(** One for a file, one for a directory, and the size, of the resource a
    handle names. *)
Definition file_weight (cb : Codebase) (h : Z) : Z :=
  match resource_at cb h with
  | Some r => if is_file r then 1 else 0
  | None => 0
  end.

Definition dir_weight (cb : Codebase) (h : Z) : Z :=
  match resource_at cb h with
  | Some r => if is_file r then 0 else 1
  | None => 0
  end.

(** The sum of a weight over a list of handles. *)
Definition total (w : Z -> Z) (l : list Z) : Z := foldr Z.add 0 (w <$> l).
Arguments total : simpl never.

(** The handles of the resources in the list, in the order of the list. *)
Definition live_handles (cb : Codebase) : list Z :=
  List.filter (fun h => bool_decide (is_Some (resource_at cb h)))
    (Z.of_nat <$> seq 0 (length (resources cb))).

(** The aggregates of the resource a handle names are up to date. *)
Definition current_at (cb : Codebase) (h : Z) : Prop :=
  forall a r, live cb h a r ->
    exists sz, _children_counts cb a = Ok (files_count r, dirs_count r, sz)
               /\ (is_file r = false -> size r = sz).

(** An attribute of the resource a handle names. *)
Definition attr_at (cb : Codebase) (f : Resource -> Z) (h : Z) : Z :=
  from_option f 0 (resource_at cb h).

(** The codebase after the counts of the object at [a] are set. *)
Definition set_counts (a : addr) (files dirs sz : Z) (cb : Codebase) : Codebase :=
  with_heap
    (alter (fun r => with_counts files dirs (if is_file r then size r else sz) r) a
       (heap cb)) cb.

(** The sample tree as [populate] leaves it: no count is set yet. *)
Definition stale_tree : Codebase :=
  with_heap (with_counts 0 0 0 <$> heap Sample.tree) Sample.tree.

(** ** Populating a codebase ([Codebase.populate]) *)

(** What [populate] ends with: the codebase, or the [KeyError] of
    [res_by_loc[top]], or an exception of the resources. *)
Inductive populate_outcome : Type :=
| Populated (cb : Codebase)
| KeyError (top : string)
| Failed (e : exn).

(** The state of the loop: the codebase, the last [rid] given and
    [res_by_loc]. *)
Record populating : Type := mkPopulating {
  codebase : Codebase;
  last_rid : Z;
  res_by_loc : gmap string addr;
}.

(** The file system and the functions of [commoncode] are taken as they
    come: [os_walk] is the sequence of [(top, dirs, files)] that
    [os_walk(rloc, topdown=True, onerror=err)] yields for a location ([err]
    only records the error), [ignored] is [ignore.is_ignored] with the VCS
    ignores. *)
Section Populate.
Variable file_name : string -> string.
Variable join : string -> string -> string.
Variable is_special : string -> bool.
Variable ignored : string -> bool.
Variable os_walk : string -> list (string * list string * list string).

(** The body of [for name in sorted(dirs)] and of [for name in
    sorted(files)]. *)
Definition add_entry (top : string) (parent : addr) (entry_is_file : bool)
    (st : populating) (entry_name : string) : result populating :=
  let loc := join top entry_name in
  if is_special loc || ignored loc then Ok st
  else
    let next := last_rid st + 1 in
    match _add_child parent entry_name next entry_is_file (codebase st) with
    | (Ok res, cb) =>
        Ok (mkPopulating (with_resources (resources cb ++ [SResource res]) cb)
              next (<[loc := res]> (res_by_loc st)))
    | (Raise e, _) => Raise e
    end.

Fixpoint add_entries (top : string) (parent : addr) (entry_is_file : bool)
    (names : list string) (st : populating) : result populating :=
  match names with
  | [] => Ok st
  | entry_name :: names' =>
      st' ← add_entry top parent entry_is_file st entry_name;
      add_entries top parent entry_is_file names' st'
  end.

(** [sorted(dirs)] and [sorted(files)]. *)
Definition sorted_names (names : list string) : list string :=
  Py.sorted String.leb (fun s => s) names.

(** The loop over what [os_walk] yields. *)
Fixpoint populate_walk (events : list (string * list string * list string))
    (st : populating) : populate_outcome :=
  match events with
  | [] => Populated (codebase st)
  | (top, dirs, files) :: events' =>
      if is_special top || ignored top then populate_walk events' st
      else
        match res_by_loc st !! top with
        | None => KeyError top
        | Some parent =>
            match (st1 ← add_entries top parent false (sorted_names dirs) st;
                   add_entries top parent true (sorted_names files) st1) with
            | Ok st' => populate_walk events' st'
            | Raise e => Failed e
            end
        end
  end.

(** [Codebase.populate], for a codebase at [location] with the given
    [is_file] and [use_cache]. [__init__] calls it on a codebase that holds
    no resource yet: the root is the first object made. *)
Definition populate (location : string) (is_file use_cache : bool)
  : populate_outcome :=
  let root := new_Resource (file_name location) 0 None is_file use_cache in
  let cb := mkCodebase [root] [SResource 0%nat] 0%nat is_file in
  if is_file then Populated cb
  else populate_walk (os_walk location)
         (mkPopulating cb 0 {[ location := 0%nat ]}).

End Populate.

(** The list holds a resource at every place, the one at the address that is
    the index. *)
Definition no_holes (cb : Codebase) : Prop :=
  resources cb = SResource <$> seq 0 (length (heap cb)).

(** The codebase after the resource [res] is added as the last child of the
    resource at [p]. *)
Definition after_add (p : addr) (res : Resource) (cb : Codebase) : Codebase :=
  mkCodebase
    (alter (fun r => with_children_rids (children_rids r ++ [rid res]) r) p
       (heap cb ++ [res]))
    (resources cb ++ [SResource (length (heap cb))])
    (root cb) (codebase_is_file cb).

(** What the loop of [populate] keeps: a populated tree without holes, the
    last [rid] given is the last index of the list, and [res_by_loc] holds
    resources of the tree. *)
Definition populating_ok (st : populating) : Prop :=
  populated (codebase st)
  /\ no_holes (codebase st)
  /\ last_rid st = Z.of_nat (length (heap (codebase st))) - 1
  /\ codebase_is_file (codebase st) = false
  /\ forall loc a, res_by_loc st !! loc = Some a ->
       (a < length (heap (codebase st)))%nat.

(** A location [populate] leaves out. *)
Definition skipped (is_special ignored : string -> bool) (loc : string) : bool :=
  is_special loc || ignored loc.

(** The objects of [cb] are still there in [cb'], with their names and
    kinds, and the root is the same. *)
Definition keeps_objects (cb cb' : Codebase) : Prop :=
  root cb' = root cb
  /\ forall a r, heap cb !! a = Some r ->
       exists r', heap cb' !! a = Some r' /\ name r' = name r /\ is_file r' = is_file r.

(** What [os.walk] yields top-down: every [top] but the first was listed
    among the [dirs] of an earlier [top]. *)
Definition well_nested (join : string -> string -> string) (location : string)
    (events : list (string * list string * list string)) : Prop :=
  forall (i : nat) top dirs files,
    events !! i = Some (top, dirs, files) ->
    top = location
    \/ exists (j : nat) top' dirs' files' entry_name,
         (j < i)%nat /\ events !! j = Some (top', dirs', files')
         /\ entry_name ∈ dirs' /\ top = join top' entry_name.

(** ** Sample directory listings *)

Module Listing.

Local Open Scope string_scope.

Definition join (top entry_name : string) : string := top ++ "/" ++ entry_name.

Definition nothing (loc : string) : bool := false.

(** [root] holds the directory [b] and the file [a.txt]; [b] holds
    [c.txt]. *)
Definition plain (location : string) : list (string * list string * list string) :=
  [("root", ["b"], ["a.txt"]); ("root/b", [], ["c.txt"])].

(** [root] holds [.git], which is ignored, while [objects] in it is not. *)
Definition only_git (loc : string) : bool := String.eqb loc "root/.git".

Definition with_git (location : string) : list (string * list string * list string) :=
  [("root", [".git"], []); ("root/.git", ["objects"], []);
   ("root/.git/objects", [], [])].

End Listing.

(** What [add_codebase] and [del_codebase] keep of the registry: no codebase
    is held under two ids, and the ids start at 1. *)
Definition registry_consistent (codebases : Registry.t) : Prop :=
  (forall cid1 cid2 codebase,
     codebases !! cid1 = Some codebase -> codebases !! cid2 = Some codebase ->
     cid1 = cid2)
  /\ (forall cid, is_Some (codebases !! cid) -> 1 <= cid).

(** The codebase after [add_child] has made [res] a child of the resource at
    [p]: the list of resources ends with the id of the child. *)
Definition after_add_child (p : addr) (res : Resource) (cb : Codebase) : Codebase :=
  mkCodebase
    (alter (fun r => with_children_rids (children_rids r ++ [rid res]) r) p
       (heap cb ++ [res]))
    (resources cb ++ [SInt (rid res)])
    (root cb) (codebase_is_file cb).
Arguments after_add_child : simpl never.

(** The children of every resource are in the order of their keys:
    directories first, and by name. *)
Definition children_sorted (cb : Codebase) : Prop :=
  forall a r, heap cb !! a = Some r ->
    StronglySorted (sorted_by_key cb) (children_rids r).

(** What the loop of [populate] keeps when [os_walk] yields every directory
    once; [done] holds the directories gone through. *)
Definition populating_sorted (st : populating) (done : list string) : Prop :=
  populating_ok st
  /\ children_sorted (codebase st)
  /\ (forall loc a r, res_by_loc st !! loc = Some a ->
        heap (codebase st) !! a = Some r -> loc ∉ done -> children_rids r = [])
  /\ (forall loc1 loc2 a, res_by_loc st !! loc1 = Some a ->
        res_by_loc st !! loc2 = Some a -> loc1 = loc2).

(** * Properties *)

(** ** Python lists *)

Section PyFacts.

Lemma Py_max_spec (l : list Z) :
  l <> [] -> exists m, Py.max l = Ok m /\ m ∈ l /\ forall x, x ∈ l -> x <= m.
Proof.
  destruct l as [|x l]; [done|]. intros _. simpl.
  exists (fold_left Z.max l x). split; [done|].
  revert x. induction l as [|y l IH]; intros x; simpl.
  - split; [left|]. intros z ->%list_elem_of_singleton. lia.
  - destruct (IH (Z.max x y)) as [Hin Hle]. split.
    + apply elem_of_cons in Hin as [Heq|Hin].
      * rewrite Heq. destruct (Z.max_spec x y) as [[_ ->]|[_ ->]].
        -- right. left.
        -- left.
      * right. by right.
    + intros z Hz. apply elem_of_cons in Hz as [->|Hz].
      * specialize (Hle (Z.max x y) ltac:(left)). lia.
      * apply elem_of_cons in Hz as [->|Hz].
        -- specialize (Hle (Z.max x y) ltac:(left)). lia.
        -- apply Hle. by right.
Qed.

End PyFacts.

(** ** The registry *)

Section RegistryFacts.

Import Registry.

Lemma find_codebase_Some (codebases : gmap Z codebase_ref) codebase cid :
  find_codebase codebases codebase = Some cid -> codebases !! cid = Some codebase.
Proof.
  unfold find_codebase. intros H.
  destruct (List.find _ _) as [[k v]|] eqn:Hf; [|done].
  simpl in H. injection H as <-.
  apply List.find_some in Hf as [Hin Heq]. simpl in Heq.
  apply Nat.eqb_eq in Heq as ->.
  by apply elem_of_map_to_list, list_elem_of_In.
Qed.

Lemma find_codebase_None (codebases : gmap Z codebase_ref) codebase :
  map_Forall (fun _ c => c <> codebase) codebases ->
  find_codebase codebases codebase = None.
Proof.
  intros Hall. unfold find_codebase.
  destruct (List.find _ _) as [[k v]|] eqn:Hf; [|done].
  apply List.find_some in Hf as [Hin Heq]. simpl in Heq.
  apply Nat.eqb_eq in Heq as ->.
  apply list_elem_of_In, elem_of_map_to_list in Hin.
  by destruct (Hall _ _ Hin).
Qed.

(** Registering is idempotent: a codebase that is in the registry is given
    an id it is held under, and the registry stays as it is. *)
Lemma add_codebase_registered (codebases : gmap Z codebase_ref) codebase cid :
  codebases !! cid = Some codebase ->
  exists cid',
    add_codebase true codebase codebases = Ok (cid', codebases)
    /\ codebases !! cid' = Some codebase.
Proof.
  intros Hcid. unfold add_codebase. cbn [negb].
  rewrite bool_decide_eq_true_2 by (intros ->; by rewrite lookup_empty in Hcid).
  destruct (find_codebase codebases codebase) as [cid'|] eqn:Hfind.
  - exists cid'. split; [done|]. by apply find_codebase_Some.
  - exfalso. unfold find_codebase in Hfind.
    destruct (List.find _ _) as [e|] eqn:Hf; [done|].
    pose proof (List.find_none _ _ Hf (cid, codebase)) as Hnone.
    cbn in Hnone. rewrite Nat.eqb_refl in Hnone.
    assert (false = true -> False) by done. apply H. symmetry. apply Hnone.
    by apply list_elem_of_In, elem_of_map_to_list.
Qed.

Lemma add_codebase_registered_witness :
  exists cid',
    add_codebase true 4%nat {[ 1 := 3%nat; 2 := 4%nat ]}
      = Ok (cid', {[ 1 := 3%nat; 2 := 4%nat ]})
    /\ ({[ 1 := 3%nat; 2 := 4%nat ]} : gmap Z codebase_ref) !! cid' = Some 4%nat.
Proof.
  apply (add_codebase_registered {[ 1 := 3%nat; 2 := 4%nat ]} 4%nat 2).
  reflexivity.
Defined.

(** C1, as the code has it: a codebase that is not in the registry is stored
    under 1 when the registry is empty, and otherwise under the greatest id
    in the registry plus one; the id is not in use at that moment. *)
Theorem add_codebase_new_cid (codebases : gmap Z codebase_ref) (codebase : codebase_ref) :
  map_Forall (fun _ c => c <> codebase) codebases ->
  exists new_cid,
    add_codebase true codebase codebases
      = Ok (new_cid, <[new_cid := codebase]> codebases)
    /\ codebases !! new_cid = None
    /\ (codebases = ∅ -> new_cid = 1)
    /\ (codebases <> ∅ ->
        exists m, is_Some (codebases !! m)
                  /\ (forall k, is_Some (codebases !! k) -> k <= m)
                  /\ new_cid = m + 1).
Proof.
  intros Hnew. unfold add_codebase. simpl.
  case_bool_decide as Hne.
  - rewrite (find_codebase_None _ _ Hnew).
    destruct (Py_max_spec (fst <$> map_to_list codebases)) as (m & -> & Hin & Hmax).
    { intros Hnil. apply fmap_nil_inv, map_to_list_empty_iff in Hnil. done. }
    assert (Hdom : forall k, is_Some (codebases !! k) -> k <= m).
    { intros k [v Hk]. apply Hmax.
      apply list_elem_of_fmap. exists (k, v). split; [done|].
      by apply elem_of_map_to_list. }
    exists (m + 1). simpl. split_and!; [done| |done|].
    + destruct (codebases !! (m + 1)) eqn:Hl; [|done].
      specialize (Hdom (m + 1) ltac:(eauto)). lia.
    + intros _. exists m. split_and!; [|done..].
      apply list_elem_of_fmap in Hin as ([k v] & -> & Hin).
      apply elem_of_map_to_list in Hin. eauto.
  - assert (codebases = ∅) as -> by (destruct (decide (codebases = ∅)); done).
    exists 1. split_and!; [done..|]. done.
Qed.

Lemma add_codebase_new_cid_witness :
  exists new_cid,
    add_codebase true 5%nat {[ 1 := 3%nat; 2 := 4%nat ]}
      = Ok (new_cid, <[new_cid := 5%nat]> {[ 1 := 3%nat; 2 := 4%nat ]})
    /\ ({[ 1 := 3%nat; 2 := 4%nat ]} : gmap Z codebase_ref) !! new_cid = None
    /\ (({[ 1 := 3%nat; 2 := 4%nat ]} : gmap Z codebase_ref) = ∅ -> new_cid = 1)
    /\ (({[ 1 := 3%nat; 2 := 4%nat ]} : gmap Z codebase_ref) <> ∅ ->
        exists m, is_Some (({[ 1 := 3%nat; 2 := 4%nat ]} : gmap Z codebase_ref) !! m)
                  /\ (forall k, is_Some (({[ 1 := 3%nat; 2 := 4%nat ]} : gmap Z codebase_ref) !! k) -> k <= m)
                  /\ new_cid = m + 1).
Proof.
  apply (add_codebase_new_cid {[ 1 := 3%nat; 2 := 4%nat ]} 5%nat).
  apply (bool_decide_unpack _). by vm_compute.
Defined.

(** C1, as the spec has it, fails: once the codebase under the greatest id is
    unregistered, the next registration is given that id again. *)
Lemma add_codebase_reuses_cid :
  ~ never_reused [Register 10%nat; Unregister 1; Register 11%nat].
Proof.
  unfold never_reused.
  assert (snd (run ∅ [Register 10%nat; Unregister 1; Register 11%nat]) = [1; 1])
    as -> by (by vm_compute).
  intros Hnd. apply NoDup_cons in Hnd as [Hnotin _].
  apply Hnotin. left.
Qed.

End RegistryFacts.

(** ** Reading the list of resources *)

Section GetResource.

Lemma getitem_nonneg {A : Type} (l : list A) (i : Z) (x : A) :
  0 <= i -> l !! Z.to_nat i = Some x -> Py.getitem l i = Ok x.
Proof.
  intros Hi Hl. unfold Py.getitem. cbv zeta.
  pose proof (lookup_lt_Some _ _ _ Hl).
  rewrite !(proj2 (Z.ltb_ge i 0)) by lia.
  rewrite (proj2 (Z.leb_gt _ _)) by lia. simpl.
  by rewrite Hl.
Qed.

(** C10: an index at or past the end of the list gives [None] and does not
    raise; a negative index no smaller than minus the length gives the
    element that many places from the end. *)
Theorem get_resource_out_of_range (cb : Codebase) (rid : Z) :
  let n := Z.of_nat (length (resources cb)) in
  (n <= rid -> get_resource cb rid = SNone)
  /\ (- n <= rid < 0 ->
      resources cb !! Z.to_nat (n + rid) = Some (get_resource cb rid)).
Proof.
  intros n. unfold get_resource, Py.getitem. fold n. split.
  - intros Hge. destruct (Z.ltb_spec rid 0); [lia|].
    destruct (Z.ltb_spec rid 0); [lia|].
    destruct (Z.leb_spec n rid); [done|lia].
  - intros [Hlo Hhi]. destruct (Z.ltb_spec rid 0); [|lia].
    destruct (Z.ltb_spec (rid + n) 0); [lia|].
    destruct (Z.leb_spec n (rid + n)); [lia|]. simpl.
    replace (n + rid) with (rid + n) by lia.
    destruct (resources cb !! Z.to_nat (rid + n)) eqn:Hl; [done|].
    apply lookup_ge_None in Hl. lia.
Qed.

Lemma get_resource_out_of_range_witness :
  get_resource Sample.tree 4 = SNone
  /\ resources Sample.tree !! Z.to_nat (4 + -1) = Some (get_resource Sample.tree (-1)).
Proof.
  destruct (get_resource_out_of_range Sample.tree 4) as [H1 _].
  destruct (get_resource_out_of_range Sample.tree (-1)) as [_ H2].
  split.
  - apply H1. simpl. lia.
  - apply H2. simpl. lia.
Defined.

End GetResource.

(** ** Walking *)

Section Walk.

(** C4: when the root has no children, [Codebase.walk] is the root alone,
    whatever [topdown], [sort] and [skip_root] are. *)
Theorem Codebase_walk_root_without_children (cb : Codebase) (r : Resource)
    (fuel : nat) (topdown sort skip_root : bool) :
  heap cb !! root cb = Some r ->
  children_rids r = [] ->
  Codebase_walk fuel cb topdown sort skip_root = Ok [root cb].
Proof.
  intros Hr Hnil. unfold Codebase_walk, deref. rewrite Hr. simpl.
  rewrite Hnil. done.
Qed.

Lemma Codebase_walk_root_without_children_witness :
  Codebase_walk 0 Sample.lone_dir true true true = Ok [root Sample.lone_dir].
Proof.
  apply (Codebase_walk_root_without_children Sample.lone_dir
           (new_Resource "root" 0 None false false)); reflexivity.
Defined.

End Walk.

(** ** Adding a child *)

Section AddChild.

Local Open Scope string_scope.

(** C2 on the code: [add_child] on a codebase made of its root directory
    makes the new resource, lists 1 under the root and returns the resource;
    what it appends to the list of resources is the int 1, so that
    [get_resource(1)] is that int and not the resource. *)
Theorem add_child_appends_the_rid :
  exists child cb',
    add_child (root Sample.lone_dir) "a" false Sample.lone_dir = (Ok child, cb')
    /\ heap cb' !! child = Some (new_Resource "a" 1 (Some 0) false false)
    /\ (children_rids <$> heap cb' !! root cb') = Some [1]
    /\ resources cb' = [SResource (root cb'); SInt 1]
    /\ get_resource cb' 1 = SInt 1
    /\ get_resource cb' 1 <> SResource child.
Proof.
  eexists _, _. split; [reflexivity|]. simpl. by split_and!.
Qed.

(** After a removal, the id [add_child] takes is one that is in use:
    [_get_next_rid] counts the resources that are left. *)
Lemma add_child_after_remove_resource :
  exists rids cb1 child cb2,
    remove_resource 4 1%nat Sample.tree = (Ok rids, cb1)
    /\ add_child (root cb1) "new" true cb1 = (Ok child, cb2)
    /\ (rid <$> heap cb2 !! child) = Some 2
    /\ (exists a, get_resource cb1 2 = SResource a
                  /\ (name <$> heap cb1 !! a) = Some "a.txt").
Proof.
  eexists _, _, _, _. split; [reflexivity|]. split; [reflexivity|].
  split; [reflexivity|]. eexists. split; reflexivity.
Qed.

End AddChild.

(** ** The tree *)

Section Monads.

Lemma mapM_Ok {A B : Type} (f : A -> result B) (l : list A) (k : list B) :
  Forall2 (fun x y => f x = Ok y) l k -> mapM f l = Ok k.
Proof.
  induction 1 as [|x y l k Hxy _ IH]; [done|].
  cbn. rewrite Hxy. cbn. fold (mapM f l). rewrite IH. done.
Qed.

Lemma mapM_Ok_inv {A B : Type} (f : A -> result B) (l : list A) (k : list B) :
  mapM f l = Ok k -> Forall2 (fun x y => f x = Ok y) l k.
Proof.
  revert k. induction l as [|x l IH]; intros k.
  - cbn. intros [= <-]. constructor.
  - cbn. destruct (f x) as [y|] eqn:Hx; [|done]. cbn. fold (mapM f l).
    destruct (mapM f l) as [k'|] eqn:Hk; [|done]. cbn. intros [= <-].
    constructor; [done|]. by apply IH.
Qed.

Lemma M_bind_eq {A B : Type} (m : M A) (k : A -> M B) (cb : Codebase) :
  (m ≫= k) cb
  = match m cb with
    | (Ok a, cb') => k a cb'
    | (Raise e, cb') => (Raise e, cb')
    end.
Proof. reflexivity. Qed.

Lemma elem_of_concat {A : Type} (ls : list (list A)) (x : A) :
  x ∈ concat ls <-> exists l, l ∈ ls /\ x ∈ l.
Proof.
  induction ls as [|l ls IH]; simpl.
  - split; [by intros ?%elem_of_nil|]. by intros (? & ?%elem_of_nil & _).
  - rewrite elem_of_app, IH. split.
    + intros [Hx|(l' & Hl' & Hx)]; [exists l|exists l']; split; auto; by constructor.
    + intros (l' & Hl' & Hx). apply elem_of_cons in Hl' as [->|Hl']; eauto.
Qed.

Lemma Forall2_concat {A B : Type} (P : A -> B -> Prop) ls ks :
  Forall2 (Forall2 P) ls ks -> Forall2 P (concat ls) (concat ks).
Proof.
  induction 1; simpl; [constructor|]. by apply Forall2_app.
Qed.

End Monads.

Section Tree.

Context (cb : Codebase) (Hpop : populated cb).

Lemma live_lt h a r : live cb h a r -> h < Z.of_nat (length (resources cb)).
Proof. intros (Hh & Hs & _). apply lookup_lt_Some in Hs. lia. Qed.

Lemma live_rid h a r : live cb h a r -> rid r = h.
Proof.
  intros (Hh & Hs & Hr).
  destruct (populated_slot cb Hpop _ _ Hs) as [?|(a' & r' & [= <-] & Hr' & Hrid)];
    [done|].
  rewrite Hr in Hr'. injection Hr' as <-. lia.
Qed.

Lemma live_functional h a1 r1 a2 r2 :
  live cb h a1 r1 -> live cb h a2 r2 -> a1 = a2 /\ r1 = r2.
Proof.
  intros (_ & Hs1 & Hr1) (_ & Hs2 & Hr2).
  rewrite Hs1 in Hs2. injection Hs2 as <-. rewrite Hr1 in Hr2. by injection Hr2.
Qed.

Lemma live_getitem h a r : live cb h a r -> Py.getitem (resources cb) h = Ok (SResource a).
Proof. intros (Hh & Hs & _). by apply getitem_nonneg. Qed.

Lemma live_deref h a r : live cb h a r -> deref cb a = Ok r.
Proof. intros (_ & _ & Hr). unfold deref. by rewrite Hr. Qed.

(** The children of a resource of the tree are resources of the tree. *)
Lemma children_live h a r :
  live cb h a r ->
  exists addrs,
    children cb a = Ok (SResource <$> addrs)
    /\ Forall2 (fun c ac => exists rc, live cb c ac rc) (children_rids r) addrs.
Proof.
  intros Hlive. unfold children. rewrite (live_deref _ _ _ Hlive). cbn.
  assert (Hall : forall c, c ∈ children_rids r -> exists ac rc, live cb c ac rc).
  { intros c Hc. destruct (populated_children cb Hpop _ _ _ _ Hlive Hc)
      as (_ & ac & rc & Hc' & _). eauto. }
  induction (children_rids r) as [|c cs IH].
  - exists []. split; [done|constructor].
  - destruct (Hall c ltac:(left)) as (ac & rc & Hc).
    destruct IH as (addrs & Hm & HF). { intros c' Hc'. apply Hall. by right. }
    exists (ac :: addrs). split; [|constructor; eauto].
    apply mapM_Ok. constructor.
    + by eapply live_getitem.
    + clear -HF Hpop. induction HF as [|c' ac' ? ? [rc' Hc'] _ IH']; constructor; auto.
      by eapply live_getitem.
Qed.

Lemma descendant_live h a r x :
  live cb h a r -> descendant cb h x -> h <= x /\ exists ax rx, live cb x ax rx.
Proof.
  intros Hlive Hd. revert a r Hlive.
  induction Hd as [h|h c x (a' & r' & Hl' & Hc) _ IH]; intros a r Hlive.
  - split; [lia|eauto].
  - destruct (populated_children cb Hpop _ _ _ _ Hl' Hc) as (Hlt & ac & rc & Hc' & _).
    destruct (IH _ _ Hc') as (Hle & Hx). split; [lia|done].
Qed.

(** The walk from a resource of the tree ends and hands out the resource and
    its descendants. *)
Lemma _walk_populated (topdown : bool) (fuel : nat) : forall h a r,
  live cb h a r ->
  (length (resources cb) - Z.to_nat h <= fuel)%nat ->
  exists walked rids,
    _walk fuel cb a topdown false = Ok walked
    /\ Forall2 (fun a x => exists r, live cb x a r) walked rids
    /\ (forall x, x ∈ rids <-> descendant cb h x).
Proof.
  induction fuel as [|fuel IH]; intros h a r Hlive Hfuel.
  { pose proof (live_lt _ _ _ Hlive). destruct Hlive as (? & _). lia. }
  destruct (children_live _ _ _ Hlive) as (addrs & Hch & HF).
  assert (Hsub : exists subs subrids,
    mapM (fun child => a ← as_resource child; _walk fuel cb a topdown false)
         (SResource <$> addrs) = Ok subs
    /\ Forall2 (Forall2 (fun a x => exists r, live cb x a r)) subs subrids
    /\ Forall2 (fun c rids => forall x, x ∈ rids <-> descendant cb c x)
         (children_rids r) subrids).
  { assert (Hlt : forall c, c ∈ children_rids r -> h < c).
    { intros c Hc. by destruct (populated_children cb Hpop _ _ _ _ Hlive Hc). }
    clear Hch. induction HF as [|c ac cs addrs' [rc Hc] _ IH'].
    - exists [], []. split_and!; constructor.
    - destruct IH' as (subs & subrids & Hm & H1 & H2).
      { intros c' Hc'. apply Hlt. by right. }
      destruct (IH c ac rc Hc) as (w & rs & Hw & Hwl & Hwd).
      { specialize (Hlt c ltac:(left)). destruct Hlive as (? & _). lia. }
      exists (w :: subs), (rs :: subrids). split_and!; [|by constructor..].
      apply mapM_Ok. constructor; [done|]. by apply mapM_Ok_inv. }
  destruct Hsub as (subs & subrids & Hm & Hlives & Hdesc).
  exists ((if topdown then [a] else []) ++ concat subs ++ (if topdown then [] else [a])),
         ((if topdown then [h] else []) ++ concat subrids ++ (if topdown then [] else [h])).
  split_and!.
  - cbn [_walk]. rewrite Hch. cbn. rewrite Hm. done.
  - apply Forall2_concat in Hlives.
    destruct topdown; simpl.
    + constructor; [eauto|]. by rewrite !app_nil_r.
    + apply Forall2_app; [done|]. constructor; [eauto|constructor].
  - intros x.
    assert (Hin : x ∈ (if topdown then [h] else []) ++ concat subrids
                        ++ (if topdown then [] else [h])
                  <-> x = h \/ x ∈ concat subrids).
    { destruct topdown; simpl.
      - rewrite app_nil_r, elem_of_cons. done.
      - rewrite elem_of_app, list_elem_of_singleton. tauto. }
    rewrite Hin, elem_of_concat. split.
    + intros [->|(rs & Hrs & Hx)]; [apply rtc_refl|].
      apply list_elem_of_lookup in Hrs as [i Hi].
      destruct (Forall2_lookup_r _ _ _ _ _ Hdesc Hi) as (c & Hc & Hcd).
      eapply rtc_l; [|by apply Hcd].
      exists a, r. split; [done|]. by eapply list_elem_of_lookup_2.
    + intros Hd. apply rtc_inv in Hd as [->|(c & (a' & r' & Hl' & Hc) & Hd)]; [by left|].
      right. destruct (live_functional _ _ _ _ _ Hlive Hl') as [<- <-].
      apply list_elem_of_lookup in Hc as [i Hi].
      destruct (Forall2_lookup_l _ _ _ _ _ Hdesc Hi) as (rs & Hrs & Hcd).
      exists rs. split; [by eapply list_elem_of_lookup_2|]. by apply Hcd.
Qed.

End Tree.

(** ** Counts *)

Section Counts.

Context (cb : Codebase) (Hpop : populated cb) (Hcur : aggregates_current cb).

Lemma with_heap_same : with_heap (heap cb) cb = cb.
Proof. by destruct cb. Qed.

(** Updating a resource whose counts are up to date changes nothing. *)
Lemma _update_children_counts_current h a r :
  live cb h a r -> _update_children_counts a cb = (Ok tt, cb).
Proof.
  intros Hlive. destruct (Hcur _ _ _ Hlive) as (sz & Hcounts & Hsz).
  unfold _update_children_counts. rewrite M_bind_eq. unfold reading.
  rewrite Hcounts. unfold update_object, modify. f_equal.
  etrans; [|apply with_heap_same]. f_equal.
  destruct Hlive as (_ & _ & Hr).
  apply list_eq. intros i. destruct (decide (i = a)) as [->|Hne].
  - rewrite list_lookup_alter_eq, Hr. cbn. f_equal.
    destruct r as [? ? ? isf ? ? ? ? ? ? ?]. unfold with_counts. cbn in *.
    destruct isf; [done|]. by rewrite Hsz.
  - by rewrite list_lookup_alter_ne.
Qed.

Lemma update_each_current walked rids :
  Forall2 (fun a x => exists r, live cb x a r) walked rids ->
  update_each walked cb = (Ok tt, cb).
Proof.
  induction 1 as [|a x walked rids [r Hlive] _ IH]; [done|].
  cbn [update_each]. rewrite M_bind_eq.
  rewrite (_update_children_counts_current _ _ _ Hlive). exact IH.
Qed.

Lemma Codebase_walk_populated (fuel : nat) (topdown : bool) :
  (length (resources cb) <= fuel)%nat ->
  exists walked rids,
    Codebase_walk fuel cb topdown false false = Ok walked
    /\ Forall2 (fun a x => exists r, live cb x a r) walked rids.
Proof.
  intros Hfuel. destruct (populated_root cb Hpop) as (r & Hlive & Hpid).
  unfold Codebase_walk. rewrite (live_deref _ _ _ _ Hlive). cbn.
  case_bool_decide as Hnil.
  - exists [root cb], [0]. split; [done|]. constructor; eauto.
  - unfold walk. rewrite (live_deref _ _ _ _ Hlive). cbn.
    rewrite bool_decide_eq_false_2, andb_false_r by done.
    destruct (_walk_populated cb Hpop topdown fuel 0 (root cb) r Hlive)
      as (walked & rids & -> & HF & _); [simpl; lia|].
    cbn. eauto.
Qed.

Lemma update_counts_current (fuel : nat) :
  (length (resources cb) <= fuel)%nat -> update_counts fuel cb = (Ok tt, cb).
Proof.
  intros Hfuel. unfold update_counts. rewrite M_bind_eq. unfold reading.
  destruct (Codebase_walk_populated fuel false Hfuel) as (walked & rids & Hw & HF).
  rewrite Hw. by eapply update_each_current.
Qed.

Lemma sum_counts_Ok (rs : list Resource) :
  rs <> [] ->
  sum_counts ((fun rc => (files_count rc, dirs_count rc, size rc)) <$> rs)
  = Ok (sum_over files_count rs, sum_over dirs_count rs, sum_over size rs).
Proof.
  intros Hne. unfold sum_counts, sum_over.
  destruct rs as [|rc rs]; [done|].
  rewrite <- !list_fmap_compose. done.
Qed.

(** C3, as the code has it. On a populated tree whose aggregates are up to
    date, with or without [update]: without [skip_root], [counts] is the
    aggregates of the root with the root itself added, to the files when the
    codebase is a single file and to the directories otherwise; with
    [skip_root], on a codebase that is a directory whose root has children,
    it is the sum of the aggregates of the children of the root; and on a
    codebase that is a single file [skip_root] changes nothing. The codebase
    is left as it was. *)
Theorem counts_of_current_tree (fuel : nat) (update : bool) (r : Resource) :
  (length (resources cb) <= fuel)%nat ->
  heap cb !! root cb = Some r ->
  counts fuel update false cb
    = (Ok (files_count r + (if codebase_is_file cb then 1 else 0),
           dirs_count r + (if codebase_is_file cb then 0 else 1),
           size r), cb)
  /\ (codebase_is_file cb = false -> children_rids r <> [] ->
      exists rs,
        Forall2 (fun c rc => exists ac, live cb c ac rc) (children_rids r) rs
        /\ counts fuel update true cb
           = (Ok (sum_over files_count rs, sum_over dirs_count rs,
                  sum_over size rs), cb))
  /\ (codebase_is_file cb = true ->
      counts fuel update true cb = counts fuel update false cb).
Proof.
  intros Hfuel Hr.
  assert (Hupd : (if update then update_counts fuel else mret tt) cb = (Ok tt, cb)).
  { destruct update; [by apply update_counts_current|done]. }
  assert (Hderef : deref cb (root cb) = Ok r) by (unfold deref; by rewrite Hr).
  split_and!.
  - unfold counts. rewrite M_bind_eq, Hupd. unfold reading. rewrite Hderef. cbn.
    destruct (codebase_is_file cb); cbn; repeat f_equal; lia.
  - intros Hdir Hne. unfold counts. rewrite M_bind_eq, Hupd. unfold reading.
    rewrite Hderef, Hdir. cbn.
    destruct (populated_root cb Hpop) as (r' & Hlive & _).
    assert (r' = r) as -> by (destruct Hlive as (_ & _ & ?); congruence).
    destruct (children_live cb Hpop _ _ _ Hlive) as (addrs & -> & HF). cbn.
    assert (Hrs : exists rs,
      Forall2 (fun c rc => exists ac, live cb c ac rc) (children_rids r) rs
      /\ Forall2 (fun s rc => attr_of cb s = Ok rc) (SResource <$> addrs) rs).
    { clear -HF. induction HF as [|c ac cs addrs [rc Hc] _ (rs & H1 & H2)].
      - exists []. split; constructor.
      - exists (rc :: rs). split; constructor; eauto.
        unfold attr_of. cbn. by eapply live_deref. }
    destruct Hrs as (rs & Hlives & Hattr). exists rs. split; [done|].
    rewrite (mapM_Ok _ _ ((fun rc => (files_count rc, dirs_count rc, size rc)) <$> rs)).
    + cbn. rewrite sum_counts_Ok; [done|].
      intros ->. apply Forall2_nil_inv_r in Hlives. done.
    + apply Forall2_fmap_r. eapply Forall2_impl; [exact Hattr|].
      intros s rc Hs. cbn. by rewrite Hs.
  - intros Hfile. unfold counts. rewrite !M_bind_eq, Hupd. unfold reading.
    by rewrite Hderef, Hfile.
Qed.

End Counts.

(** ** The sample tree *)

Section SampleFacts.

Lemma live_inv (cb : Codebase) h a r :
  live cb h a r ->
  exists i : nat, h = Z.of_nat i /\ resources cb !! i = Some (SResource a)
                  /\ heap cb !! a = Some r.
Proof. intros (Hh & Hs & Hr). exists (Z.to_nat h). split; [lia|done]. Qed.

Lemma live_intro (cb : Codebase) (i : nat) a r :
  resources cb !! i = Some (SResource a) -> heap cb !! a = Some r ->
  live cb (Z.of_nat i) a r.
Proof. intros Hs Hr. split; [lia|]. by rewrite Nat2Z.id. Qed.

(* The resources of a codebase given in full, one by one. *)
Ltac live_cases H :=
  apply live_inv in H as (? & -> & H & ?);
  repeat (match type of H with
          | _ !! ?i = Some _ => destruct i as [|?]; simpl in H; try done
          end);
  simplify_eq/=.

Ltac elem_cases H := set_unfold in H; destruct_or?; subst; try done.

Lemma sample_tree_populated : populated Sample.tree.
Proof.
  split.
  - intros i s H.
    do 4 (destruct i as [|i]; [right; simplify_eq/=; by eexists _, _|]). done.
  - exists Sample.root_dir. split; [by apply (live_intro Sample.tree 0)|done].
  - intros h a r H Hpid. by live_cases H.
  - intros h a r c H Hc.
    live_cases H; elem_cases Hc; (split; [lia|]); eexists _, _.
    + split; [by apply (live_intro Sample.tree 1)|done].
    + split; [by apply (live_intro Sample.tree 2)|done].
    + split; [by apply (live_intro Sample.tree 3)|done].
  - intros h a r H. live_cases H; apply (bool_decide_unpack _); by vm_compute.
  - intros h a r p H Hpid. live_cases H; eexists _, _.
    + split; [by apply (live_intro Sample.tree 0)|]. simpl. set_solver.
    + split; [by apply (live_intro Sample.tree 0)|]. simpl. set_solver.
    + split; [by apply (live_intro Sample.tree 1)|]. simpl. set_solver.
Qed.

Lemma sample_tree_current : aggregates_current Sample.tree.
Proof.
  intros h a r H. live_cases H; eexists; (split; [reflexivity|done]).
Qed.

End SampleFacts.

Section CountsExamples.

Lemma counts_of_current_tree_witness :
  counts 4 true false Sample.tree = (Ok (2, 2, 15), Sample.tree)
  /\ exists rs,
       Forall2 (fun c rc => exists ac, live Sample.tree c ac rc) [1; 2] rs
       /\ counts 4 true true Sample.tree
          = (Ok (sum_over files_count rs, sum_over dirs_count rs,
                 sum_over size rs), Sample.tree).
Proof.
  destruct (counts_of_current_tree Sample.tree sample_tree_populated
              sample_tree_current 4 true Sample.root_dir)
    as (H1 & H2 & _); [simpl; lia|reflexivity|].
  split; [exact H1|]. apply H2; done.
Defined.

(** C3, as the spec has it, fails on the sample tree: its root holds
    [(2, 1, 15)] and [counts] is [(2, 2, 15)], the root directory counted. *)
Lemma counts_is_not_the_root_triple :
  populated Sample.tree /\ aggregates_current Sample.tree
  /\ ~ counts_is_root_triple Sample.tree.
Proof.
  split; [apply sample_tree_populated|]. split; [apply sample_tree_current|].
  intros H. specialize (H Sample.root_dir eq_refl). vm_compute in H. done.
Qed.

End CountsExamples.

(** ** Removing a resource *)

Section Remove.

Lemma setitem_in_range {A : Type} (l : list A) (i : Z) (x : A) :
  0 <= i < Z.of_nat (length l) -> Py.setitem l i x = Ok (<[Z.to_nat i := x]> l).
Proof.
  intros Hi. unfold Py.setitem. cbv zeta.
  rewrite !(proj2 (Z.ltb_ge i 0)) by lia.
  by rewrite (proj2 (Z.leb_gt _ _)) by lia.
Qed.

(** Clearing slots that are in range clears those and no other. *)
Lemma clear_slots_in_range (rids : list Z) : forall cb,
  (forall x, x ∈ rids -> 0 <= x < Z.of_nat (length (resources cb))) ->
  exists l,
    clear_slots rids cb = (Ok tt, with_resources l cb)
    /\ length l = length (resources cb)
    /\ (forall x, x ∈ rids -> l !! Z.to_nat x = Some SNone)
    /\ (forall i : nat, Z.of_nat i ∉ rids -> l !! i = resources cb !! i).
Proof.
  induction rids as [|rid rids IH]; intros cb Hrange.
  - exists (resources cb). split_and!; [by destruct cb|done| |done].
    by intros x ?%elem_of_nil.
  - pose proof (Hrange rid ltac:(left)) as Hrid.
    set (cb1 := with_resources (<[Z.to_nat rid := SNone]> (resources cb)) cb).
    destruct (IH cb1) as (l & Hrun & Hlen & Hin & Hout).
    { intros x Hx. unfold cb1. simpl. rewrite length_insert. apply Hrange. by right. }
    exists l. split_and!.
    + cbn [clear_slots]. rewrite M_bind_eq, setitem_in_range by done.
      fold cb1. rewrite Hrun. done.
    + rewrite Hlen. unfold cb1. simpl. by rewrite length_insert.
    + intros x Hx. destruct (decide (x ∈ rids)) as [Hx'|Hx']; [by apply Hin|].
      apply elem_of_cons in Hx as [->|Hx]; [|done].
      rewrite Hout by (rewrite Z2Nat.id by lia; done).
      unfold cb1. simpl. apply list_lookup_insert_eq. lia.
    + intros i Hi. apply not_elem_of_cons in Hi as [Hne Hi].
      rewrite (Hout i Hi). unfold cb1. simpl.
      apply list_lookup_insert_ne. lia.
Qed.

Lemma filter_all {A : Type} (P : A -> Prop) `{forall x, Decision (P x)} (l : list A) :
  Forall P l -> filter P l = l.
Proof.
  induction 1 as [|y l Hy _ IH]; [done|]. by rewrite filter_cons_True, IH.
Qed.

Lemma remove_first (l : list Z) (x : Z) :
  NoDup l -> x ∈ l -> Py.remove l x = Ok (filter (fun c => c <> x) l).
Proof.
  induction 1 as [|y l Hy Hnd IH]; intros Hx; [by apply elem_of_nil in Hx|].
  cbn [Py.remove]. destruct (Z.eqb_spec y x) as [->|Hne].
  - rewrite filter_cons_False by (intros ?; done). f_equal.
    symmetry. apply filter_all. apply Forall_forall. intros z Hz ->. done.
  - apply elem_of_cons in Hx as [->|Hx]; [done|].
    rewrite filter_cons_True by done. by rewrite IH.
Qed.

(** Below the root: what [remove_resource] returns and what it leaves. *)
Lemma remove_resource_below_root (cb : Codebase) (h : Z) (a : addr)
    (r : Resource) (p : Z) (fuel : nat) :
  populated cb ->
  live cb h a r ->
  pid r = Some p ->
  (length (resources cb) <= fuel)%nat ->
  exists rids cb',
    remove_resource fuel a cb = (Ok rids, cb')
    /\ (forall x, x ∈ rids <-> descendant cb h x)
    /\ length (resources cb') = length (resources cb)
    /\ (forall x, descendant cb h x -> resources cb' !! Z.to_nat x = Some SNone)
    /\ (forall i : nat, ~ descendant cb h (Z.of_nat i) ->
                        resources cb' !! i = resources cb !! i)
    /\ (exists ap rp,
          live cb p ap rp
          /\ heap cb' = <[ap := with_children_rids
                                 (filter (fun c => c <> h) (children_rids rp)) rp]>
                          (heap cb))
    /\ root cb' = root cb
    /\ codebase_is_file cb' = codebase_is_file cb.
Proof.
  intros Hpop Hlive Hp Hfuel.
  pose proof (live_deref _ _ _ _ Hlive) as Hderef.
  destruct (populated_parent cb Hpop _ _ _ _ Hlive Hp) as (ap & rp & Hparent & Hchild).
  destruct (populated_children cb Hpop _ _ _ _ Hparent Hchild) as (Hlt & _).
  destruct (_walk_populated cb Hpop true fuel h a r Hlive)
    as (walked & rids & Hwalk & HF & Hdesc); [lia|].
  (* the ids of the resources walked *)
  assert (Hrids : mapM (fun a' => r' ← deref cb a'; Ok (rid r')) walked = Ok rids).
  { apply mapM_Ok. eapply Forall2_impl; [exact HF|].
    intros a' x [r' Hl']. cbn. rewrite (live_deref _ _ _ _ Hl'). cbn.
    by rewrite (live_rid cb Hpop _ _ _ Hl'). }
  (* they are in range, and the parent is not among them *)
  assert (Hrange : forall x, x ∈ rids -> 0 <= x < Z.of_nat (length (resources cb))).
  { intros x Hx%Hdesc.
    destruct (descendant_live cb Hpop _ _ _ _ Hlive Hx) as (_ & ax & rx & Hlx).
    pose proof (live_lt _ _ _ _ Hlx). destruct Hlx as (? & _). lia. }
  destruct (clear_slots_in_range rids cb Hrange) as (l & Hclear & Hlen & Hin & Hout).
  assert (Hp_out : Z.of_nat (Z.to_nat p) ∉ rids).
  { intros Hx%Hdesc.
    destruct (descendant_live cb Hpop _ _ _ _ Hlive Hx) as (Hle & _).
    destruct Hparent as (? & _). lia. }
  set (cb1 := with_resources l cb).
  assert (Hparent1 : parent cb1 a = Ok (SResource ap)).
  { unfold parent, deref. simpl. destruct Hlive as (_ & _ & ->). cbn. rewrite Hp.
    destruct Hparent as (Hp0 & Hps & _).
    apply getitem_nonneg; [done|]. simpl. by rewrite Hout. }
  exists rids,
    (with_heap (alter (with_children_rids (filter (fun c => c <> h) (children_rids rp)))
                  ap (heap cb)) cb1).
  split_and!; try done.
  - unfold remove_resource. rewrite M_bind_eq. unfold reading at 1.
    rewrite Hderef. unfold is_root. rewrite Hp.
    rewrite M_bind_eq. unfold reading at 1.
    unfold walk. rewrite Hderef. cbn [mbind result_bind]. unfold is_root.
    rewrite Hp. cbn [andb]. rewrite Hwalk. cbn [mbind result_bind]. rewrite Hrids.
    rewrite M_bind_eq, Hclear. fold cb1.
    rewrite M_bind_eq. unfold reading at 1. rewrite Hparent1.
    rewrite M_bind_eq. cbn [truthy]. rewrite M_bind_eq. unfold reading at 1.
    cbn [as_resource]. rewrite M_bind_eq. unfold reading at 1.
    assert (deref cb1 ap = Ok rp) as ->.
    { unfold deref. simpl. by destruct Hparent as (_ & _ & ->). }
    rewrite (live_rid cb Hpop _ _ _ Hlive).
    rewrite (remove_first _ _ (populated_NoDup cb Hpop _ _ _ Hparent) Hchild).
    done.
  - intros x Hx. simpl. apply Hin. by apply Hdesc.
  - intros i Hi. simpl. apply Hout. by rewrite Hdesc.
  - exists ap, rp. split; [done|]. simpl.
    destruct Hparent as (_ & _ & Hrp).
    apply list_eq. intros i. destruct (decide (i = ap)) as [->|Hne].
    + rewrite list_lookup_alter_eq, Hrp, list_lookup_insert_eq; [done|].
      by eapply lookup_lt_Some.
    + by rewrite list_lookup_alter_ne, list_lookup_insert_ne.
Qed.

(** C6: removing. A resource without a parent is refused with an exception
    and the codebase is left as it was. For any other resource of a populated
    tree, the ids returned are its own and those of its descendants; the
    slots of these ids, and no other, are set to [None]; the id is taken out
    of the children of its parent, and no other object is changed. *)
Theorem remove_resource_removes_descendants (cb : Codebase) (h : Z) (a : addr)
    (r : Resource) (fuel : nat) :
  populated cb ->
  live cb h a r ->
  (pid r = None -> remove_resource fuel a cb = (Raise RootRemoval, cb))
  /\ (pid r <> None -> (length (resources cb) <= fuel)%nat ->
      exists rids cb',
        remove_resource fuel a cb = (Ok rids, cb')
        /\ (forall x, x ∈ rids <-> descendant cb h x)
        /\ length (resources cb') = length (resources cb)
        /\ (forall x, descendant cb h x -> resources cb' !! Z.to_nat x = Some SNone)
        /\ (forall i : nat, ~ descendant cb h (Z.of_nat i) ->
                            resources cb' !! i = resources cb !! i)
        /\ (exists p ap rp,
              pid r = Some p /\ live cb p ap rp
              /\ heap cb' = <[ap := with_children_rids
                                     (filter (fun c => c <> h) (children_rids rp)) rp]>
                              (heap cb))
        /\ root cb' = root cb
        /\ codebase_is_file cb' = codebase_is_file cb).
Proof.
  intros Hpop Hlive. split.
  - intros Hpid. unfold remove_resource. rewrite M_bind_eq. unfold reading.
    rewrite (live_deref _ _ _ _ Hlive). unfold is_root. by rewrite Hpid.
  - intros Hpid Hfuel. destruct (pid r) as [p|] eqn:Hp; [clear Hpid|done].
    destruct (remove_resource_below_root cb h a r p fuel Hpop Hlive Hp Hfuel)
      as (rids & cb' & Hrun & Hdesc & Hlen & Hin & Hout & (ap & rp & Hparent & Hheap)
          & Hroot & Hfile).
    exists rids, cb'. split_and!; try done. by exists p, ap, rp.
Qed.

Lemma remove_resource_removes_descendants_witness :
  remove_resource 0 0%nat Sample.tree = (Raise RootRemoval, Sample.tree)
  /\ exists rids cb',
       remove_resource 4 1%nat Sample.tree = (Ok rids, cb')
       /\ (forall x, x ∈ rids <-> descendant Sample.tree 1 x).
Proof.
  destruct (remove_resource_removes_descendants Sample.tree 0 0%nat
              Sample.root_dir 0 sample_tree_populated) as [H0 _].
  { by apply (live_intro Sample.tree 0). }
  destruct (remove_resource_removes_descendants Sample.tree 1 1%nat
              Sample.b_dir 4 sample_tree_populated) as [_ H1].
  { by apply (live_intro Sample.tree 1). }
  split; [by apply H0|].
  destruct H1 as (rids & cb' & Hrun & Hdesc & _); [done|simpl; lia|].
  by exists rids, cb'.
Defined.

End Remove.

(** ** Scans and their cache *)

Section Scans.

Local Open Scope string_scope.

Lemma od_get_None (d : OrderedDict) (k : string) :
  k ∉ (fst <$> d) -> od_get d k = None.
Proof.
  induction d as [|[k' v'] d IH]; [done|]. cbn. intros Hk.
  apply not_elem_of_cons in Hk as [Hne Hk].
  destruct (String.eqb_spec k' k); [congruence|]. by apply IH.
Qed.

Lemma od_setitem_new (d : OrderedDict) (k : string) (v : json) :
  k ∉ (fst <$> d) -> od_setitem d k v = (d ++ [(k, v)])%list.
Proof.
  induction d as [|[k' v'] d IH]; [done|]. cbn. intros Hk.
  apply not_elem_of_cons in Hk as [Hne Hk].
  destruct (String.eqb_spec k' k); [congruence|]. by rewrite IH.
Qed.

Lemma od_get_setitem (d : OrderedDict) (k k' : string) (v : json) :
  od_get (od_setitem d k v) k' = if String.eqb k k' then Some v else od_get d k'.
Proof.
  induction d as [|[k0 v0] d IH]; cbn.
  - done.
  - destruct (String.eqb_spec k0 k) as [->|Hne]; cbn.
    + by destruct (String.eqb_spec k k').
    + rewrite IH. destruct (String.eqb_spec k0 k') as [->|]; [|done].
      by destruct (String.eqb_spec k k'); [congruence|].
Qed.

(** Updating with a mapping whose keys are all new appends it. *)
Lemma od_update_new (other : OrderedDict) : forall d : OrderedDict,
  is_mapping other ->
  (forall k, k ∈ (fst <$> other) -> k ∉ (fst <$> d)) ->
  od_update d other = (d ++ other)%list.
Proof.
  unfold od_update, is_mapping.
  induction other as [|[k v] other IH]; intros d Hnd Hnew; cbn.
  - by rewrite app_nil_r.
  - cbn in Hnd. apply NoDup_cons in Hnd as [Hk Hnd].
    rewrite od_setitem_new by (apply Hnew; left).
    rewrite IH; [by rewrite <- app_assoc|done|].
    intros k' Hk'. rewrite fmap_app, elem_of_app. cbn.
    intros [Hd|Heq%list_elem_of_singleton]; [|by subst].
    by apply (Hnew k'); [right|].
Qed.

(** The items after an update: those of the mapping given, then those that
    were there. *)
Lemma od_get_update (other : OrderedDict) : forall (d : OrderedDict) (k : string),
  is_mapping other ->
  od_get (od_update d other) k
  = match od_get other k with
    | Some v => Some v
    | None => od_get d k
    end.
Proof.
  unfold od_update, is_mapping.
  induction other as [|[k0 v0] other IH]; intros d k Hnd; [done|].
  cbn in Hnd. apply NoDup_cons in Hnd as [Hk0 Hnd].
  cbn. rewrite IH by done. rewrite od_get_setitem.
  destruct (String.eqb_spec k0 k) as [->|Hne]; [|done].
  by rewrite od_get_None.
Qed.



End Scans.

(** ** Sorting *)

Section SortedFacts.

Context {A K : Type} (leb : K -> K -> bool) (key : A -> K).
Hypothesis leb_total : forall k1 k2, leb k1 k2 = true \/ leb k2 k1 = true.
Hypothesis leb_trans : forall k1 k2 k3,
  leb k1 k2 = true -> leb k2 k3 = true -> leb k1 k3 = true.

#[local] Abbreviation le := (Py.key_le leb key).

Lemma insert_sorted_Permutation (x : A) (s : list A) :
  Py.insert_sorted leb key x s ≡ₚ x :: s.
Proof.
  induction s as [|y s IH]; cbn; [done|].
  destruct (leb (key x) (key y)); [done|].
  rewrite IH. apply Permutation_swap.
Qed.

Lemma sorted_Permutation (l : list A) : Py.sorted leb key l ≡ₚ l.
Proof.
  induction l as [|x l IH]; cbn; [done|].
  by rewrite insert_sorted_Permutation, IH.
Qed.

Lemma insert_sorted_StronglySorted (x : A) (s : list A) :
  StronglySorted le s -> StronglySorted le (Py.insert_sorted leb key x s).
Proof.
  induction 1 as [|y s Hs IH Hy]; cbn.
  - repeat constructor.
  - destruct (leb (key x) (key y)) eqn:Hxy.
    + constructor; [by constructor|]. constructor; [done|].
      eapply Forall_impl; [exact Hy|]. intros z Hz. by eapply leb_trans.
    + constructor; [done|]. rewrite insert_sorted_Permutation.
      constructor; [|done]. unfold le.
      destruct (leb_total (key x) (key y)); congruence.
Qed.

Lemma sorted_StronglySorted (l : list A) : StronglySorted le (Py.sorted leb key l).
Proof.
  induction l as [|x l IH]; cbn; [constructor|].
  by apply insert_sorted_StronglySorted.
Qed.

End SortedFacts.

(** ** Hashing a directory *)

Section HashDir.

Import Merkle.
Local Open Scope string_scope.

Variable hexdigest : string -> string.

Lemma string_app_assoc (s1 s2 s3 : string) : (s1 ++ s2) ++ s3 = s1 ++ (s2 ++ s3).
Proof.
  induction s1 as [|c s1 IH]; [done|].
  change (String c ((s1 ++ s2) ++ s3) = String c (s1 ++ s2 ++ s3)).
  by rewrite IH.
Qed.

Lemma string_app_nil_r (s : string) : s ++ "" = s.
Proof.
  induction s as [|c s IH]; [done|].
  change (String c (s ++ "") = String c s). by rewrite IH.
Qed.

Lemma string_leb_trans (s1 s2 s3 : string) :
  String.leb s1 s2 = true -> String.leb s2 s3 = true -> String.leb s1 s3 = true.
Proof.
  intros H1%Is_true_true H2%Is_true_true. apply Is_true_true.
  change (String.le s1 s3). by etrans.
Qed.

(** Feeding digests one after the other is feeding them joined. *)
Lemma hash_pending_concat (hashes : list sha1_object) (dir_hash : sha1_object) :
  hash_pending hexdigest dir_hash hashes
  = dir_hash ++ String.concat "" (hexdigest <$> hashes).
Proof.
  unfold hash_pending. revert dir_hash.
  induction hashes as [|h hashes IH]; intros dir_hash; cbn [fold_left fmap list_fmap].
  - by rewrite string_app_nil_r.
  - rewrite IH, string_app_assoc. f_equal.
    destruct hashes; [|done]. cbn. by rewrite string_app_nil_r.
Qed.

(** The body of the loop for one directory, once the hashes of its files
    are fed. *)
Lemma hash_dir_after_files (hash_stack : list sha1_object)
    (dirs : list dir_ref) (files : list record)
    (files_hash : sha1_object) (file_records : list record) :
  hash_files "" (Py.sorted sha1_leb sha1 files) = Ok (files_hash, file_records) ->
  exists dir_hash stack,
    hash_dir hexdigest hash_stack dirs files = Ok (dir_hash, stack, file_records)
    /\ (dirs <> [] ->
        stack = []
        /\ exists pending : list string,
             pending ≡ₚ hexdigest <$> hash_stack
             /\ StronglySorted String.le pending
             /\ dir_hash = files_hash ++ String.concat "" pending)
    /\ (dirs = [] ->
        dir_hash = files_hash /\ stack = (hash_stack ++ [dir_hash])%list).
Proof.
  intros Hfiles. unfold hash_dir. rewrite Hfiles. cbn.
  case_bool_decide as Hdirs.
  - eexists _, _. split; [done|]. split; [|done]. intros _. split; [done|].
    exists (hexdigest <$> Py.sorted String.leb hexdigest hash_stack).
    split_and!.
    + by rewrite sorted_Permutation.
    + eapply StronglySorted_fmap; [|apply sorted_StronglySorted].
      * intros x y Hxy. by apply Is_true_true.
      * intros k1 k2. apply String.leb_total.
      * apply string_leb_trans.
    + by rewrite hash_pending_concat.
  - eexists _, _. split; [done|]. split; [done|]. done.
Qed.

(** C7: the pending list in the pass, at each directory on its way, when the
    hashes of its files are strings. The directory is given the digest of
    what was fed and its record is handed out after those of its files. When
    it has a child directory, the digests of the pending list are fed after
    the hashes of the files, smallest first, the list is emptied and the
    directory does not put its own hash on it. When it has none, nothing but
    the hashes of the files is fed and its hash is appended to the list. *)
Theorem visit_pending_list (p : pass) (present_dir : dir_ref) (o : Dir)
    (ds : list dir_ref) (fs : list record)
    (files_hash : sha1_object) (file_records : list record) :
  dir_objects (tree p) !! present_dir = Some o ->
  dir_lists (tree p) !! dirs o = Some ds ->
  file_lists (tree p) !! files o = Some fs ->
  hash_files "" (Py.sorted sha1_leb sha1 fs) = Ok (files_hash, file_records) ->
  exists dir_hash stack p',
    visit hexdigest p present_dir = Ok p'
    /\ hash_stack p' = stack
    /\ (data <$> dir_objects (tree p') !! present_dir) = Some (hashed hexdigest o dir_hash)
    /\ yielded p' = (yielded p ++ file_records ++ [hashed hexdigest o dir_hash])%list
    /\ (ds <> [] ->
        stack = []
        /\ exists pending : list string,
             pending ≡ₚ hexdigest <$> hash_stack p
             /\ StronglySorted String.le pending
             /\ dir_hash = files_hash ++ String.concat "" pending)
    /\ (ds = [] ->
        dir_hash = files_hash /\ stack = (hash_stack p ++ [dir_hash])%list).
Proof.
  intros Ho Hds Hfs Hfiles.
  destruct (hash_dir_after_files (hash_stack p) ds fs _ _ Hfiles)
    as (dir_hash & stack & Hrun & Hsome & Hnone).
  exists dir_hash, stack. eexists.
  unfold visit, get_dirs, get_files, get_dir. rewrite Ho. cbn.
  rewrite Hds, Hfs. cbn. rewrite Hrun. cbn.
  rewrite list_lookup_alter_eq, Ho. cbn.
  split; [reflexivity|]. cbn. split; [done|]. split; [|done].
  by rewrite list_lookup_alter_eq, Ho.
Qed.

End HashDir.

Section HashDirExamples.

Import Merkle.
Local Open Scope string_scope.

Lemma visit_pending_list_witness :
  let H := fun s => "<" ++ s ++ ">" in
  let o := mkDir (mkRecord "a" "directory" None) 0 0 in
  let p := mkPass (mkHeap [o; Stream.placeholder "a/b" 1] [[1%nat]; []]
                     [[Stream.file "a/x" "33"]; []])
             ["22"; "11"] [] in
  exists dir_hash stack p',
    visit H p 0%nat = Ok p'
    /\ hash_stack p' = stack
    /\ (data <$> dir_objects (tree p') !! 0%nat) = Some (hashed H o dir_hash)
    /\ yielded p' = (yielded p ++ [Stream.file "a/x" "33"] ++ [hashed H o dir_hash])%list
    /\ ([1%nat] <> [] ->
        stack = []
        /\ exists pending : list string,
             pending ≡ₚ H <$> hash_stack p
             /\ StronglySorted String.le pending
             /\ dir_hash = "33" ++ String.concat "" pending)
    /\ ([1%nat] = [] ->
        dir_hash = "33" /\ stack = (hash_stack p ++ [dir_hash])%list).
Proof.
  intros H o p.
  apply (visit_pending_list H p 0%nat o [1%nat] [Stream.file "a/x" "33"] "33"
           [Stream.file "a/x" "33"]); reflexivity.
Defined.

End HashDirExamples.

(** ** Building the tree *)

Section BuildTree.

Import Merkle.
Local Open Scope string_scope.

(** No results: [results[0]] raises and nothing is built. *)
Lemma build_tree_empty (fuel : nat) : build_tree fuel [] = Raise IndexError.
Proof. reflexivity. Qed.

(** The loop of [build_tree] on [Stream.two_tops]: from the placeholder of
    the empty path the parent looked up is that placeholder again. *)
Lemma attach_in_loop (fuel : nat) :
  attach fuel Stream.in_loop 0 2 2 = Raise OutOfFuel.
Proof.
  induction fuel as [|fuel IH]; [done|].
  change (attach fuel Stream.in_loop 0 2 2 = Raise OutOfFuel). exact IH.
Qed.

Lemma attach_before_loop (fuel : nat) :
  attach fuel Stream.before_loop 0 1 1 = Raise OutOfFuel.
Proof.
  destruct fuel as [|[|fuel]]; [done..|].
  change (attach fuel Stream.in_loop 0 2 2 = Raise OutOfFuel).
  apply attach_in_loop.
Qed.

(** C9 on the code: on the two records of [Stream.two_tops], [build_tree]
    does not return, whatever the fuel. *)
Theorem build_tree_two_tops (fuel : nat) :
  build_tree fuel Stream.two_tops = Raise OutOfFuel.
Proof.
  change (build_tree fuel Stream.two_tops)
    with (b ← (b ← ('(b, parent) ← attach fuel Stream.before_loop 0 1 1;
                    h ← append_file (objects b) parent (Stream.file "b/y" "22");
                    Ok (mkBuilder h (known b)));
               add_records fuel 0%nat b []);
          Ok (0%nat, objects b)).
  by rewrite attach_before_loop.
Qed.

End BuildTree.

(** ** The digests and the order of the records *)

Section Order.

Import Merkle.
Local Open Scope string_scope.

Variable hexdigest : string -> string.

(** C8 on the code: the same two file records in the two orders. The digest
    given to ["a/b"] is that of the file that came first, and the other file
    is in no directory that is handed out. *)
Theorem build_merkle_tree_order :
  Stream.x_then_y ≡ₚ Stream.y_then_x
  /\ build_merkle_tree hexdigest 3 Stream.x_then_y
     = Ok [Stream.file "a/b/c/x" "11";
           mkRecord "a/b" "directory" (Some (hexdigest "11"));
           mkRecord "a" "directory" (Some (hexdigest (hexdigest "11")))]
  /\ build_merkle_tree hexdigest 3 Stream.y_then_x
     = Ok [Stream.file "a/b/c/y" "22";
           mkRecord "a/b" "directory" (Some (hexdigest "22"));
           mkRecord "a" "directory" (Some (hexdigest (hexdigest "22")))].
Proof.
  split; [apply Permutation_swap|]. split; reflexivity.
Qed.

End Order.

(** ** The digest of a directory and the order of its files *)

Section FilesOrder.

Import Merkle.
Local Open Scope string_scope.

Variable hexdigest : string -> string.

Lemma sha1_leb_total (k1 k2 : option string) :
  sha1_leb k1 k2 = true \/ sha1_leb k2 k1 = true.
Proof. destruct k1, k2; cbn; auto using String.leb_total. Qed.

Lemma sha1_leb_trans (k1 k2 k3 : option string) :
  sha1_leb k1 k2 = true -> sha1_leb k2 k3 = true -> sha1_leb k1 k3 = true.
Proof. destruct k1, k2, k3; cbn; try done. apply string_leb_trans. Qed.

#[local] Instance sha1_le_trans : Transitive sha1_le.
Proof. intros k1 k2 k3. apply sha1_leb_trans. Qed.

#[local] Instance sha1_le_antisymm : AntiSymm (=) sha1_le.
Proof.
  intros [s1|] [s2|]; unfold sha1_le; cbn; try done.
  intros H1 H2. f_equal. by apply String.leb_antisym.
Qed.

(** The hashes of the files in the order they are fed do not depend on the
    order of the list. *)
Lemma sorted_sha1_Permutation (files1 files2 : list record) :
  files1 ≡ₚ files2 ->
  sha1 <$> Py.sorted sha1_leb sha1 files1 = sha1 <$> Py.sorted sha1_leb sha1 files2.
Proof.
  intros Hperm. apply (StronglySorted_unique sha1_le).
  - eapply StronglySorted_fmap; [|apply sorted_StronglySorted]; eauto using
      sha1_leb_total, sha1_leb_trans.
  - eapply StronglySorted_fmap; [|apply sorted_StronglySorted]; eauto using
      sha1_leb_total, sha1_leb_trans.
  - by rewrite !sorted_Permutation, Hperm.
Qed.

(** What is fed is the hashes of the files, whatever else the records hold. *)
Lemma hash_files_sha1 (files1 : list record) : forall files2 dir_hash h1 y1,
  sha1 <$> files1 = sha1 <$> files2 ->
  hash_files dir_hash files1 = Ok (h1, y1) ->
  hash_files dir_hash files2 = Ok (h1, files2) /\ y1 = files1.
Proof.
  induction files1 as [|f1 files1 IH]; intros [|f2 files2] dir_hash h1 y1 Heq;
    try done.
  - cbn. by intros [= <- <-].
  - cbn in Heq. injection Heq as Hf Heq. cbn. rewrite <- Hf.
    destruct (update dir_hash (sha1 f1)) as [h|]; [|done]. cbn.
    destruct (hash_files h files1) as [[h' y']|] eqn:Hrest; [|done]. cbn.
    intros [= <- <-].
    destruct (IH files2 h h' y' Heq Hrest) as [-> ->]. done.
Qed.

(** For a directory, the digest and the pending list afterwards are the same
    for any two orders of its files. *)
Theorem hash_dir_files_order (hash_stack : list sha1_object)
    (dirs : list dir_ref) (files1 files2 : list record)
    (dir_hash : sha1_object) (stack : list sha1_object) (y1 : list record) :
  files1 ≡ₚ files2 ->
  hash_dir hexdigest hash_stack dirs files1 = Ok (dir_hash, stack, y1) ->
  exists y2,
    hash_dir hexdigest hash_stack dirs files2 = Ok (dir_hash, stack, y2)
    /\ y1 ≡ₚ y2.
Proof.
  intros Hperm. unfold hash_dir.
  destruct (hash_files "" (Py.sorted sha1_leb sha1 files1)) as [[h1 y]|] eqn:H1;
    [|done].
  destruct (hash_files_sha1 _ _ _ _ _ (sorted_sha1_Permutation _ _ Hperm) H1)
    as [-> ->].
  cbn. intros Hrun. exists (Py.sorted sha1_leb sha1 files2). split.
  - destruct (bool_decide (dirs <> [])); by injection Hrun as <- <- <-.
  - assert (y1 = Py.sorted sha1_leb sha1 files1) as ->
      by (destruct (bool_decide (dirs <> [])); by injection Hrun).
    by rewrite !sorted_Permutation.
Qed.

End FilesOrder.

Section FilesOrderExamples.

Import Merkle.
Local Open Scope string_scope.

Lemma hash_dir_files_order_witness :
  exists y2,
    hash_dir (fun s => s) [] [] [Stream.file "a/y" "22"; Stream.file "a/x" "11"]
    = Ok ("1122", ["1122"], y2)
    /\ [Stream.file "a/x" "11"; Stream.file "a/y" "22"] ≡ₚ y2.
Proof.
  apply (hash_dir_files_order (fun s => s) [] []
           [Stream.file "a/x" "11"; Stream.file "a/y" "22"]
           [Stream.file "a/y" "22"; Stream.file "a/x" "11"]).
  - apply Permutation_swap.
  - reflexivity.
Defined.

End FilesOrderExamples.

(** ** The root of the tree built *)

Section BuildTreeRoot.

Import Merkle.
Local Open Scope string_scope.

Lemma new_Dir_inv (h h' : heap) (r : record) (d : dir_ref) :
  new_Dir h r = (d, h') ->
  d = length (dir_objects h)
  /\ dir_paths h' = (dir_paths h ++ [path r])%list
  /\ (data <$> dir_objects h' !! d) = Some r.
Proof.
  unfold new_Dir. intros [= <- <-]. split; [done|]. split.
  - unfold dir_paths. cbn. by rewrite fmap_app.
  - cbn. rewrite lookup_app_r by done. by rewrite Nat.sub_diag.
Qed.

Lemma create_empty_dir_paths (h h' : heap) (p : string) (d : dir_ref) :
  create_empty_dir h p = (d, h') ->
  dir_paths h `prefix_of` dir_paths h'.
Proof.
  unfold create_empty_dir. intros (_ & -> & _)%new_Dir_inv. by apply prefix_app_r.
Qed.

Lemma set_dir_paths (h : heap) (d : dir_ref) (f : Dir -> Dir) :
  (forall o, dir_objects h !! d = Some o -> path (data (f o)) = path (data o)) ->
  dir_paths (set_dir h d f) = dir_paths h.
Proof.
  intros Hf. unfold dir_paths, set_dir. cbn.
  apply list_eq. intros i. rewrite !list_lookup_fmap.
  destruct (decide (i = d)) as [->|Hne].
  - rewrite list_lookup_alter_eq. destruct (dir_objects h !! d) eqn:Ho; [|done].
    cbn. f_equal. by apply Hf.
  - by rewrite list_lookup_alter_ne.
Qed.

Lemma append_dir_paths (h h' : heap) (d x : dir_ref) :
  append_dir h d x = Ok h' -> dir_paths h' = dir_paths h.
Proof.
  unfold append_dir. destruct (get_dir h d); [|done]. cbn. by intros [= <-].
Qed.

Lemma append_file_paths (h h' : heap) (d : dir_ref) (f : record) :
  append_file h d f = Ok h' -> dir_paths h' = dir_paths h.
Proof.
  unfold append_file. destruct (get_dir h d); [|done]. cbn. by intros [= <-].
Qed.

Lemma dir_eqb_true (h : heap) (d1 d2 : dir_ref) :
  dir_eqb h d1 d2 = Ok true ->
  exists o1 o2, dir_objects h !! d1 = Some o1 /\ dir_objects h !! d2 = Some o2
                /\ path (data o1) = path (data o2).
Proof.
  unfold dir_eqb, get_dir.
  destruct (dir_objects h !! d1) as [o1|]; [|done]. cbn.
  destruct (dir_objects h !! d2) as [o2|]; [|done]. cbn.
  intros [= Heq%String.eqb_eq]. eauto.
Qed.

Lemma find_equal_Some (h : heap) (l : list dir_ref) (d dir : dir_ref) :
  find_equal h l d = Ok (Some dir) -> dir_eqb h dir d = Ok true.
Proof.
  induction l as [|x l IH]; [done|]. cbn.
  destruct (dir_eqb h x d) as [[|]|] eqn:Heq; cbn; [|done..].
  by intros [= <-].
Qed.

(** The loop makes new objects and leaves the paths of the others alone. *)
Lemma attach_paths (fuel : nat) : forall b root parent current b' parent',
  attach fuel b root parent current = Ok (b', parent') ->
  dir_paths (objects b) `prefix_of` dir_paths (objects b').
Proof.
  induction fuel as [|fuel IH]; intros b root parent current b' parent'; [done|].
  cbn [attach].
  destruct (dir_eqb (objects b) current root) as [[|]|]; cbn; [| |done].
  { by intros [= <- <-]. }
  destruct (get_dir (objects b) current) as [c|]; cbn; [|done].
  destruct (known b !! parent_path (path (data c))) as [curr_parent|].
  - destruct (get_dirs (objects b) curr_parent) as [l|]; cbn; [|done].
    destruct (find_equal (objects b) l current) as [[dir|]|]; cbn; [| |done].
    + intros Hrun. apply IH in Hrun. cbn [objects] in Hrun.
      by rewrite set_dir_paths in Hrun.
    + destruct (append_dir (objects b) curr_parent current) as [h|] eqn:Happ;
        cbn; [|done].
      intros Hrun. apply IH in Hrun. cbn [objects] in Hrun.
      by rewrite (append_dir_paths _ _ _ _ Happ) in Hrun.
  - destruct (create_empty_dir _ _) as [p h] eqn:Hnew.
    intros Hrun. apply IH in Hrun. cbn [objects] in Hrun.
    etrans; [|exact Hrun]. by eapply create_empty_dir_paths.
Qed.

Lemma add_record_paths (fuel : nat) (root : dir_ref) (b b' : builder)
    (scanned_file : record) :
  add_record fuel root b scanned_file = Ok b' ->
  dir_paths (objects b) `prefix_of` dir_paths (objects b').
Proof.
  unfold add_record. cbv zeta.
  set (found := match known b !! parent_path (path scanned_file) with
                | Some parent => Ok (b, parent)
                | None => _
                end).
  assert (Hfound : forall b1 parent, found = Ok (b1, parent) ->
            dir_paths (objects b) `prefix_of` dir_paths (objects b1)).
  { subst found. intros b1 parent.
    destruct (known b !! _); [by intros [= <- <-]|].
    destruct (create_empty_dir _ _) as [p h] eqn:Hnew.
    intros Hrun%attach_paths. cbn [objects] in Hrun. etrans; [|exact Hrun].
    by eapply create_empty_dir_paths. }
  destruct found as [[b1 parent]|]; cbn; [|done].
  specialize (Hfound _ _ eq_refl).
  destruct (String.eqb (type scanned_file) "directory").
  - destruct (new_Dir (objects b1) scanned_file) as [d h] eqn:Hnew.
    apply new_Dir_inv in Hnew as (_ & Hpaths & Hd).
    assert (Hpre : dir_paths (objects b) `prefix_of` dir_paths h).
    { etrans; [exact Hfound|]. rewrite Hpaths. by apply prefix_app_r. }
    destruct (get_dirs h parent) as [l|]; cbn; [|done].
    destruct (find_equal h l d) as [[dir|]|] eqn:Hfind; cbn; [| |done].
    + intros [= <-]. cbn [objects]. rewrite set_dir_paths; [done|].
      intros o Ho. cbn.
      apply find_equal_Some, dir_eqb_true in Hfind
        as (o1 & o2 & Ho1 & Ho2 & Heq).
      rewrite Ho2 in Hd. cbn in Hd. injection Hd as <-. congruence.
    + destruct (append_dir h parent d) as [h'|] eqn:Happ; cbn; [|done].
      intros [= <-]. cbn [objects]. by rewrite (append_dir_paths _ _ _ _ Happ).
  - destruct (append_file (objects b1) parent scanned_file) as [h|] eqn:Happ;
      cbn; [|done].
    intros [= <-]. cbn [objects]. by rewrite (append_file_paths _ _ _ _ Happ).
Qed.

Lemma add_records_paths (fuel : nat) (root : dir_ref) (results : list record) :
  forall b b',
    add_records fuel root b results = Ok b' ->
    dir_paths (objects b) `prefix_of` dir_paths (objects b').
Proof.
  induction results as [|r results IH]; intros b b'; cbn.
  - by intros [= <-].
  - destruct (add_record fuel root b r) as [b1|] eqn:Hr; cbn; [|done].
    intros Hrest%IH. etrans; [|exact Hrest]. by eapply add_record_paths.
Qed.

(** Whenever [build_tree] returns, the root it returns is the directory made
    for the first segment of the path of the first record. *)
Theorem build_tree_root_path (fuel : nat) (results : list record)
    (root : dir_ref) (h : heap) :
  build_tree fuel results = Ok (root, h) ->
  exists sample_file rest,
    results = sample_file :: rest
    /\ dir_paths h !! root = Some (first_segment (path sample_file)).
Proof.
  unfold build_tree. destruct results as [|sample_file rest]; [done|].
  cbn [Py.getitem]. cbn [mbind result_bind].
  change (Py.getitem (sample_file :: rest) 0) with (Ok sample_file).
  cbn [mbind result_bind].
  destruct (create_empty_dir empty_heap (first_segment (path sample_file)))
    as [r0 h0] eqn:Hnew.
  destruct (add_records _ _ _ _) as [b|] eqn:Hrun; cbn; [|done].
  intros [= <- <-]. exists sample_file, rest. split; [done|].
  apply add_records_paths in Hrun. cbn [objects] in Hrun.
  unfold create_empty_dir in Hnew. apply new_Dir_inv in Hnew as (-> & Hp & _).
  eapply prefix_lookup_Some; [|exact Hrun]. by rewrite Hp.
Qed.

End BuildTreeRoot.

Section BuildTreeRootExamples.

Import Merkle.
Local Open Scope string_scope.

Lemma build_tree_root_path_witness :
  exists root h,
    build_tree 3 Stream.x_then_y = Ok (root, h)
    /\ dir_paths h !! root = Some "a".
Proof.
  destruct (build_tree 3 Stream.x_then_y) as [[root h]|] eqn:Hrun; [|done].
  exists root, h. split; [done|].
  destruct (build_tree_root_path 3 Stream.x_then_y root h Hrun)
    as (sample_file & rest & [= <- <-] & Hroot).
  exact Hroot.
Defined.

End BuildTreeRootExamples.

(** ** The tree after a removal *)

Section RemoveKeepsShape.

Context (cb cb' : Codebase) (h : Z) (a : addr) (r : Resource)
        (p : Z) (ap : addr) (rp : Resource) (rids : list Z).
Context (Hpop : populated cb) (Hlive : live cb h a r) (Hpid : pid r = Some p)
        (Hparent : live cb p ap rp).
Context (Hrids : forall x, x ∈ rids <-> descendant cb h x)
        (Hlen : length (resources cb') = length (resources cb))
        (Hin : forall x, descendant cb h x -> resources cb' !! Z.to_nat x = Some SNone)
        (Hout : forall i : nat, ~ descendant cb h (Z.of_nat i) ->
                                resources cb' !! i = resources cb !! i)
        (Hheap : heap cb' = <[ap := with_children_rids
                                      (filter (fun c => c <> h) (children_rids rp)) rp]>
                              (heap cb))
        (Hroot : root cb' = root cb).

#[local] Abbreviation after := (after_removal h ap).

Lemma heap_after a0 r0 :
  heap cb !! a0 = Some r0 -> heap cb' !! a0 = Some (after a0 r0).
Proof.
  intros Hr0. rewrite Hheap. unfold after_removal. destruct (decide (a0 = ap)) as [->|Hne].
  - destruct Hparent as (_ & _ & Hrp). rewrite Hrp in Hr0. injection Hr0 as <-.
    apply list_lookup_insert_eq. by eapply lookup_lt_Some.
  - by rewrite list_lookup_insert_ne.
Qed.

Lemma heap_before a0 r1 :
  heap cb' !! a0 = Some r1 -> exists r0, heap cb !! a0 = Some r0 /\ r1 = after a0 r0.
Proof.
  intros Hr1. destruct (heap cb !! a0) as [r0|] eqn:Hr0.
  - exists r0. split; [done|]. rewrite (heap_after _ _ Hr0) in Hr1. by injection Hr1.
  - rewrite Hheap in Hr1. apply lookup_lt_Some in Hr1.
    rewrite length_insert in Hr1. apply lookup_ge_None in Hr0. lia.
Qed.

Lemma after_pid a0 r0 : pid (after a0 r0) = pid r0.
Proof. unfold after_removal. by destruct (decide _). Qed.

Lemma after_rid a0 r0 : rid (after a0 r0) = rid r0.
Proof. unfold after_removal. by destruct (decide _). Qed.

Lemma after_children a0 r0 c :
  c ∈ children_rids (after a0 r0) -> c ∈ children_rids r0.
Proof.
  unfold after_removal. destruct (decide _); [|done]. cbn.
  by intros [_ ?]%list_elem_of_filter.
Qed.

Lemma after_children_keep a0 r0 c :
  c ∈ children_rids r0 -> c <> h -> c ∈ children_rids (after a0 r0).
Proof.
  intros Hc Hne. unfold after_removal. destruct (decide _); [|done]. cbn.
  by apply list_elem_of_filter.
Qed.

Lemma live_after x a0 r1 :
  live cb' x a0 r1 ->
  ~ descendant cb h x /\ exists r0, live cb x a0 r0 /\ r1 = after a0 r0.
Proof.
  intros (Hx & Hs & Hr1).
  assert (Hnd : ~ descendant cb h x).
  { intros Hd. rewrite (Hin _ Hd) in Hs. done. }
  split; [done|]. destruct (heap_before _ _ Hr1) as (r0 & Hr0 & ->).
  exists r0. split; [|done]. split_and!; [done| |done].
  rewrite <- Hout; [done|]. by rewrite Z2Nat.id.
Qed.

Lemma live_before x a0 r0 :
  live cb x a0 r0 -> ~ descendant cb h x -> live cb' x a0 (after a0 r0).
Proof.
  intros (Hx & Hs & Hr0) Hnd. split_and!; [done| |by apply heap_after].
  rewrite Hout; [done|]. by rewrite Z2Nat.id.
Qed.

Lemma child_is_descendant x a0 r0 c :
  live cb x a0 r0 -> c ∈ children_rids r0 -> descendant cb h x -> descendant cb h c.
Proof. intros Hx Hc Hd. eapply rtc_r; [exact Hd|]. by exists a0, r0. Qed.

Lemma parent_lt : p < h.
Proof.
  destruct (populated_parent cb Hpop _ _ _ _ Hlive Hpid) as (ap' & rp' & Hp' & Hc).
  by destruct (populated_children cb Hpop _ _ _ _ Hp' Hc).
Qed.

(** A resource below the one removed hangs on it or on one of its
    descendants. *)
Lemma descendant_parent c ac rc x :
  live cb c ac rc -> pid rc = Some x -> descendant cb h c -> c <> h ->
  descendant cb h x.
Proof.
  intros Hc Hpc Hd Hne. apply rtc_inv_r in Hd as [->|(y & Hd & ay & ry & Hy & Hcy)];
    [done|].
  destruct (populated_children cb Hpop _ _ _ _ Hy Hcy) as (_ & ac' & rc' & Hc' & Hpc').
  destruct (live_functional cb _ _ _ _ _ Hc Hc') as [<- <-].
  assert (x = y) as -> by congruence. done.
Qed.

Lemma populated_after_remove : populated cb'.
Proof.
  pose proof parent_lt as Hlt.
  split.
  - intros i s Hs. destruct (decide (Z.of_nat i ∈ rids)) as [Hd|Hd].
    + apply Hrids, Hin in Hd. rewrite Nat2Z.id in Hd. left. congruence.
    + rewrite Hout in Hs by (by rewrite <- Hrids).
      destruct (populated_slot cb Hpop _ _ Hs) as [->|(a0 & r0 & -> & Hr0 & Hrid)];
        [by left|].
      right. exists a0, (after a0 r0). split_and!; [done|by apply heap_after|].
      by rewrite after_rid.
  - destruct (populated_root cb Hpop) as (r0 & H0 & Hp0).
    exists (after (root cb) r0). rewrite Hroot. split; [|by rewrite after_pid].
    apply live_before; [done|]. intros Hd.
    destruct (descendant_live cb Hpop _ _ _ _ Hlive Hd) as [Hle _].
    destruct Hparent as (? & _). lia.
  - intros x a0 r1 (_ & r0 & Hx & ->)%live_after. rewrite after_pid.
    by eapply populated_root_only.
  - intros x a0 r1 c (Hnd & r0 & Hx & ->)%live_after Hc.
    assert (Hc0 : c ∈ children_rids r0) by (by eapply after_children).
    destruct (populated_children cb Hpop _ _ _ _ Hx Hc0) as (Hxc & ac & rc & Hlc & Hpc).
    split; [done|]. exists ac, (after ac rc). split; [|by rewrite after_pid].
    apply live_before; [done|]. intros Hd. apply Hnd.
    destruct (decide (c = h)) as [->|Hne].
    + exfalso. destruct (live_functional cb _ _ _ _ _ Hlive Hlc) as [<- <-].
      assert (x = p) as -> by congruence.
      destruct (live_functional cb _ _ _ _ _ Hparent Hx) as [<- <-].
      unfold after_removal in Hc. rewrite decide_True in Hc by done. cbn in Hc.
      apply list_elem_of_filter in Hc as [Hc _]. done.
    + by eapply descendant_parent.
  - intros x a0 r1 (_ & r0 & Hx & ->)%live_after.
    pose proof (populated_NoDup cb Hpop _ _ _ Hx) as Hnd.
    unfold after_removal. destruct (decide _); [|done]. cbn. by apply NoDup_filter.
  - intros x a0 r1 q (Hnd & r0 & Hx & ->)%live_after Hq. rewrite after_pid in Hq.
    destruct (populated_parent cb Hpop _ _ _ _ Hx Hq) as (aq & rq & Hlq & Hxq).
    exists aq, (after aq rq). split.
    + apply live_before; [done|]. intros Hd. apply Hnd.
      by eapply child_is_descendant.
    + apply after_children_keep; [done|]. intros ->. apply Hnd. apply rtc_refl.
Qed.

End RemoveKeepsShape.

Section RemoveKeepsPopulated.

(** A populated tree is still populated after [remove_resource]. *)
Theorem remove_resource_keeps_populated (cb cb' : Codebase) (h : Z) (a : addr)
    (r : Resource) (fuel : nat) (rids : list Z) :
  populated cb ->
  live cb h a r ->
  (length (resources cb) <= fuel)%nat ->
  remove_resource fuel a cb = (Ok rids, cb') ->
  populated cb'.
Proof.
  intros Hpop Hlive Hfuel Hrun.
  destruct (pid r) as [p|] eqn:Hpid.
  2:{ unfold remove_resource in Hrun. rewrite M_bind_eq in Hrun.
      unfold reading in Hrun. rewrite (live_deref _ _ _ _ Hlive) in Hrun.
      unfold is_root in Hrun. by rewrite Hpid in Hrun. }
  destruct (remove_resource_below_root cb h a r p fuel Hpop Hlive Hpid Hfuel)
    as (rids' & cb'' & Hrun' & Hrids & Hlen & Hin & Hout
        & (ap & rp & Hparent & Hheap) & Hr & _).
  rewrite Hrun in Hrun'. injection Hrun' as <- <-.
  by eapply (populated_after_remove cb cb' h a r p ap rp rids).
Qed.

Lemma remove_resource_keeps_populated_witness :
  populated (snd (remove_resource 4 1%nat Sample.tree)).
Proof.
  destruct (remove_resource 4 1%nat Sample.tree) as [res cb'] eqn:Hrun.
  assert (exists rids, res = Ok rids) as [rids ->].
  { vm_compute in Hrun. injection Hrun as <- _. by eexists. }
  apply (remove_resource_keeps_populated Sample.tree cb' 1 1%nat Sample.b_dir 4 rids
           sample_tree_populated).
  - by apply (live_intro Sample.tree 1).
  - simpl. lia.
  - exact Hrun.
Defined.

End RemoveKeepsPopulated.

(** ** The walks of a populated tree *)

Section SortChildren.

Lemma sorter_leb_total k1 k2 : sorter_leb k1 k2 = true \/ sorter_leb k2 k1 = true.
Proof.
  unfold sorter_leb. destruct (fst k1), (fst k2); auto; apply String.leb_total.
Qed.

Lemma sorter_leb_trans k1 k2 k3 :
  sorter_leb k1 k2 = true -> sorter_leb k2 k3 = true -> sorter_leb k1 k3 = true.
Proof.
  unfold sorter_leb. destruct (fst k1), (fst k2), (fst k3); try done;
    apply string_leb_trans.
Qed.

Lemma Forall2_Permutation_r {A B : Type} (P : A -> B -> Prop) l k k' :
  Forall2 P l k -> k ≡ₚ k' -> exists l', l ≡ₚ l' /\ Forall2 P l' k'.
Proof.
  intros HF Hp. revert l HF.
  induction Hp as [|y k k' _ IH|y1 y2 k|k1 k2 k3 _ IH1 _ IH2]; intros l HF.
  - exists l. by split.
  - apply Forall2_cons_inv_r in HF as (x & l0 & Hx & HF & ->).
    destruct (IH _ HF) as (l' & Hl' & HF'). exists (x :: l').
    split; [by constructor|by constructor].
  - apply Forall2_cons_inv_r in HF as (x1 & l0 & Hx1 & HF & ->).
    apply Forall2_cons_inv_r in HF as (x2 & l1 & Hx2 & HF & ->).
    exists (x2 :: x1 :: l1). split; [apply Permutation_swap|by repeat constructor].
  - destruct (IH1 _ HF) as (l1 & Hl1 & HF1).
    destruct (IH2 _ HF1) as (l2 & Hl2 & HF2).
    exists l2. split; [by etrans|done].
Qed.

(** Sorting the children of a resource: the same children, directories
    first, and by name among the directories and among the files. *)
Lemma sort_children_live cb (addrs : list addr) :
  Forall (fun a => is_Some (heap cb !! a)) addrs ->
  exists addrs',
    sort_children cb (SResource <$> addrs) = Ok (SResource <$> addrs')
    /\ addrs ≡ₚ addrs'
    /\ StronglySorted
         (fun a1 a2 => forall r1 r2,
            heap cb !! a1 = Some r1 -> heap cb !! a2 = Some r2 ->
            sorter_leb (is_file r1, name r1) (is_file r2, name r2) = true)
         addrs'.
Proof.
  intros Hall.
  set (key_of := fun a : addr =>
         match heap cb !! a with
         | Some r => (is_file r, name r)
         | None => (false, EmptyString)
         end).
  set (g := fun a : addr => (key_of a, SResource a)).
  assert (Hkeyed : mapM (fun s => k ← sorter cb s; Ok (k, s)) (SResource <$> addrs)
                   = Ok (g <$> addrs)).
  { apply mapM_Ok. apply Forall2_fmap. apply Forall_Forall2_diag.
    eapply Forall_impl; [exact Hall|]. intros a [r Hr]. cbn.
    unfold sorter, attr_of, deref, g, key_of. cbn. by rewrite Hr. }
  pose proof (sorted_Permutation sorter_leb fst (g <$> addrs)) as Hperm.
  apply Permutation_map_inv in Hperm as (addrs' & Heq & Hperm').
  exists addrs'. split_and!; [|done|].
  - unfold sort_children. rewrite Hkeyed. cbn. f_equal.
    change (map g addrs') with (g <$> addrs') in Heq. rewrite Heq.
    rewrite <- list_fmap_compose. done.
  - pose proof (sorted_StronglySorted sorter_leb fst sorter_leb_total
                  sorter_leb_trans (g <$> addrs)) as Hs.
    change (map g addrs') with (g <$> addrs') in Heq. rewrite Heq in Hs.
    clear -Hs. induction addrs' as [|a l IH]; [constructor|].
    cbn in Hs. apply StronglySorted_cons in Hs as [Ha Hs].
    constructor; [by apply IH|].
    rewrite Forall_fmap in Ha. eapply Forall_impl; [exact Ha|].
    intros a2 Hle r1 r2 H1 H2. unfold Py.key_le, g, key_of in Hle. cbn in Hle.
    by rewrite H1, H2 in Hle.
Qed.

End SortChildren.

Section TreeShape.

Context (cb : Codebase) (Hpop : populated cb).

Lemma child_of_lt p c : child_of cb p c -> p < c.
Proof.
  intros (a & r & Hl & Hc). by destruct (populated_children cb Hpop _ _ _ _ Hl Hc).
Qed.

Lemma child_of_live p c :
  child_of cb p c -> exists ac rc, live cb c ac rc /\ pid rc = Some p.
Proof.
  intros (a & r & Hl & Hc). by destruct (populated_children cb Hpop _ _ _ _ Hl Hc).
Qed.

(** A resource has one parent. *)
Lemma child_of_functional p p' c : child_of cb p c -> child_of cb p' c -> p = p'.
Proof.
  intros (ac & rc & Hl & Hp)%child_of_live (ac' & rc' & Hl' & Hp')%child_of_live.
  destruct (live_functional cb _ _ _ _ _ Hl Hl') as [_ <-]. congruence.
Qed.

Lemma descendant_le h x : descendant cb h x -> h <= x.
Proof.
  induction 1 as [|h c x Hc%child_of_lt _ IH]; lia.
Qed.

(** The ancestors of a resource are in line. *)
Lemma descendant_comparable c x :
  descendant cb c x -> forall c', descendant cb c' x ->
  descendant cb c c' \/ descendant cb c' c.
Proof.
  intros Hd. pattern x. revert x Hd. apply rtc_ind_r.
  - intros c' Hd'. by right.
  - intros y x Hcy Hyx IH c' Hd'.
    apply rtc_inv_r in Hd' as [->|(y' & Hd' & Hy')].
    + left. by eapply rtc_r.
    + rewrite <- (child_of_functional _ _ _ Hyx Hy') in Hd'. by apply IH.
Qed.

(** Two children of a resource have no descendant in common. *)
Lemma siblings_disjoint h c c' x :
  child_of cb h c -> child_of cb h c' -> c <> c' ->
  descendant cb c x -> descendant cb c' x -> False.
Proof.
  intros Hc Hc' Hne Hd Hd'.
  assert (Haux : forall c1 c2, child_of cb h c1 -> child_of cb h c2 -> c1 <> c2 ->
                               descendant cb c1 c2 -> False).
  { intros c1 c2 H1 H2 Hne12 H12.
    apply rtc_inv_r in H12 as [->|(y & Hy & Hyc)]; [done|].
    rewrite (child_of_functional _ _ _ Hyc H2) in Hy.
    apply descendant_le in Hy. apply child_of_lt in H1. lia. }
  destruct (descendant_comparable _ _ Hd _ Hd'); eauto.
Qed.

(** Every resource of the list is the root or one of its descendants. *)
Lemma live_descendant_root h a r : live cb h a r -> descendant cb 0 h.
Proof.
  intros Hlive. assert (Hh : 0 <= h) by by destruct Hlive.
  revert a r Hlive. pattern h. revert h Hh.
  apply Z_lt_induction. intros h IH a r Hlive.
  destruct (pid r) as [p|] eqn:Hpid.
  - destruct (populated_parent cb Hpop _ _ _ _ Hlive Hpid) as (ap & rp & Hp & Hin).
    assert (Hc : child_of cb p h) by by exists ap, rp.
    eapply rtc_r; [|exact Hc]. eapply IH; [|exact Hp].
    apply child_of_lt in Hc. destruct Hp as (? & _). lia.
  - rewrite (populated_root_only cb Hpop _ _ _ Hlive Hpid). apply rtc_refl.
Qed.

End TreeShape.

Section WalkShape.

Context (cb : Codebase) (Hpop : populated cb).

#[local] Abbreviation names := (fun (a : addr) (x : Z) => exists r, live cb x a r).

Lemma live_resource_at h a r : live cb h a r -> resource_at cb h = Some r.
Proof.
  intros (Hh & Hs & Hr). unfold resource_at.
  rewrite (proj2 (Z.ltb_ge h 0)) by lia. by rewrite Hs.
Qed.

Lemma resource_at_live h r : resource_at cb h = Some r -> exists a, live cb h a r.
Proof.
  unfold resource_at, live. destruct (Z.ltb_spec h 0); [done|].
  destruct (resources cb !! Z.to_nat h) as [[|a|]|] eqn:Hs; try done.
  intros Hr. by exists a.
Qed.

Lemma StronglySorted_Forall2 {A B : Type} (P : A -> B -> Prop)
    (R : relation B) (R' : relation A) l k :
  Forall2 P l k -> StronglySorted R k ->
  (forall x1 y1 x2 y2, P x1 y1 -> P x2 y2 -> R y1 y2 -> R' x1 x2) ->
  StronglySorted R' l.
Proof.
  intros HF Hs HR. induction HF as [|x y l k Hxy HF IH]; [constructor|].
  apply StronglySorted_cons in Hs as [Hy Hs]. constructor; [by apply IH|].
  clear IH Hs. induction HF as [|x' y' l k Hxy' _ IH]; [constructor|].
  apply Forall_cons in Hy as [Hyy' Hy]. constructor; eauto.
Qed.

(** The walk from a resource of the tree ends, and what it hands out is laid
    out as [walks] has it. *)
Lemma _walk_walks (topdown sort : bool) (fuel : nat) : forall h a r,
  live cb h a r ->
  (length (resources cb) - Z.to_nat h <= fuel)%nat ->
  exists walked rids,
    _walk fuel cb a topdown sort = Ok walked
    /\ Forall2 names walked rids
    /\ walks fuel cb topdown sort h rids.
Proof.
  induction fuel as [|fuel IH]; intros h a r Hlive Hfuel.
  { pose proof (live_lt _ _ _ _ Hlive). destruct Hlive as (? & _). lia. }
  destruct (children_live cb Hpop _ _ _ Hlive) as (addrs & Hch & HF).
  assert (Hsort : exists kids addrs',
    (if sort && negb (bool_decide (SResource <$> addrs = []))
     then sort_children cb (SResource <$> addrs) else Ok (SResource <$> addrs))
    = Ok (SResource <$> addrs')
    /\ kids ≡ₚ children_rids r
    /\ (if sort then StronglySorted (sorted_by_key cb) kids
        else kids = children_rids r)
    /\ Forall2 (fun c ac => exists rc, live cb c ac rc) kids addrs').
  { destruct sort; cbn [andb].
    - destruct (sort_children_live cb addrs) as (addrs' & Hs' & Hp & Hsorted).
      { clear -HF. induction HF as [|? ? ? ? [rc (_ & _ & Hr)]]; constructor; eauto. }
      destruct (Forall2_Permutation_r _ _ _ _ HF Hp) as (kids & Hk & HF').
      exists kids, addrs'. split_and!; [|by symmetry| |done].
      + case_bool_decide as Hnil; cbn [negb]; [|done].
        destruct addrs; [|done]. apply Permutation_nil_l in Hp. by subst.
      + eapply StronglySorted_Forall2; [exact HF'|exact Hsorted|].
        intros c1 a1 c2 a2 [r1 H1] [r2 H2] Hle. unfold sorted_by_key, sort_key.
        rewrite (live_resource_at _ _ _ H1), (live_resource_at _ _ _ H2).
        apply Hle; [by destruct H1 as (_ & _ & ?)|by destruct H2 as (_ & _ & ?)].
    - exists (children_rids r), addrs. done. }
  destruct Hsort as (kids & addrs' & Hsort & Hperm & Hord & HF').
  assert (Hsub : exists subs subrids,
    mapM (fun child => a ← as_resource child; _walk fuel cb a topdown sort)
         (SResource <$> addrs') = Ok subs
    /\ Forall2 (Forall2 names) subs subrids
    /\ Forall2 (walks fuel cb topdown sort) kids subrids).
  { assert (Hlt : forall c, c ∈ kids -> h < c).
    { intros c Hc. rewrite Hperm in Hc.
      by destruct (populated_children cb Hpop _ _ _ _ Hlive Hc). }
    clear Hsort Hperm Hord. induction HF' as [|c ac cs addrs'' [rc Hc] _ IH'].
    - exists [], []. split_and!; constructor.
    - destruct IH' as (subs & subrids & Hm & H1 & H2).
      { intros c' Hc'. apply Hlt. by right. }
      destruct (IH c ac rc Hc) as (w & rs & Hw & Hwl & Hwd).
      { specialize (Hlt c ltac:(left)). destruct Hlive as (? & _). lia. }
      exists (w :: subs), (rs :: subrids). split_and!; [|by constructor..].
      apply mapM_Ok. constructor; [done|]. by apply mapM_Ok_inv. }
  destruct Hsub as (subs & subrids & Hm & Hlives & Hw).
  exists ((if topdown then [a] else []) ++ concat subs ++ (if topdown then [] else [a])),
         ((if topdown then [h] else []) ++ concat subrids ++ (if topdown then [] else [h])).
  split_and!.
  - cbn [_walk]. rewrite Hch. cbn. rewrite Hsort. cbn. rewrite Hm. done.
  - apply Forall2_concat in Hlives.
    destruct topdown; simpl.
    + constructor; [eauto|]. by rewrite !app_nil_r.
    + apply Forall2_app; [done|]. constructor; [eauto|constructor].
  - cbn [walks]. exists a, r, kids, subrids. done.
Qed.

Lemma walks_elem n topdown sort : forall h rids,
  walks n cb topdown sort h rids -> forall x, x ∈ rids <-> descendant cb h x.
Proof.
  induction n as [|n IH]; intros h rids; [done|].
  intros (a & r & kids & subs & Hlive & Hperm & _ & HF & ->) x.
  assert (Hin : x ∈ (if topdown then [h] else []) ++ concat subs
                      ++ (if topdown then [] else [h])
                <-> x = h \/ x ∈ concat subs).
  { destruct topdown; simpl.
    - rewrite app_nil_r, elem_of_cons. done.
    - rewrite elem_of_app, list_elem_of_singleton. tauto. }
  rewrite Hin, elem_of_concat. split.
  - intros [->|(rs & Hrs & Hx)]; [apply rtc_refl|].
    apply list_elem_of_lookup in Hrs as [i Hi].
    destruct (Forall2_lookup_r _ _ _ _ _ HF Hi) as (c & Hc & Hcd).
    eapply rtc_l; [|by eapply IH].
    exists a, r. split; [done|]. rewrite <- Hperm. by eapply list_elem_of_lookup_2.
  - intros Hd. apply rtc_inv in Hd as [->|(c & (a' & r' & Hl' & Hc) & Hd)]; [by left|].
    right. destruct (live_functional cb _ _ _ _ _ Hlive Hl') as [<- <-].
    rewrite <- Hperm in Hc.
    apply list_elem_of_lookup in Hc as [i Hi].
    destruct (Forall2_lookup_l _ _ _ _ _ HF Hi) as (rs & Hrs & Hcd).
    exists rs. split; [by eapply list_elem_of_lookup_2|]. by eapply IH.
Qed.

Lemma concat_ordered {A B : Type} (S : relation A) (D : A -> B -> Prop)
    (R : relation B) kids subs :
  StronglySorted S kids ->
  Forall2 (fun c s => StronglySorted R s /\ forall x, x ∈ s -> D c x) kids subs ->
  (forall c c' x y, S c c' -> D c x -> D c' y -> R x y) ->
  StronglySorted R (concat subs).
Proof.
  intros HS HF HR. induction HF as [|c s kids subs [Hs HD] HF IH]; [constructor|].
  apply StronglySorted_cons in HS as [Hc HS]. cbn [concat].
  apply StronglySorted_app_2; [|done|by apply IH].
  intros x y Hx Hy. apply elem_of_concat in Hy as (s' & Hs' & Hy).
  apply list_elem_of_lookup in Hs' as [i Hi].
  destruct (Forall2_lookup_r _ _ _ _ _ HF Hi) as (c' & Hc' & _ & HD').
  eapply HR; [|by apply HD|by apply HD'].
  eapply Forall_forall; [exact Hc|]. by eapply list_elem_of_lookup_2.
Qed.

Lemma NoDup_StronglySorted {A : Type} (l : list A) :
  NoDup l <-> StronglySorted (fun x y => x <> y) l.
Proof.
  induction l as [|x l IH].
  - split; constructor.
  - rewrite NoDup_cons, StronglySorted_cons, IH, Forall_forall. split.
    + intros [Hx Hl]. split; [|done]. intros y Hy ->. done.
    + intros [Hx Hl]. split; [|done]. intros Hin. by apply (Hx x).
Qed.

Lemma StronglySorted_and {A : Type} (R1 R2 : relation A) (l : list A) :
  StronglySorted R1 l -> StronglySorted R2 l ->
  StronglySorted (fun x y => R1 x y /\ R2 x y) l.
Proof.
  induction 1 as [|x l _ IH H1]; [constructor|].
  intros [H2 Hl]%StronglySorted_cons. constructor; [by apply IH|].
  rewrite Forall_forall in *. eauto.
Qed.

Lemma StronglySorted_lookup {A : Type} (R : relation A) (l : list A) i j x y :
  StronglySorted R l -> l !! i = Some x -> l !! j = Some y -> (i < j)%nat -> R x y.
Proof.
  intros Hs Hi Hj Hlt. rewrite <- (take_drop j l) in Hs.
  eapply StronglySorted_app_1_elem_of; [exact Hs| |].
  - eapply list_elem_of_lookup_2. by rewrite lookup_take_lt.
  - eapply list_elem_of_lookup_2. rewrite lookup_drop, Nat.add_0_r. done.
Qed.

(** The children of a resource, as a walk takes them, with what it hands out
    from each. *)
Lemma walks_kids n topdown sort h a r kids subs :
  live cb h a r -> kids ≡ₚ children_rids r ->
  Forall2 (walks n cb topdown sort) kids subs ->
  NoDup kids
  /\ (forall c, c ∈ kids -> child_of cb h c)
  /\ Forall2 (fun c s => forall x, x ∈ s <-> descendant cb c x) kids subs
  /\ (forall x, x ∈ concat subs -> h < x).
Proof.
  intros Hlive Hperm HF.
  assert (Hch : forall c, c ∈ kids -> child_of cb h c).
  { intros c Hc. exists a, r. by rewrite <- Hperm. }
  assert (HD : Forall2 (fun c s => forall x, x ∈ s <-> descendant cb c x) kids subs).
  { eapply Forall2_impl; [exact HF|]. intros c s Hw. by eapply walks_elem. }
  split_and!; [|done|done|].
  - rewrite Hperm. by eapply populated_NoDup.
  - intros x (s & Hs & Hx)%elem_of_concat.
    apply list_elem_of_lookup in Hs as [i Hi].
    destruct (Forall2_lookup_r _ _ _ _ _ HD Hi) as (c & Hc & Hcd).
    apply Hcd, (descendant_le cb Hpop) in Hx.
    apply list_elem_of_lookup_2, Hch, (child_of_lt cb Hpop) in Hc. lia.
Qed.

(** A walk hands out no resource twice. *)
Lemma walks_NoDup n topdown sort : forall h rids,
  walks n cb topdown sort h rids -> NoDup rids.
Proof.
  induction n as [|n IH]; intros h rids; [done|].
  intros (a & r & kids & subs & Hlive & Hperm & _ & HF & ->).
  destruct (walks_kids _ _ _ _ _ _ _ _ Hlive Hperm HF) as (Hnd & Hch & HD & Hlt).
  assert (Hcat : NoDup (concat subs)).
  { apply NoDup_StronglySorted.
    apply (concat_ordered (fun c c' => c <> c' /\ child_of cb h c /\ child_of cb h c')
             (descendant cb) _ kids subs).
    - apply StronglySorted_and; [by apply NoDup_StronglySorted|].
      clear -Hch. induction kids as [|c kids IHk]; constructor.
      + apply IHk. intros c' Hc'. apply Hch. by right.
      + apply Forall_forall. intros c' Hc'. split; apply Hch; [by left|by right].
    - apply Forall2_same_length_lookup. split; [by eapply Forall2_length|].
      intros i c s Hc Hs. split.
      + apply NoDup_StronglySorted. eapply IH.
        by eapply (Forall2_lookup_lr _ _ _ _ _ _ HF).
      + intros x Hx. by eapply (Forall2_lookup_lr _ _ _ _ _ _ HD).
    - intros c c' x y (Hne & Hc & Hc') Hx Hy ->.
      by eapply (siblings_disjoint cb Hpop h c c' y). }
  destruct topdown; simpl.
  - rewrite app_nil_r. constructor; [|done]. intros Hin%Hlt. lia.
  - apply NoDup_app. split_and!; [done| |apply NoDup_singleton].
    intros x Hx%Hlt ->%list_elem_of_singleton. lia.
Qed.

(** Top-down, no resource is handed out before its parent; bottom-up, none
    after its parent. *)
Lemma walks_parent_order n topdown sort : forall h rids,
  walks n cb topdown sort h rids ->
  StronglySorted
    (fun x y => ~ (if topdown then child_of cb y x else child_of cb x y)) rids.
Proof.
  induction n as [|n IH]; intros h rids; [done|].
  intros (a & r & kids & subs & Hlive & Hperm & _ & HF & ->).
  destruct (walks_kids _ _ _ _ _ _ _ _ Hlive Hperm HF) as (Hnd & Hch & HD & Hlt).
  assert (Hcat : StronglySorted
    (fun x y => ~ (if topdown then child_of cb y x else child_of cb x y))
    (concat subs)).
  { apply (concat_ordered (fun c c' => c <> c' /\ child_of cb h c /\ child_of cb h c')
             (descendant cb) _ kids subs).
    - apply StronglySorted_and; [by apply NoDup_StronglySorted|].
      clear -Hch. induction kids as [|c kids IHk]; constructor.
      + apply IHk. intros c' Hc'. apply Hch. by right.
      + apply Forall_forall. intros c' Hc'. split; apply Hch; [by left|by right].
    - apply Forall2_same_length_lookup. split; [by eapply Forall2_length|].
      intros i c s Hc Hs. split.
      + eapply IH. by eapply (Forall2_lookup_lr _ _ _ _ _ _ HF).
      + intros x Hx. by eapply (Forall2_lookup_lr _ _ _ _ _ _ HD).
    - intros c c' x y (Hne & Hc & Hc') Hx Hy Hxy. destruct topdown.
      + eapply (siblings_disjoint cb Hpop h c c' x); eauto. by eapply rtc_r.
      + eapply (siblings_disjoint cb Hpop h c c' y); eauto. by eapply rtc_r. }
  destruct topdown; simpl.
  - rewrite app_nil_r. constructor; [done|].
    apply Forall_forall. intros y Hy%Hlt Hc%(child_of_lt cb Hpop). lia.
  - apply StronglySorted_app_2; [|done|repeat constructor].
    intros x y Hx%Hlt ->%list_elem_of_singleton Hc%(child_of_lt cb Hpop). lia.
Qed.

Lemma walks_kids_parent n topdown sort h a r kids subs :
  live cb h a r -> kids ≡ₚ children_rids r ->
  Forall2 (walks n cb topdown sort) kids subs ->
  forall x p, x ∈ concat subs -> child_of cb p x -> h <= p.
Proof.
  intros Hlive Hperm HF x p Hx Hp.
  destruct (walks_kids _ _ _ _ _ _ _ _ Hlive Hperm HF) as (_ & Hch & HD & _).
  apply elem_of_concat in Hx as (s & Hs & Hx).
  apply list_elem_of_lookup in Hs as [i Hi].
  destruct (Forall2_lookup_r _ _ _ _ _ HD Hi) as (c & Hc & Hcd).
  apply list_elem_of_lookup_2, Hch in Hc.
  apply Hcd, rtc_inv_r in Hx as [->|(y & Hy & Hyx)].
  - rewrite (child_of_functional cb Hpop _ _ _ Hp Hc). lia.
  - rewrite (child_of_functional cb Hpop _ _ _ Hp Hyx).
    apply (descendant_le cb Hpop) in Hy. apply (child_of_lt cb Hpop) in Hc. lia.
Qed.

(** With [sort], of two children of one resource the one handed out first
    has the smaller key. *)
Lemma walks_sibling_order n topdown : forall h rids,
  walks n cb topdown true h rids ->
  StronglySorted
    (fun x y => forall p, child_of cb p x -> child_of cb p y -> sorted_by_key cb x y)
    rids.
Proof.
  induction n as [|n IH]; intros h rids; [done|].
  intros (a & r & kids & subs & Hlive & Hperm & Hord & HF & ->).
  destruct (walks_kids _ _ _ _ _ _ _ _ Hlive Hperm HF) as (Hnd & Hch & HD & Hlt).
  pose proof (walks_kids_parent _ _ _ _ _ _ _ _ Hlive Hperm HF) as Hpar.
  assert (Hcat : StronglySorted
    (fun x y => forall p, child_of cb p x -> child_of cb p y -> sorted_by_key cb x y)
    (concat subs)).
  { apply (concat_ordered
             (fun c c' => (c <> c' /\ child_of cb h c /\ child_of cb h c')
                          /\ sorted_by_key cb c c')
             (descendant cb) _ kids subs).
    - apply StronglySorted_and; [|done].
      apply StronglySorted_and; [by apply NoDup_StronglySorted|].
      clear -Hch. induction kids as [|c kids IHk]; constructor.
      + apply IHk. intros c' Hc'. apply Hch. by right.
      + apply Forall_forall. intros c' Hc'. split; apply Hch; [by left|by right].
    - apply Forall2_same_length_lookup. split; [by eapply Forall2_length|].
      intros i c s Hc Hs. split.
      + eapply IH. by eapply (Forall2_lookup_lr _ _ _ _ _ _ HF).
      + intros x Hx. by eapply (Forall2_lookup_lr _ _ _ _ _ _ HD).
    - intros c c' x y ((Hne & Hc & Hc') & Hle) Hx Hy p Hpx Hpy.
      pose proof (child_of_lt cb Hpop _ _ Hc) as Hhc.
      pose proof (child_of_lt cb Hpop _ _ Hc') as Hhc'.
      apply rtc_inv_r in Hx as [->|(x0 & Hx0 & Hx)];
        apply rtc_inv_r in Hy as [->|(y0 & Hy0 & Hy)].
      + done.
      + rewrite (child_of_functional cb Hpop _ _ _ Hpx Hc) in Hpy.
        rewrite <- (child_of_functional cb Hpop _ _ _ Hpy Hy) in Hy0.
        apply (descendant_le cb Hpop) in Hy0. lia.
      + rewrite (child_of_functional cb Hpop _ _ _ Hpy Hc') in Hpx.
        rewrite <- (child_of_functional cb Hpop _ _ _ Hpx Hx) in Hx0.
        apply (descendant_le cb Hpop) in Hx0. lia.
      + rewrite <- (child_of_functional cb Hpop _ _ _ Hpx Hx) in Hx0.
        rewrite <- (child_of_functional cb Hpop _ _ _ Hpy Hy) in Hy0.
        destruct (siblings_disjoint cb Hpop h c c' p); done. }
  destruct topdown; simpl.
  - rewrite app_nil_r. constructor; [done|].
    apply Forall_forall. intros y Hy p Hp%(child_of_lt cb Hpop) Hpy.
    pose proof (Hpar _ _ Hy Hpy). lia.
  - apply StronglySorted_app_2; [|done|repeat constructor].
    intros x y Hx ->%list_elem_of_singleton p Hpx Hp%(child_of_lt cb Hpop).
    pose proof (Hpar _ _ Hx Hpx). lia.
Qed.

(** [Resource.walk] without [skip_root] is [_walk]. *)
Lemma walk_shape (topdown sort : bool) (fuel : nat) h a r :
  live cb h a r ->
  (length (resources cb) <= fuel)%nat ->
  exists walked rids,
    walk fuel cb a topdown sort false = Ok walked
    /\ _walk fuel cb a topdown sort = Ok walked
    /\ Forall2 names walked rids
    /\ walks fuel cb topdown sort h rids.
Proof.
  intros Hlive Hfuel.
  destruct (_walk_walks topdown sort fuel h a r Hlive) as (walked & rids & Hw & HF & Hws);
    [lia|].
  exists walked, rids. split_and!; try done.
  unfold walk. rewrite (live_deref _ _ _ _ Hlive). cbn.
  destruct (is_root r && bool_decide (children_rids r = [])) eqn:Hleaf; [|by rewrite Hw].
  apply andb_prop in Hleaf as [_ Hnil%bool_decide_eq_true].
  destruct fuel as [|fuel]; [done|].
  cbn [_walk] in Hw. unfold children in Hw.
  rewrite (live_deref _ _ _ _ Hlive) in Hw. cbn in Hw. rewrite Hnil in Hw.
  cbn in Hw. rewrite andb_false_r in Hw. cbn in Hw. injection Hw as <-.
  by destruct topdown.
Qed.

Lemma _walk_ends (topdown sort : bool) (fuel : nat) (a : addr) walked :
  _walk fuel cb a topdown sort = Ok walked ->
  (if topdown then head walked else last walked) = Some a.
Proof.
  destruct fuel as [|fuel]; [done|]. cbn [_walk].
  destruct (children cb a) as [cs|]; [|done]. cbn.
  destruct (if sort && negb (bool_decide (cs = [])) then sort_children cb cs else Ok cs)
    as [cs'|]; [|done]. cbn.
  destruct (mapM _ cs') as [subs|]; [|done]. cbn. intros [= <-].
  destruct topdown; [done|]. cbn. apply last_snoc.
Qed.

Lemma names_rid walked rids i a' r' :
  Forall2 names walked rids -> walked !! i = Some a' -> heap cb !! a' = Some r' ->
  rids !! i = Some (rid r') /\ live cb (rid r') a' r'.
Proof.
  intros HF Hi Hr. destruct (Forall2_lookup_l _ _ _ _ _ HF Hi) as (x & Hx & r0 & Hl).
  assert (r0 = r') as -> by (destruct Hl as (_ & _ & ?); congruence).
  by rewrite (live_rid cb Hpop _ _ _ Hl).
Qed.

(** [Codebase.walk] is the walk of the root. *)
Lemma Codebase_walk_eq (fuel : nat) (topdown sort skip_root : bool) :
  Codebase_walk fuel cb topdown sort skip_root
  = walk fuel cb (root cb) topdown sort skip_root.
Proof.
  destruct (populated_root cb Hpop) as (r & Hlive & Hpid).
  unfold Codebase_walk, walk. rewrite (live_deref _ _ _ _ Hlive). cbn.
  unfold is_root. rewrite Hpid. cbn. by case_bool_decide.
Qed.

(** [Resource.walk] on a resource of a populated tree, in either direction
    and sorted or not, ends and hands out the resource and each of its
    descendants once, and nothing else. *)
Theorem walk_descendants_once (topdown sort : bool) (fuel : nat) h a r :
  live cb h a r ->
  (length (resources cb) <= fuel)%nat ->
  exists walked rids,
    walk fuel cb a topdown sort false = Ok walked
    /\ Forall2 (fun a x => exists r, live cb x a r) walked rids
    /\ NoDup rids
    /\ forall x, x ∈ rids <-> descendant cb h x.
Proof.
  intros Hlive Hfuel.
  destruct (walk_shape topdown sort fuel h a r Hlive Hfuel)
    as (walked & rids & Hw & _ & HF & Hws).
  exists walked, rids. split_and!; [done|done| |].
  - by eapply walks_NoDup.
  - by eapply walks_elem.
Qed.

(** A top-down walk starts with the resource it is called on and hands out
    every resource before its children; a bottom-up walk ends with the
    resource it is called on and hands out every resource after its
    children. *)
Theorem walk_parent_order (topdown sort : bool) (fuel : nat) h a r :
  live cb h a r ->
  (length (resources cb) <= fuel)%nat ->
  exists walked rids,
    walk fuel cb a topdown sort false = Ok walked
    /\ Forall2 (fun a x => exists r, live cb x a r) walked rids
    /\ (if topdown then head walked else last walked) = Some a
    /\ forall p c, descendant cb h p -> child_of cb p c ->
         exists i j, rids !! i = Some p /\ rids !! j = Some c
                     /\ (if topdown then (i < j)%nat else (j < i)%nat).
Proof.
  intros Hlive Hfuel.
  destruct (walk_shape topdown sort fuel h a r Hlive Hfuel)
    as (walked & rids & Hw & Hw' & HF & Hws).
  exists walked, rids. split_and!; [done|done|by eapply _walk_ends|].
  intros p c Hp Hc.
  pose proof (walks_elem _ _ _ _ _ Hws) as Hin.
  pose proof (walks_parent_order _ _ _ _ _ Hws) as Hord.
  assert (Hpin : p ∈ rids) by by apply Hin.
  assert (Hcin : c ∈ rids) by (apply Hin; by eapply rtc_r).
  apply list_elem_of_lookup in Hpin as [i Hi].
  apply list_elem_of_lookup in Hcin as [j Hj].
  exists i, j. split_and!; [done|done|].
  pose proof (child_of_lt cb Hpop _ _ Hc) as Hlt.
  destruct (lt_eq_lt_dec i j) as [[Hij|Hij]|Hij].
  - destruct topdown; [done|].
    destruct (StronglySorted_lookup _ _ _ _ _ _ Hord Hi Hj Hij). done.
  - subst j. rewrite Hi in Hj. injection Hj as ->. lia.
  - destruct topdown; [|done].
    destruct (StronglySorted_lookup _ _ _ _ _ _ Hord Hj Hi Hij). done.
Qed.

(** With [sort], a walk hands out the children of one resource by their
    keys [(is_file, name)]: directories before files, and by name among the
    directories and among the files. *)
Theorem walk_sorted_siblings (topdown : bool) (fuel : nat) h a r :
  live cb h a r ->
  (length (resources cb) <= fuel)%nat ->
  exists walked,
    walk fuel cb a topdown true false = Ok walked
    /\ forall i j a1 a2 r1 r2,
         walked !! i = Some a1 -> walked !! j = Some a2 -> (i < j)%nat ->
         heap cb !! a1 = Some r1 -> heap cb !! a2 = Some r2 ->
         pid r1 = pid r2 ->
         sorter_leb (is_file r1, name r1) (is_file r2, name r2) = true.
Proof.
  intros Hlive Hfuel.
  destruct (walk_shape topdown true fuel h a r Hlive Hfuel)
    as (walked & rids & Hw & _ & HF & Hws).
  exists walked. split; [done|].
  intros i j a1 a2 r1 r2 Hi Hj Hij Hr1 Hr2 Hpid.
  destruct (names_rid _ _ _ _ _ HF Hi Hr1) as [Hx1 Hl1].
  destruct (names_rid _ _ _ _ _ HF Hj Hr2) as [Hx2 Hl2].
  pose proof (walks_NoDup _ _ _ _ _ Hws) as Hnd.
  pose proof (walks_sibling_order _ _ _ _ Hws) as Hord.
  assert (Hne : rid r1 <> rid r2).
  { intros Heq. rewrite <- Heq in Hx2.
    pose proof (NoDup_lookup _ _ _ _ Hnd Hx1 Hx2). lia. }
  destruct (pid r2) as [p|] eqn:Hp2.
  - destruct (populated_parent cb Hpop _ _ _ _ Hl1 Hpid) as (ap & rp & Hp & Hin1).
    destruct (populated_parent cb Hpop _ _ _ _ Hl2 Hp2) as (ap' & rp' & Hp' & Hin2).
    pose proof (StronglySorted_lookup _ _ _ _ _ _ Hord Hx1 Hx2 Hij p) as Hle.
    unfold sorted_by_key, sort_key in Hle.
    rewrite (live_resource_at _ _ _ Hl1), (live_resource_at _ _ _ Hl2) in Hle.
    apply Hle; [by exists ap, rp|by exists ap', rp'].
  - rewrite (populated_root_only cb Hpop _ _ _ Hl1 Hpid) in Hne.
    rewrite (populated_root_only cb Hpop _ _ _ Hl2 Hp2) in Hne. done.
Qed.

(** [Codebase.walk] on a populated tree hands out every resource of the
    list once, and skips the places that hold [None]. *)
Theorem Codebase_walk_every_resource (topdown sort : bool) (fuel : nat) :
  (length (resources cb) <= fuel)%nat ->
  exists walked rids,
    Codebase_walk fuel cb topdown sort false = Ok walked
    /\ Forall2 (fun a x => exists r, live cb x a r) walked rids
    /\ NoDup rids
    /\ forall x, x ∈ rids <-> exists a r, live cb x a r.
Proof.
  intros Hfuel. destruct (populated_root cb Hpop) as (r & Hlive & Hpid).
  destruct (walk_shape topdown sort fuel 0 (root cb) r Hlive Hfuel)
    as (walked & rids & Hw & _ & HF & Hws).
  exists walked, rids. split_and!; [by rewrite Codebase_walk_eq|done| |].
  - by eapply walks_NoDup.
  - intros x. rewrite (walks_elem _ _ _ _ _ Hws). split.
    + intros Hd. by destruct (descendant_live cb Hpop _ _ _ _ Hlive Hd).
    + intros (ax & rx & Hx). by eapply live_descendant_root.
Qed.

End WalkShape.

Section WalkExamples.

Lemma walk_descendants_once_witness :
  exists walked rids,
    walk 4 Sample.tree 1%nat false true false = Ok walked
    /\ Forall2 (fun a x => exists r, live Sample.tree x a r) walked rids
    /\ NoDup rids
    /\ forall x, x ∈ rids <-> descendant Sample.tree 1 x.
Proof.
  apply (walk_descendants_once Sample.tree sample_tree_populated false true 4 1 1%nat
           Sample.b_dir).
  - by apply (live_intro Sample.tree 1).
  - simpl. lia.
Defined.

Lemma walk_parent_order_witness :
  exists walked rids,
    walk 4 Sample.tree 0%nat false false false = Ok walked
    /\ Forall2 (fun a x => exists r, live Sample.tree x a r) walked rids
    /\ last walked = Some 0%nat
    /\ forall p c, descendant Sample.tree 0 p -> child_of Sample.tree p c ->
         exists i j, rids !! i = Some p /\ rids !! j = Some c /\ (j < i)%nat.
Proof.
  apply (walk_parent_order Sample.tree sample_tree_populated false false 4 0 0%nat
           Sample.root_dir).
  - by apply (live_intro Sample.tree 0).
  - simpl. lia.
Defined.

Lemma walk_sorted_siblings_witness :
  exists walked,
    walk 4 Sample.tree 0%nat true true false = Ok walked
    /\ forall i j a1 a2 r1 r2,
         walked !! i = Some a1 -> walked !! j = Some a2 -> (i < j)%nat ->
         heap Sample.tree !! a1 = Some r1 -> heap Sample.tree !! a2 = Some r2 ->
         pid r1 = pid r2 ->
         sorter_leb (is_file r1, name r1) (is_file r2, name r2) = true.
Proof.
  apply (walk_sorted_siblings Sample.tree sample_tree_populated true 4 0 0%nat
           Sample.root_dir).
  - by apply (live_intro Sample.tree 0).
  - simpl. lia.
Defined.

Lemma Codebase_walk_every_resource_witness :
  exists walked rids,
    Codebase_walk 4 Sample.tree true false false = Ok walked
    /\ Forall2 (fun a x => exists r, live Sample.tree x a r) walked rids
    /\ NoDup rids
    /\ forall x, x ∈ rids <-> exists a r, live Sample.tree x a r.
Proof.
  apply (Codebase_walk_every_resource Sample.tree sample_tree_populated true false 4).
  simpl. lia.
Defined.

End WalkExamples.

(** ** Updating the counts *)

Section SameTree.

Lemma with_counts_same (r : Resource) :
  r = with_counts (files_count r) (dirs_count r) (size r) r.
Proof. by destruct r. Qed.

Lemma same_tree_refl cb : same_tree cb cb.
Proof.
  split_and!; try done. apply Forall_Forall2_diag, Forall_forall.
  intros r _. eexists _, _, _. apply with_counts_same.
Qed.

Lemma same_tree_trans cb1 cb2 cb3 :
  same_tree cb1 cb2 -> same_tree cb2 cb3 -> same_tree cb1 cb3.
Proof.
  intros (H1 & H2 & H3 & H4) (H1' & H2' & H3' & H4').
  split_and!; [congruence..|].
  eapply Forall2_trans; [|exact H4|exact H4'].
  intros r1 r2 r3 (f & d & s & ->) (f' & d' & s' & ->). by exists f', d', s'.
Qed.

Lemma same_tree_live cb cb' h a r :
  same_tree cb cb' -> live cb h a r ->
  exists files dirs sz, live cb' h a (with_counts files dirs sz r).
Proof.
  intros (H1 & _ & _ & H4) (Hh & Hs & Hr).
  destruct (Forall2_lookup_l _ _ _ _ _ H4 Hr) as (r' & Hr' & f & d & s & ->).
  exists f, d, s. split_and!; [done|by rewrite H1|done].
Qed.

Lemma same_tree_live_inv cb cb' h a r' :
  same_tree cb cb' -> live cb' h a r' ->
  exists r files dirs sz, live cb h a r /\ r' = with_counts files dirs sz r.
Proof.
  intros (H1 & _ & _ & H4) (Hh & Hs & Hr).
  destruct (Forall2_lookup_r _ _ _ _ _ H4 Hr) as (r & Hr' & f & d & s & ->).
  exists r, f, d, s. split; [|done]. split_and!; [done|by rewrite <- H1|done].
Qed.

Lemma same_tree_child_of cb cb' p c :
  same_tree cb cb' -> child_of cb p c <-> child_of cb' p c.
Proof.
  intros Hsame. split.
  - intros (a & r & Hl & Hc).
    destruct (same_tree_live _ _ _ _ _ Hsame Hl) as (f & d & s & Hl').
    by eexists _, _.
  - intros (a & r' & Hl' & Hc).
    destruct (same_tree_live_inv _ _ _ _ _ Hsame Hl') as (r & f & d & s & Hl & ->).
    by eexists _, _.
Qed.

(** Setting counts leaves a populated tree populated. *)
Lemma same_tree_populated cb cb' : same_tree cb cb' -> populated cb -> populated cb'.
Proof.
  intros Hsame Hpop. pose proof Hsame as (H1 & H2 & H3 & H4). split.
  - intros i s Hs. rewrite H1 in Hs.
    destruct (populated_slot cb Hpop _ _ Hs) as [->|(a & r & -> & Hr & Hrid)]; [by left|].
    right. destruct (Forall2_lookup_l _ _ _ _ _ H4 Hr) as (r' & Hr' & f & d & s & ->).
    by eexists _, _.
  - destruct (populated_root cb Hpop) as (r & Hl & Hpid).
    destruct (same_tree_live _ _ _ _ _ Hsame Hl) as (f & d & s & Hl').
    rewrite H2. by eexists.
  - intros h a r' Hl' Hpid.
    destruct (same_tree_live_inv _ _ _ _ _ Hsame Hl') as (r & f & d & s & Hl & ->).
    by eapply (populated_root_only cb Hpop).
  - intros h a r' c Hl' Hc.
    destruct (same_tree_live_inv _ _ _ _ _ Hsame Hl') as (r & f & d & s & Hl & ->).
    destruct (populated_children cb Hpop _ _ _ _ Hl Hc) as (Hlt & ac & rc & Hlc & Hpid).
    split; [done|].
    destruct (same_tree_live _ _ _ _ _ Hsame Hlc) as (f' & d' & s' & Hlc').
    by eexists _, _.
  - intros h a r' Hl'.
    destruct (same_tree_live_inv _ _ _ _ _ Hsame Hl') as (r & f & d & s & Hl & ->).
    cbn. by eapply (populated_NoDup cb Hpop).
  - intros h a r' p Hl' Hpid.
    destruct (same_tree_live_inv _ _ _ _ _ Hsame Hl') as (r & f & d & s & Hl & ->).
    destruct (populated_parent cb Hpop _ _ _ _ Hl Hpid) as (ap & rp & Hlp & Hin).
    destruct (same_tree_live _ _ _ _ _ Hsame Hlp) as (f' & d' & s' & Hlp').
    by eexists _, _.
Qed.

Lemma set_counts_same_tree a files dirs sz cb : same_tree cb (set_counts a files dirs sz cb).
Proof.
  split_and!; try done. cbn.
  apply Forall2_same_length_lookup. split; [by rewrite length_alter|].
  intros i r r' Hr Hr'. destruct (decide (i = a)) as [->|Hne].
  - rewrite list_lookup_alter_eq, Hr in Hr'. cbn in Hr'. injection Hr' as <-.
    by eexists _, _, _.
  - rewrite list_lookup_alter_ne, Hr in Hr' by done. injection Hr' as <-.
    eexists _, _, _. apply with_counts_same.
Qed.

End SameTree.

Section UpdateCounts.

Lemma total_cons (w : Z -> Z) x l : total w (x :: l) = w x + total w l.
Proof. done. Qed.

Lemma total_ext (w w' : Z -> Z) l :
  (forall x, x ∈ l -> w x = w' x) -> total w l = total w' l.
Proof.
  induction l as [|x l IH]; [done|]. intros H. rewrite !total_cons.
  rewrite (H x) by left. rewrite IH; [done|]. intros y Hy. apply H. by right.
Qed.

Lemma live_addr_inj cb x a r x' r' :
  populated cb -> live cb x a r -> live cb x' a r' -> x = x'.
Proof.
  intros Hpop H H'.
  rewrite <- (live_rid cb Hpop _ _ _ H), <- (live_rid cb Hpop _ _ _ H').
  destruct H as (_ & _ & Hr), H' as (_ & _ & Hr'). congruence.
Qed.

(** The loop over the children, in closed form. *)
Lemma add_children_counts_sum cb kids addrs acc :
  Forall2 (fun c ac => exists rc, live cb c ac rc) kids addrs ->
  add_children_counts cb (SResource <$> addrs) acc
  = Ok (acc.1.1 + total (fun c => attr_at cb files_count c + file_weight cb c) kids,
        acc.1.2 + total (fun c => attr_at cb dirs_count c + dir_weight cb c) kids,
        acc.2 + total (attr_at cb size) kids).
Proof.
  intros HF. revert acc.
  induction HF as [|c ac kids addrs [rc Hc] _ IH]; intros [[f d] s].
  - cbn. unfold total. cbn. repeat f_equal; lia.
  - cbn [fmap list_fmap add_children_counts]. unfold attr_of. cbn.
    rewrite (live_deref _ _ _ _ Hc). cbn.
    change (list_fmap addr slot SResource addrs) with (SResource <$> addrs).
    rewrite IH, !total_cons. unfold attr_at, file_weight, dir_weight.
    rewrite (live_resource_at _ _ _ _ Hc). cbn.
    destruct (is_file rc); cbn [fst snd]; f_equal; f_equal; [f_equal| |f_equal|]; lia.
Qed.

Lemma _children_counts_sum cb h a r :
  populated cb -> live cb h a r ->
  _children_counts cb a
  = Ok (total (fun c => attr_at cb files_count c + file_weight cb c) (children_rids r),
        total (fun c => attr_at cb dirs_count c + dir_weight cb c) (children_rids r),
        total (attr_at cb size) (children_rids r)).
Proof.
  intros Hpop Hlive. unfold _children_counts. rewrite (live_deref _ _ _ _ Hlive). cbn.
  case_bool_decide as Hnil; [by rewrite Hnil|].
  destruct (children_live cb Hpop _ _ _ Hlive) as (addrs & -> & HF). cbn.
  by rewrite (add_children_counts_sum _ _ _ _ HF).
Qed.

Lemma current_at_sum cb h a r :
  populated cb -> live cb h a r ->
  current_at cb h
  <-> files_count r
      = total (fun c => attr_at cb files_count c + file_weight cb c) (children_rids r)
      /\ dirs_count r
         = total (fun c => attr_at cb dirs_count c + dir_weight cb c) (children_rids r)
      /\ (is_file r = false -> size r = total (attr_at cb size) (children_rids r)).
Proof.
  intros Hpop Hlive. split.
  - intros Hcur. destruct (Hcur _ _ Hlive) as (sz & Hc & Hsz).
    rewrite (_children_counts_sum _ _ _ _ Hpop Hlive) in Hc.
    injection Hc as Hf Hd Hs. split_and!; [done|done|]. intros ?. rewrite Hs. auto.
  - intros (Hf & Hd & Hs) a' r' Hlive'.
    destruct (live_functional _ _ _ _ _ _ Hlive Hlive') as [<- <-].
    eexists. split; [|exact Hs].
    rewrite (_children_counts_sum _ _ _ _ Hpop Hlive). by rewrite <- Hf, <- Hd.
Qed.

Lemma _update_children_counts_sum cb h a r :
  populated cb -> live cb h a r ->
  _update_children_counts a cb
  = (Ok tt,
     set_counts a
       (total (fun c => attr_at cb files_count c + file_weight cb c) (children_rids r))
       (total (fun c => attr_at cb dirs_count c + dir_weight cb c) (children_rids r))
       (total (attr_at cb size) (children_rids r)) cb).
Proof.
  intros Hpop Hlive. unfold _update_children_counts. rewrite M_bind_eq.
  unfold reading. by rewrite (_children_counts_sum _ _ _ _ Hpop Hlive).
Qed.

Lemma set_counts_resource_at_eq cb h a r files dirs sz :
  live cb h a r ->
  resource_at (set_counts a files dirs sz cb) h
  = Some (with_counts files dirs (if is_file r then size r else sz) r).
Proof.
  intros (Hh & Hs & Hr). unfold resource_at. cbn.
  rewrite (proj2 (Z.ltb_ge h 0)) by lia. rewrite Hs.
  by rewrite list_lookup_alter_eq, Hr.
Qed.

Lemma set_counts_resource_at_ne cb h a r files dirs sz z :
  populated cb -> live cb h a r -> z <> h ->
  resource_at (set_counts a files dirs sz cb) z = resource_at cb z.
Proof.
  intros Hpop Hlive Hne. unfold resource_at. cbn.
  destruct (Z.ltb_spec z 0); [done|].
  destruct (resources cb !! Z.to_nat z) as [[|az|]|] eqn:Hs; try done.
  destruct (decide (az = a)) as [->|Hne']; [|by rewrite list_lookup_alter_ne].
  destruct Hlive as (Hh & Hs' & Hr).
  destruct (populated_slot cb Hpop _ _ Hs) as [?|(a1 & r1 & [= <-] & Hr1 & Hrid1)]; [done|].
  destruct (populated_slot cb Hpop _ _ Hs') as [?|(a2 & r2 & [= <-] & Hr2 & Hrid2)]; [done|].
  rewrite Hr1 in Hr2. injection Hr2 as <-. lia.
Qed.

Lemma set_counts_weight cb h a r files dirs sz z :
  populated cb -> live cb h a r ->
  file_weight (set_counts a files dirs sz cb) z = file_weight cb z
  /\ dir_weight (set_counts a files dirs sz cb) z = dir_weight cb z.
Proof.
  intros Hpop Hlive. unfold file_weight, dir_weight.
  destruct (decide (z = h)) as [->|Hne].
  - by rewrite (set_counts_resource_at_eq _ _ _ _ _ _ _ Hlive),
      (live_resource_at _ _ _ _ Hlive).
  - by rewrite (set_counts_resource_at_ne _ _ _ _ _ _ _ _ Hpop Hlive Hne).
Qed.

(** Setting the counts of [h] leaves up to date whatever was and is not the
    parent of [h]. *)
Lemma set_counts_frame cb h a r files dirs sz z :
  populated cb -> live cb h a r -> z <> h -> ~ child_of cb z h ->
  current_at cb z -> current_at (set_counts a files dirs sz cb) z.
Proof.
  intros Hpop Hlive Hne Hnc Hcur az rz' Hz'.
  pose proof (set_counts_same_tree a files dirs sz cb) as Hsame.
  pose proof (same_tree_populated _ _ Hsame Hpop) as Hpop'.
  apply (current_at_sum _ _ _ _ Hpop' Hz'); [|exact Hz'].
  pose proof (live_resource_at _ _ _ _ Hz') as Hat.
  rewrite (set_counts_resource_at_ne _ _ _ _ _ _ _ _ Hpop Hlive Hne) in Hat.
  apply resource_at_live in Hat as (az' & Hz).
  apply (current_at_sum _ _ _ _ Hpop Hz) in Hcur as (Hf & Hd & Hs).
  assert (Hext : forall (f : Resource -> Z) c, c ∈ children_rids rz' ->
            attr_at (set_counts a files dirs sz cb) f c = attr_at cb f c).
  { intros f c Hc. unfold attr_at.
    rewrite (set_counts_resource_at_ne _ _ _ _ _ _ _ _ Hpop Hlive); [done|].
    intros ->. apply Hnc. by exists az', rz'. }
  split_and!.
  - rewrite Hf. apply total_ext. intros c Hc. rewrite Hext by done.
    by rewrite (proj1 (set_counts_weight _ _ _ _ files dirs sz c Hpop Hlive)).
  - rewrite Hd. apply total_ext. intros c Hc. rewrite Hext by done.
    by rewrite (proj2 (set_counts_weight _ _ _ _ files dirs sz c Hpop Hlive)).
  - intros Hdir. rewrite (Hs Hdir). apply total_ext. intros c Hc. by rewrite Hext.
Qed.

(** Setting the counts of [h] to what its children give brings [h] up to
    date. *)
Lemma set_counts_current cb h a r :
  populated cb -> live cb h a r ->
  current_at
    (set_counts a
       (total (fun c => attr_at cb files_count c + file_weight cb c) (children_rids r))
       (total (fun c => attr_at cb dirs_count c + dir_weight cb c) (children_rids r))
       (total (attr_at cb size) (children_rids r)) cb) h.
Proof.
  intros Hpop Hlive.
  set (files := total _ _). set (dirs := total _ _). set (sz := total _ _).
  pose proof (set_counts_same_tree a files dirs sz cb) as Hsame.
  pose proof (same_tree_populated _ _ Hsame Hpop) as Hpop'.
  intros a' r' Hl'. apply (current_at_sum _ _ _ _ Hpop' Hl'); [|exact Hl'].
  pose proof (live_resource_at _ _ _ _ Hl') as Hat.
  rewrite (set_counts_resource_at_eq _ _ _ _ _ _ _ Hlive) in Hat. injection Hat as <-.
  assert (Hext : forall (f : Resource -> Z) c, c ∈ children_rids r ->
            attr_at (set_counts a files dirs sz cb) f c = attr_at cb f c).
  { intros f c Hc. unfold attr_at.
    rewrite (set_counts_resource_at_ne _ _ _ _ _ _ _ _ Hpop Hlive); [done|].
    intros ->. destruct (populated_children cb Hpop _ _ _ _ Hlive Hc). lia. }
  cbn. split_and!.
  - apply total_ext. intros c Hc. rewrite Hext by done.
    by rewrite (proj1 (set_counts_weight _ _ _ _ files dirs sz c Hpop Hlive)).
  - apply total_ext. intros c Hc. rewrite Hext by done.
    by rewrite (proj2 (set_counts_weight _ _ _ _ files dirs sz c Hpop Hlive)).
  - intros ->. apply total_ext. intros c Hc. by rewrite Hext.
Qed.

Lemma StronglySorted_weaken {A : Type} (R R' : relation A) (l : list A) :
  (forall x y, R x y -> R' x y) -> StronglySorted R l -> StronglySorted R' l.
Proof.
  intros HR. induction 1 as [|x l _ IH Hx]; constructor; [done|].
  eapply Forall_impl; [exact Hx|]. auto.
Qed.

(** Updating resources one after the other, none of them before one of its
    children, brings each of them up to date. *)
Lemma update_each_spec walked : forall rids cb,
  populated cb ->
  Forall2 (fun a x => exists r, live cb x a r) walked rids ->
  NoDup rids ->
  StronglySorted (fun x y => ~ child_of cb x y) rids ->
  exists cb',
    update_each walked cb = (Ok tt, cb')
    /\ same_tree cb cb'
    /\ (forall x, x ∈ rids -> current_at cb' x)
    /\ (forall z, z ∉ rids -> (forall y, y ∈ rids -> ~ child_of cb z y) ->
        current_at cb z -> current_at cb' z).
Proof.
  induction walked as [|a walked IH]; intros rids cb Hpop HF Hnd Hord.
  - apply Forall2_nil_inv_l in HF as ->. exists cb.
    split_and!; [done|apply same_tree_refl| |done]. by intros x ?%elem_of_nil.
  - apply Forall2_cons_inv_l in HF as (x & rids' & [r Hlive] & HF & ->).
    apply NoDup_cons in Hnd as [Hx Hnd].
    apply StronglySorted_cons in Hord as [Hxy Hord].
    rewrite Forall_forall in Hxy.
    pose proof (_update_children_counts_sum _ _ _ _ Hpop Hlive) as Hstep.
    pose proof (set_counts_current _ _ _ _ Hpop Hlive) as Hcur.
    revert Hstep Hcur.
    set (files := total _ _). set (dirs := total _ _). set (sz := total _ _).
    intros Hstep Hcur.
    pose proof (set_counts_same_tree a files dirs sz cb) as Hsame1.
    pose proof (same_tree_populated _ _ Hsame1 Hpop) as Hpop1.
    destruct (IH rids' (set_counts a files dirs sz cb) Hpop1)
      as (cb' & Hrun & Hsame & Hin & Hframe).
    + eapply Forall2_impl; [exact HF|]. intros a' x' [r' Hl'].
      destruct (same_tree_live _ _ _ _ _ Hsame1 Hl') as (? & ? & ? & ?). eauto.
    + done.
    + eapply StronglySorted_weaken; [|exact Hord].
      intros y z Hyz Hc. by apply Hyz, (same_tree_child_of _ _ _ _ Hsame1).
    + exists cb'. split_and!.
      * cbn [update_each]. by rewrite M_bind_eq, Hstep.
      * by eapply same_tree_trans.
      * intros y [->|Hy]%elem_of_cons; [|by apply Hin].
        apply Hframe; [done| |done].
        intros y Hy Hc%(same_tree_child_of _ _ _ _ Hsame1). by apply (Hxy y).
      * intros z Hz Hnc Hcurz.
        apply not_elem_of_cons in Hz as [Hzx Hz].
        apply Hframe; [done| |].
        -- intros y Hy Hc%(same_tree_child_of _ _ _ _ Hsame1).
           apply (Hnc y); [by right|done].
        -- eapply set_counts_frame; [done|done|done| |done].
           apply Hnc. by left.
Qed.

(** What [update_counts] does to a populated tree. *)
Lemma update_counts_spec cb (fuel : nat) :
  populated cb ->
  (length (resources cb) <= fuel)%nat ->
  exists cb',
    update_counts fuel cb = (Ok tt, cb')
    /\ same_tree cb cb' /\ populated cb' /\ aggregates_current cb'.
Proof.
  intros Hpop Hfuel. destruct (populated_root cb Hpop) as (r & Hlive & Hpid).
  destruct (walk_shape cb Hpop false false fuel 0 (root cb) r Hlive Hfuel)
    as (walked & rids & Hw & _ & HF & Hws).
  destruct (update_each_spec walked rids cb Hpop HF) as (cb' & Hrun & Hsame & Hin & _).
  { by eapply walks_NoDup. }
  { by apply (walks_parent_order cb Hpop _ false false _ _ Hws). }
  exists cb'. split_and!; [|done|by eapply same_tree_populated|].
  - unfold update_counts. rewrite M_bind_eq. unfold reading.
    by rewrite (Codebase_walk_eq cb Hpop), Hw.
  - intros h a r' Hl'.
    destruct (same_tree_live_inv _ _ _ _ _ Hsame Hl') as (r0 & f & d & s & Hl & ->).
    apply (Hin h); [|done].
    apply (walks_elem cb _ _ _ _ _ Hws). by eapply live_descendant_root.
Qed.

(** [update_counts] on a populated tree ends, changes nothing but the counts
    and the sizes held by the resources, and leaves every resource of the list
    with the counts of its children, and every directory with their size. *)
Theorem update_counts_makes_current cb (fuel : nat) :
  populated cb ->
  (length (resources cb) <= fuel)%nat ->
  exists cb',
    update_counts fuel cb = (Ok tt, cb')
    /\ same_tree cb cb' /\ aggregates_current cb'.
Proof.
  intros Hpop Hfuel.
  destruct (update_counts_spec cb fuel Hpop Hfuel) as (cb' & ? & ? & ? & ?). eauto.
Qed.

(** A second [update_counts] changes nothing. *)
Theorem update_counts_idempotent cb (fuel : nat) :
  populated cb ->
  (length (resources cb) <= fuel)%nat ->
  exists cb',
    update_counts fuel cb = (Ok tt, cb')
    /\ update_counts fuel cb' = (Ok tt, cb').
Proof.
  intros Hpop Hfuel.
  destruct (update_counts_spec cb fuel Hpop Hfuel)
    as (cb' & Hrun & (Hres & _) & Hpop' & Hcur).
  exists cb'. split; [done|].
  apply update_counts_current; [done|done|]. by rewrite Hres.
Qed.

Lemma total_app (w : Z -> Z) l k : total w (l ++ k) = total w l + total w k.
Proof.
  induction l as [|x l IH]; [done|].
  cbn [app]. rewrite !total_cons, IH. lia.
Qed.

Lemma total_Permutation (w : Z -> Z) l k : l ≡ₚ k -> total w l = total w k.
Proof.
  induction 1 as [|x l k _ IH|x y l|l1 l2 l3 _ IH1 _ IH2];
    rewrite ?total_cons; [done|by rewrite IH|lia|congruence].
Qed.

Lemma total_concat (w g : Z -> Z) kids subs :
  Forall2 (fun c s => total w s = g c) kids subs ->
  total w (concat subs) = total g kids.
Proof.
  induction 1 as [|c s kids subs Hc _ IH]; [done|].
  cbn [concat]. by rewrite total_app, total_cons, Hc, IH.
Qed.

Lemma total_filter (w : Z -> Z) (P : Z -> bool) l :
  (forall x, x ∈ l -> P x = false -> w x = 0) ->
  total w (List.filter P l) = total w l.
Proof.
  induction l as [|x l IH]; [done|]. intros H. cbn [List.filter].
  assert (IH' : total w (List.filter P l) = total w l).
  { apply IH. intros y Hy. apply H. by right. }
  destruct (P x) eqn:HP; rewrite !total_cons, ?IH'; [done|].
  rewrite (H x) by (done || by left). lia.
Qed.

(** On a tree whose aggregates are up to date, the counts a resource holds
    are the numbers of files and of directories a walk hands out from its
    children. *)
Lemma walks_total cb n topdown sort :
  populated cb -> aggregates_current cb ->
  forall h a r rids,
    walks n cb topdown sort h rids -> live cb h a r ->
    total (file_weight cb) rids = files_count r + file_weight cb h
    /\ total (dir_weight cb) rids = dirs_count r + dir_weight cb h.
Proof.
  intros Hpop Hcur. induction n as [|n IH]; intros h a r rids; [done|].
  intros (a' & r' & kids & subs & Hlive0 & Hperm & _ & HF & ->) Hlive.
  destruct (live_functional _ _ _ _ _ _ Hlive Hlive0) as [<- <-].
  assert (Hcurh : current_at cb h) by (intros ? ?; apply Hcur).
  apply (current_at_sum _ _ _ _ Hpop Hlive) in Hcurh as (Hf & Hd & _).
  assert (Hsub : Forall2 (fun c s =>
            total (file_weight cb) s = attr_at cb files_count c + file_weight cb c
            /\ total (dir_weight cb) s = attr_at cb dirs_count c + dir_weight cb c)
            kids subs).
  { apply Forall2_same_length_lookup. split; [by eapply Forall2_length|].
    intros i c s Hc Hs.
    pose proof (Forall2_lookup_lr _ _ _ _ _ _ HF Hc Hs) as Hw.
    assert (Hin : c ∈ children_rids r).
    { rewrite <- Hperm. by eapply list_elem_of_lookup_2. }
    destruct (populated_children cb Hpop _ _ _ _ Hlive Hin) as (_ & ac & rc & Hlc & _).
    unfold attr_at. rewrite (live_resource_at _ _ _ _ Hlc). cbn.
    by eapply IH. }
  assert (Hfiles : total (file_weight cb) (concat subs) = files_count r).
  { rewrite Hf, <- (total_Permutation _ _ _ Hperm). apply total_concat.
    eapply Forall2_impl; [exact Hsub|]. by intros c s [? _]. }
  assert (Hdirs : total (dir_weight cb) (concat subs) = dirs_count r).
  { rewrite Hd, <- (total_Permutation _ _ _ Hperm). apply total_concat.
    eapply Forall2_impl; [exact Hsub|]. by intros c s [_ ?]. }
  destruct topdown; cbn [app]; rewrite ?app_nil_r, ?total_app, ?total_cons,
    Hfiles, Hdirs; unfold total; cbn; lia.
Qed.

(** The loop of [resource_counts] over the list of a populated tree, in
    closed form. *)
Lemma count_resources_sum cb :
  populated cb ->
  forall l (k : nat) acc,
    drop k (resources cb) = l ->
    count_resources cb l acc
    = Ok (acc.1 + total (file_weight cb) (Z.of_nat <$> seq k (length l)),
          acc.2 + total (dir_weight cb) (Z.of_nat <$> seq k (length l))).
Proof.
  intros Hpop. induction l as [|s l IH]; intros k [f d] Hdrop.
  - cbn. unfold total. cbn. f_equal. f_equal; lia.
  - assert (Hs : resources cb !! k = Some s).
    { rewrite <- (Nat.add_0_r k), <- lookup_drop, Hdrop. done. }
    assert (Hl : drop (S k) (resources cb) = l).
    { replace (S k) with (k + 1)%nat by lia. by rewrite <- drop_drop, Hdrop. }
    cbn [length seq fmap list_fmap].
    change (list_fmap nat Z Z.of_nat (seq (S k) (length l)))
      with (Z.of_nat <$> seq (S k) (length l)).
    rewrite !total_cons.
    assert (Hat : resource_at cb (Z.of_nat k)
                  = match s with SResource a => heap cb !! a | _ => None end).
    { unfold resource_at. rewrite (proj2 (Z.ltb_ge _ 0)) by lia.
      by rewrite Nat2Z.id, Hs. }
    unfold file_weight at 1, dir_weight at 1. rewrite Hat.
    destruct (populated_slot cb Hpop _ _ Hs) as [->|(a & r & -> & Hr & _)].
    + cbn [count_resources]. rewrite (IH (S k) _ Hl). reflexivity.
    + cbn [count_resources]. unfold attr_of, deref. cbn. rewrite Hr. cbn.
      rewrite (IH (S k) _ Hl).
      destruct (is_file r); cbn [fst snd]; f_equal; f_equal; lia.
Qed.

Lemma resource_at_None cb h :
  resource_at cb h = None -> file_weight cb h = 0 /\ dir_weight cb h = 0.
Proof. unfold file_weight, dir_weight. by intros ->. Qed.

Lemma elem_of_live_handles cb x :
  x ∈ live_handles cb <-> exists a r, live cb x a r.
Proof.
  unfold live_handles. rewrite list_elem_of_In, filter_In, <- list_elem_of_In.
  rewrite bool_decide_eq_true. split.
  - intros [_ [r Hr]]. apply resource_at_live in Hr as [a Hl]. eauto.
  - intros (a & r & Hl). split; [|by rewrite (live_resource_at _ _ _ _ Hl)].
    apply list_elem_of_fmap. exists (Z.to_nat x).
    pose proof (live_lt _ _ _ _ Hl). destruct Hl as (? & _).
    split; [lia|]. apply elem_of_seq. lia.
Qed.

Lemma NoDup_live_handles cb : NoDup (live_handles cb).
Proof.
  unfold live_handles. apply NoDup_ListNoDup, List.NoDup_filter, NoDup_ListNoDup.
  apply NoDup_fmap; [apply _|apply NoDup_seq].
Qed.

(** [resource_counts] on a populated tree counts the resources of the list. *)
Lemma resource_counts_sum cb :
  populated cb ->
  resource_counts cb None
  = Ok (total (file_weight cb) (live_handles cb),
        total (dir_weight cb) (live_handles cb)).
Proof.
  intros Hpop. unfold resource_counts.
  rewrite (count_resources_sum cb Hpop (resources cb) 0 (0, 0) eq_refl).
  cbn [fst snd]. rewrite !Z.add_0_l.
  unfold live_handles. rewrite !total_filter; [done| |].
  - intros x _ Hx%bool_decide_eq_false. apply resource_at_None.
    destruct (resource_at cb x) eqn:E; [|done]. destruct Hx. by eexists.
  - intros x _ Hx%bool_decide_eq_false. apply resource_at_None.
    destruct (resource_at cb x) eqn:E; [|done]. destruct Hx. by eexists.
Qed.

Lemma count_resources_same_tree cb cb' l acc :
  same_tree cb cb' -> count_resources cb' l acc = count_resources cb l acc.
Proof.
  intros (_ & _ & _ & Hheap). revert acc.
  induction l as [|s l IH]; intros acc; [done|].
  destruct s as [|a|n]; cbn [count_resources]; [apply IH| |done].
  unfold attr_of, deref. cbn.
  destruct (heap cb !! a) as [r|] eqn:Hr.
  - destruct (Forall2_lookup_l _ _ _ _ _ Hheap Hr) as (r' & -> & f & d & s & ->).
    cbn. apply IH.
  - apply lookup_ge_None in Hr. rewrite (Forall2_length _ _ _ Hheap) in Hr.
    apply lookup_ge_None in Hr. by rewrite Hr.
Qed.

Lemma total_weights cb rids rs :
  Forall2 (fun x r => resource_at cb x = Some r) rids rs ->
  total (file_weight cb) rids = Z.of_nat (length (List.filter is_file rs))
  /\ total (dir_weight cb) rids
     = Z.of_nat (length (List.filter (fun r => negb (is_file r)) rs)).
Proof.
  induction 1 as [|x r rids rs Hx _ [IHf IHd]]; [done|].
  rewrite !total_cons, IHf, IHd. unfold file_weight, dir_weight. rewrite Hx.
  cbn [List.filter]. destruct (is_file r); cbn [negb length]; lia.
Qed.

(** On a populated tree [counts] with [update], without [skip_root], gives
    the numbers of files and of directories that [resource_counts] gives. *)
Theorem counts_update_is_resource_counts cb (fuel : nat) (r : Resource) :
  populated cb ->
  (length (resources cb) <= fuel)%nat ->
  heap cb !! root cb = Some r ->
  is_file r = codebase_is_file cb ->
  exists files dirs sz cb',
    counts fuel true false cb = (Ok (files, dirs, sz), cb')
    /\ resource_counts cb None = Ok (files, dirs).
Proof.
  intros Hpop Hfuel Hr Hfile.
  destruct (update_counts_spec cb fuel Hpop Hfuel)
    as (cb' & Hrun & Hsame & Hpop' & Hcur).
  destruct (populated_root cb' Hpop') as (r' & Hlive' & _).
  assert (Hfile' : is_file r' = codebase_is_file cb').
  { destruct (same_tree_live_inv _ _ _ _ _ Hsame Hlive') as (r0 & f & d & s & Hl & ->).
    destruct Hsame as (_ & Hroot & -> & _). rewrite Hroot in Hl.
    destruct Hl as (_ & _ & Hr0). cbn. congruence. }
  assert (Hfuel' : (length (resources cb') <= fuel)%nat).
  { destruct Hsame as (-> & _). done. }
  destruct (walk_shape cb' Hpop' true false fuel 0 (root cb') r' Hlive' Hfuel')
    as (walked & rids & _ & _ & _ & Hws).
  destruct (walks_total cb' _ _ _ Hpop' Hcur _ _ _ _ Hws Hlive') as [Hf Hd].
  assert (Hperm : rids ≡ₚ live_handles cb').
  { apply NoDup_Permutation;
      [by eapply walks_NoDup|apply NoDup_live_handles|].
    intros x. rewrite (walks_elem cb' _ _ _ _ _ Hws), elem_of_live_handles. split.
    - intros Hd'. by destruct (descendant_live cb' Hpop' _ _ _ _ Hlive' Hd').
    - intros (ax & rx & Hx). by eapply live_descendant_root. }
  rewrite (total_Permutation _ _ _ Hperm) in Hf.
  rewrite (total_Permutation _ _ _ Hperm) in Hd.
  unfold file_weight at 2 in Hf. unfold dir_weight at 2 in Hd.
  rewrite (live_resource_at _ _ _ _ Hlive') in Hf, Hd.
  exists (total (file_weight cb') (live_handles cb')),
         (total (dir_weight cb') (live_handles cb')), (size r'), cb'.
  split.
  - unfold counts. rewrite M_bind_eq, Hrun. unfold reading.
    rewrite (live_deref _ _ _ _ Hlive'). cbn. rewrite <- Hfile', Hf, Hd.
    destruct (is_file r'); rewrite ?Z.add_0_r; reflexivity.
  - rewrite <- (resource_counts_sum cb' Hpop'). unfold resource_counts.
    destruct Hsame as (Hres & ?). rewrite Hres. symmetry.
    apply count_resources_same_tree. by split.
Qed.

(** On a populated tree whose aggregates are up to date, [files_count] and
    [dirs_count] of a resource are the numbers of files and of directories
    among its descendants, the ones a walk from it hands out after it. *)
Theorem aggregates_count_descendants cb (fuel : nat) (sort : bool) h a r :
  populated cb ->
  aggregates_current cb ->
  live cb h a r ->
  (length (resources cb) <= fuel)%nat ->
  exists rest rs,
    walk fuel cb a true sort false = Ok (a :: rest)
    /\ Forall2 (fun a' r' => heap cb !! a' = Some r') rest rs
    /\ files_count r = Z.of_nat (length (List.filter is_file rs))
    /\ dirs_count r = Z.of_nat (length (List.filter (fun r' => negb (is_file r')) rs)).
Proof.
  intros Hpop Hcur Hlive Hfuel.
  destruct (walk_shape cb Hpop true sort fuel h a r Hlive Hfuel)
    as (walked & rids & Hw & Hw' & HF & Hws).
  destruct (walks_total cb _ _ _ Hpop Hcur _ _ _ _ Hws Hlive) as [Hf Hd].
  pose proof (_walk_ends cb _ _ _ _ _ Hw') as Hhead.
  destruct walked as [|a0 rest]; [done|]. injection Hhead as ->.
  apply Forall2_cons_inv_l in HF as (h0 & rids' & [r0 Hl0] & HF & ->).
  assert (h0 = h) as -> by exact (live_addr_inj cb h0 a r0 h r Hpop Hl0 Hlive).
  assert (Hrs : exists rs, Forall2 (fun a' r' => heap cb !! a' = Some r') rest rs
                           /\ Forall2 (fun x r' => resource_at cb x = Some r') rids' rs).
  { clear -HF. induction HF as [|a' x rest rids' [r' Hl'] _ (rs & H1 & H2)].
    - exists []. split; constructor.
    - exists (r' :: rs). split; constructor; try done.
      + by destruct Hl' as (_ & _ & ?).
      + by eapply live_resource_at. }
  destruct Hrs as (rs & Hheap & Hat).
  destruct (total_weights _ _ _ Hat) as [Hfw Hdw].
  rewrite total_cons, Hfw in Hf. rewrite total_cons, Hdw in Hd.
  exists rest, rs. split_and!; [done|done|lia|lia].
Qed.

End UpdateCounts.

Section UpdateCountsExamples.

Lemma stale_tree_populated : populated stale_tree.
Proof.
  apply (same_tree_populated Sample.tree); [|apply sample_tree_populated].
  split_and!; try done. cbn.
  repeat (constructor; [by eexists _, _, _|]). constructor.
Qed.

Lemma update_counts_makes_current_witness :
  exists cb',
    update_counts 4 stale_tree = (Ok tt, cb')
    /\ same_tree stale_tree cb' /\ aggregates_current cb'.
Proof.
  apply (update_counts_makes_current stale_tree 4 stale_tree_populated).
  simpl. lia.
Defined.

Lemma update_counts_idempotent_witness :
  exists cb',
    update_counts 4 stale_tree = (Ok tt, cb')
    /\ update_counts 4 cb' = (Ok tt, cb').
Proof.
  apply (update_counts_idempotent stale_tree 4 stale_tree_populated).
  simpl. lia.
Defined.

Lemma counts_update_is_resource_counts_witness :
  exists files dirs sz cb',
    counts 4 true false stale_tree = (Ok (files, dirs, sz), cb')
    /\ resource_counts stale_tree None = Ok (files, dirs).
Proof.
  apply (counts_update_is_resource_counts stale_tree 4
           (with_counts 0 0 0 Sample.root_dir) stale_tree_populated).
  - simpl. lia.
  - reflexivity.
  - reflexivity.
Defined.

Lemma aggregates_count_descendants_witness :
  exists rest rs,
    walk 4 Sample.tree 0%nat true true false = Ok (0%nat :: rest)
    /\ Forall2 (fun a' r' => heap Sample.tree !! a' = Some r') rest rs
    /\ files_count Sample.root_dir = Z.of_nat (length (List.filter is_file rs))
    /\ dirs_count Sample.root_dir
       = Z.of_nat (length (List.filter (fun r' => negb (is_file r')) rs)).
Proof.
  apply (aggregates_count_descendants Sample.tree 4 true 0 0%nat Sample.root_dir
           sample_tree_populated sample_tree_current).
  - by apply (live_intro Sample.tree 0).
  - simpl. lia.
Defined.

End UpdateCountsExamples.

(** ** Populating *)

Section NoHoles.

Lemma no_holes_lookup (c : Codebase) (i : nat) :
  no_holes c ->
  resources c !! i = if decide (i < length (heap c))%nat then Some (SResource i) else None.
Proof.
  intros ->. rewrite list_lookup_fmap. case_decide as Hi.
  - by rewrite lookup_seq_lt.
  - rewrite lookup_seq_ge by lia. done.
Qed.

Lemma live_no_holes (c : Codebase) h a r :
  no_holes c -> live c h a r <-> 0 <= h /\ a = Z.to_nat h /\ heap c !! a = Some r.
Proof.
  intros Hc. unfold live. rewrite (no_holes_lookup _ _ Hc). split.
  - intros (Hh & Hs & Hr). case_decide; [|done]. injection Hs as <-. done.
  - intros (Hh & -> & Hr). split_and!; [done| |done].
    apply lookup_lt_Some in Hr. by rewrite decide_True.
Qed.

End NoHoles.

Section AddKeepsShape.

Context (cb : Codebase) (p : addr) (rp res : Resource).
Hypothesis Hpop : populated cb.
Hypothesis Hfull : no_holes cb.
Hypothesis Hp : heap cb !! p = Some rp.
Hypothesis Hrid : rid res = Z.of_nat (length (heap cb)).
Hypothesis Hpid : pid res = Some (rid rp).
Hypothesis Hkids : children_rids res = [].

#[local] Abbreviation nb := (length (heap cb)).
#[local] Abbreviation cb' := (after_add p res cb).

Lemma after_add_no_holes : no_holes cb'.
Proof.
  unfold no_holes. cbn. rewrite length_alter, length_app. cbn.
  rewrite Nat.add_1_r, seq_S, fmap_app. cbn. by rewrite <- Hfull.
Qed.

Lemma p_lt : (p < nb)%nat.
Proof. by eapply lookup_lt_Some. Qed.

Lemma rid_rp : rid rp = Z.of_nat p.
Proof.
  pose proof p_lt as Hlt.
  pose proof (no_holes_lookup cb p Hfull) as Hs. rewrite decide_True in Hs by done.
  destruct (populated_slot cb Hpop _ _ Hs) as [?|(a & r & [= <-] & Hr & ?)]; [done|].
  congruence.
Qed.

(** The objects after the addition. *)
Lemma after_add_heap a r' :
  heap cb' !! a = Some r' <->
  (a = nb /\ r' = res)
  \/ (a <> p /\ heap cb !! a = Some r')
  \/ (a = p /\ r' = with_children_rids (children_rids rp ++ [rid res]) rp).
Proof.
  pose proof p_lt as Hlt. cbn. destruct (decide (a = p)) as [->|Hne].
  - rewrite list_lookup_alter_eq, lookup_app_l, Hp by done. cbn. split.
    + intros [= <-]. right. by right.
    + intros [[-> _]|[[? _]|[_ ->]]]; [lia|done|done].
  - rewrite list_lookup_alter_ne by done. split.
    + intros Hr. destruct (decide (a < nb)%nat).
      * rewrite lookup_app_l in Hr by done. right. by left.
      * pose proof (lookup_lt_Some _ _ _ Hr) as Hlen. rewrite length_app in Hlen.
        cbn in Hlen. assert (a = nb) as -> by lia.
        rewrite lookup_app_r, Nat.sub_diag in Hr by done. injection Hr as <-. by left.
    + intros [[-> ->]|[[_ Hr]|[? _]]]; [|by apply lookup_app_l_Some|done].
      by rewrite lookup_app_r, Nat.sub_diag.
Qed.

Lemma after_add_live_old h a r :
  live cb h a r ->
  exists r', live cb' h a r'
             /\ pid r' = pid r /\ rid r' = rid r
             /\ forall c, c ∈ children_rids r -> c ∈ children_rids r'.
Proof.
  intros (Hh & -> & Hr)%(live_no_holes _ _ _ _ Hfull).
  destruct (decide (Z.to_nat h = p)) as [Heq|Hne].
  - exists (with_children_rids (children_rids rp ++ [rid res]) rp).
    rewrite Heq, Hp in Hr. injection Hr as <-. split_and!; try done.
    + apply (live_no_holes _ _ _ _ after_add_no_holes). split_and!; [done|done|].
      apply after_add_heap. right. right. done.
    + intros c Hc. cbn. apply elem_of_app. by left.
  - exists r. split_and!; try done.
    apply (live_no_holes _ _ _ _ after_add_no_holes). split_and!; [done|done|].
    apply after_add_heap. right. left. done.
Qed.

Lemma after_add_live h a r' :
  live cb' h a r' <->
  (h = Z.of_nat nb /\ a = nb /\ r' = res)
  \/ (a <> p /\ live cb h a r')
  \/ (a = p /\ live cb h a rp
      /\ r' = with_children_rids (children_rids rp ++ [rid res]) rp).
Proof.
  rewrite (live_no_holes _ _ _ _ after_add_no_holes), after_add_heap.
  rewrite (live_no_holes _ _ _ _ Hfull), (live_no_holes _ _ _ _ Hfull).
  pose proof p_lt. split.
  - intros (Hh & -> & [[Hn ->]|[[Hne Hr]|[Heq ->]]]).
    + left. split_and!; [lia|done|done].
    + right. left. done.
    + right. right. split_and!; try done. by rewrite Heq.
  - intros [(-> & -> & ->)|[(Hne & Hh & -> & Hr)|(Heq & (Hh & -> & Hr) & ->)]].
    + split_and!; [lia|lia|]. by left.
    + split_and!; [done|done|]. right. by left.
    + split_and!; [done|done|]. right. by right.
Qed.

(** Adding a child at the end of the list leaves a populated tree
    populated. *)
Lemma populated_after_add : populated cb'.
Proof.
  pose proof p_lt as Hlt. pose proof rid_rp as Hridp.
  assert (Hlivep : live cb (Z.of_nat p) p rp).
  { apply (live_no_holes _ _ _ _ Hfull). split_and!; [lia|lia|done]. }
  assert (Hold : forall c, c ∈ children_rids rp -> c < Z.of_nat nb).
  { intros c Hc.
    destruct (populated_children cb Hpop _ _ _ _ Hlivep Hc) as (_ & ac & rc & Hlc & _).
    pose proof (live_lt _ _ _ _ Hlc). rewrite Hfull, length_fmap, length_seq in H. done. }
  split.
  - intros i s Hs. rewrite (no_holes_lookup _ _ after_add_no_holes) in Hs.
    case_decide as Hi; [|done]. injection Hs as <-. right.
    destruct (heap cb' !! i) as [r'|] eqn:Hr'.
    2:{ apply lookup_ge_None in Hr'. lia. }
    exists i, r'. split_and!; [done|done|].
    apply after_add_heap in Hr' as [[-> ->]|[[Hne Hr]|[-> ->]]]; [done| |done].
    assert (Hl : live cb (Z.of_nat i) i r').
    { apply (live_no_holes _ _ _ _ Hfull). split_and!; [lia|lia|done]. }
    by apply (live_rid cb Hpop) in Hl.
  - destruct (populated_root cb Hpop) as (r & Hl & Hnone).
    destruct (after_add_live_old _ _ _ Hl) as (r' & Hl' & Hpid' & _).
    exists r'. split; [done|congruence].
  - intros h a r' Hl' Hnone.
    apply after_add_live in Hl' as [(-> & -> & ->)|[(Hne & Hl)|(-> & Hl & ->)]].
    + congruence.
    + by eapply (populated_root_only cb Hpop).
    + by eapply (populated_root_only cb Hpop).
  - intros h a r' c Hl' Hc.
    apply after_add_live in Hl' as [(-> & -> & ->)|[(Hne & Hl)|(-> & Hl & ->)]].
    + rewrite Hkids in Hc. by apply elem_of_nil in Hc.
    + destruct (populated_children cb Hpop _ _ _ _ Hl Hc) as (Hhc & ac & rc & Hlc & Hpc).
      split; [done|].
      destruct (after_add_live_old _ _ _ Hlc) as (rc' & Hlc' & Hpc' & _).
      exists ac, rc'. split; [done|congruence].
    + assert (h = Z.of_nat p) as ->.
      { apply (live_no_holes _ _ _ _ Hfull) in Hl as (? & ? & _). lia. }
      cbn in Hc. apply elem_of_app in Hc as [Hc|Hc%list_elem_of_singleton].
      * destruct (populated_children cb Hpop _ _ _ _ Hl Hc)
          as (Hhc & ac & rc & Hlc & Hpc).
        split; [done|].
        destruct (after_add_live_old _ _ _ Hlc) as (rc' & Hlc' & Hpc' & _).
        exists ac, rc'. split; [done|congruence].
      * subst c. rewrite Hrid. split; [lia|]. exists nb, res. split; [|congruence].
        apply after_add_live. by left.
  - intros h a r' Hl'.
    apply after_add_live in Hl' as [(-> & -> & ->)|[(Hne & Hl)|(-> & Hl & ->)]].
    + rewrite Hkids. constructor.
    + by eapply (populated_NoDup cb Hpop).
    + cbn. apply NoDup_app. split_and!.
      * by eapply (populated_NoDup cb Hpop).
      * intros c Hc%Hold ->%list_elem_of_singleton. lia.
      * apply NoDup_singleton.
  - intros h a r' q Hl' Hq.
    apply after_add_live in Hl' as [(-> & -> & ->)|[(Hne & Hl)|(-> & Hl & ->)]].
    + rewrite Hpid in Hq. injection Hq as <-. rewrite Hridp.
      exists p, (with_children_rids (children_rids rp ++ [rid res]) rp). split.
      * apply after_add_live. right. right. done.
      * cbn. rewrite Hrid. apply elem_of_app. right. by apply list_elem_of_singleton.
    + destruct (populated_parent cb Hpop _ _ _ _ Hl Hq) as (aq & rq & Hlq & Hin).
      destruct (after_add_live_old _ _ _ Hlq) as (rq' & Hlq' & _ & _ & Hsub).
      exists aq, rq'. split; [done|by apply Hsub].
    + destruct (populated_parent cb Hpop _ _ _ _ Hl Hq) as (aq & rq & Hlq & Hin).
      destruct (after_add_live_old _ _ _ Hlq) as (rq' & Hlq' & _ & _ & Hsub).
      exists aq, rq'. split; [done|by apply Hsub].
Qed.

End AddKeepsShape.

Section PopulateFacts.

Variable file_name : string -> string.
Variable join : string -> string -> string.
Variable is_special : string -> bool.
Variable ignored : string -> bool.
Variable os_walk : string -> list (string * list string * list string).

Lemma _add_child_eq cb p rp child_name child_rid child_is_file :
  heap cb !! p = Some rp ->
  _add_child p child_name child_rid child_is_file cb
  = (Ok (length (heap cb)),
     with_heap
       (alter (fun r => with_children_rids (children_rids r ++ [child_rid]) r) p
          (heap cb ++ [new_Resource child_name child_rid (Some (rid rp))
                         child_is_file (use_cache rp)])) cb).
Proof.
  intros Hp. unfold _add_child. rewrite M_bind_eq. unfold reading, deref.
  rewrite Hp. rewrite M_bind_eq. rewrite M_bind_eq. done.
Qed.

Lemma keeps_objects_refl cb : keeps_objects cb cb.
Proof. split; [done|]. intros a r Hr. by exists r. Qed.

Lemma keeps_objects_trans cb1 cb2 cb3 :
  keeps_objects cb1 cb2 -> keeps_objects cb2 cb3 -> keeps_objects cb1 cb3.
Proof.
  intros [H1 H2] [H1' H2']. split; [congruence|].
  intros a r Hr. destruct (H2 _ _ Hr) as (r' & Hr' & ? & ?).
  destruct (H2' _ _ Hr') as (r'' & Hr'' & ? & ?).
  exists r''. split_and!; [done|congruence|congruence].
Qed.

Lemma add_entry_ok top p entry_is_file st entry_name :
  populating_ok st ->
  (p < length (heap (codebase st)))%nat ->
  exists st',
    add_entry join is_special ignored top p entry_is_file st entry_name = Ok st'
    /\ populating_ok st'
    /\ (length (heap (codebase st)) <= length (heap (codebase st')))%nat
    /\ (forall loc, is_Some (res_by_loc st !! loc) -> is_Some (res_by_loc st' !! loc))
    /\ (skipped is_special ignored (join top entry_name) = false ->
        is_Some (res_by_loc st' !! join top entry_name))
    /\ (forall loc, is_Some (res_by_loc st' !! loc) ->
        is_Some (res_by_loc st !! loc) \/ loc = join top entry_name)
    /\ keeps_objects (codebase st) (codebase st').
Proof.
  intros (Hpop & Hfull & Hlast & Hdir & Hlocs) Hp.
  unfold add_entry, skipped.
  destruct (is_special (join top entry_name) || ignored (join top entry_name)) eqn:Hskip.
  { exists st. split_and!; try done; [by left|apply keeps_objects_refl]. }
  destruct (heap (codebase st) !! p) as [rp|] eqn:Hrp.
  2:{ apply lookup_ge_None in Hrp. lia. }
  rewrite (_add_child_eq _ _ _ _ _ _ Hrp).
  set (res := new_Resource entry_name (last_rid st + 1) (Some (rid rp)) entry_is_file
                (use_cache rp)).
  eexists. split; [reflexivity|].
  assert (Hrid : rid res = Z.of_nat (length (heap (codebase st)))).
  { cbn. lia. }
  pose proof (populated_after_add (codebase st) p rp res Hpop Hfull Hrp Hrid
                eq_refl eq_refl) as Hpop'.
  pose proof (after_add_no_holes (codebase st) p res Hfull) as Hfull'.
  assert (Heq : with_resources
                  (resources (with_heap
                     (alter (fun r => with_children_rids
                                        (children_rids r ++ [last_rid st + 1]) r) p
                        (heap (codebase st) ++ [res])) (codebase st))
                   ++ [SResource (length (heap (codebase st)))])
                  (with_heap
                     (alter (fun r => with_children_rids
                                        (children_rids r ++ [last_rid st + 1]) r) p
                        (heap (codebase st) ++ [res])) (codebase st))
                = after_add p res (codebase st)).
  { reflexivity. }
  rewrite Heq. cbn [codebase last_rid res_by_loc].
  assert (Hlen : length (heap (after_add p res (codebase st)))
                 = S (length (heap (codebase st)))).
  { cbn. rewrite length_alter, length_app. cbn. lia. }
  split; [|cbn [codebase last_rid res_by_loc]; split_and!].
  - unfold populating_ok. cbn [codebase last_rid res_by_loc].
    split_and!; [done|done| |done|].
    + rewrite Hlen. lia.
    + intros loc a. rewrite Hlen. intros [[_ <-]|[_ Ha]]%lookup_insert_Some; [lia|].
      apply Hlocs in Ha. lia.
  - rewrite Hlen. lia.
  - intros loc [a Ha]. destruct (decide (join top entry_name = loc)) as [<-|Hne].
    + rewrite lookup_insert_eq. by eexists.
    + rewrite lookup_insert_ne by done. by eexists.
  - intros _. rewrite lookup_insert_eq. by eexists.
  - intros loc [a Ha]. destruct (decide (join top entry_name = loc)) as [<-|Hne].
    + by right.
    + rewrite lookup_insert_ne in Ha by done. left. by eexists.
  - split; [done|]. intros a r Hr. destruct (decide (a = p)) as [->|Hne].
    + rewrite Hrp in Hr. injection Hr as <-. eexists. split.
      * apply (after_add_heap (codebase st) p rp res Hrp). right. right. done.
      * done.
    + exists r. split; [|done].
      apply (after_add_heap (codebase st) p rp res Hrp). right. left. done.
Qed.

Lemma add_entries_ok top p entry_is_file names : forall st,
  populating_ok st ->
  (p < length (heap (codebase st)))%nat ->
  exists st',
    add_entries join is_special ignored top p entry_is_file names st = Ok st'
    /\ populating_ok st'
    /\ (length (heap (codebase st)) <= length (heap (codebase st')))%nat
    /\ (forall loc, is_Some (res_by_loc st !! loc) -> is_Some (res_by_loc st' !! loc))
    /\ (forall entry_name, entry_name ∈ names ->
        skipped is_special ignored (join top entry_name) = false ->
        is_Some (res_by_loc st' !! join top entry_name))
    /\ (forall loc, is_Some (res_by_loc st' !! loc) ->
        is_Some (res_by_loc st !! loc)
        \/ exists entry_name, entry_name ∈ names /\ loc = join top entry_name)
    /\ keeps_objects (codebase st) (codebase st').
Proof.
  induction names as [|entry_name names IH]; intros st Hok Hp.
  - exists st. split_and!; try done; [by intros ? ?%elem_of_nil|by left|].
    apply keeps_objects_refl.
  - destruct (add_entry_ok top p entry_is_file st entry_name Hok Hp)
      as (st1 & Hrun1 & Hok1 & Hlen1 & Hmono1 & Hnew1 & Hdom1 & Hkeep1).
    destruct (IH st1 Hok1 ltac:(lia))
      as (st2 & Hrun2 & Hok2 & Hlen2 & Hmono2 & Hnew2 & Hdom2 & Hkeep2).
    exists st2. split_and!; [|done|lia|by auto| | |by eapply keeps_objects_trans].
    + cbn [add_entries]. rewrite Hrun1. exact Hrun2.
    + intros e [->|He]%elem_of_cons Hskip; [|by apply Hnew2].
      by apply Hmono2, Hnew1.
    + intros loc [Hloc|(e & He & ->)]%Hdom2.
      * apply Hdom1 in Hloc as [Hloc| ->]; [by left|].
        right. exists entry_name. split; [by left|done].
      * right. exists e. split; [by right|done].
Qed.

Lemma elem_of_sorted_names (names : list string) x :
  x ∈ sorted_names names <-> x ∈ names.
Proof. unfold sorted_names. by rewrite sorted_Permutation. Qed.

(** One turn of the loop over what [os_walk] yields. *)
Lemma populate_event_ok top dirs files p st :
  populating_ok st ->
  res_by_loc st !! top = Some p ->
  exists st',
    (st1 ← add_entries join is_special ignored top p false (sorted_names dirs) st;
     add_entries join is_special ignored top p true (sorted_names files) st1) = Ok st'
    /\ populating_ok st'
    /\ (forall loc, is_Some (res_by_loc st !! loc) -> is_Some (res_by_loc st' !! loc))
    /\ (forall entry_name, entry_name ∈ dirs ->
        skipped is_special ignored (join top entry_name) = false ->
        is_Some (res_by_loc st' !! join top entry_name))
    /\ (forall loc, is_Some (res_by_loc st' !! loc) ->
        is_Some (res_by_loc st !! loc)
        \/ exists entry_name, entry_name ∈ dirs ++ files /\ loc = join top entry_name)
    /\ keeps_objects (codebase st) (codebase st').
Proof.
  intros Hok Hp. pose proof Hok as (_ & _ & _ & _ & Hlocs).
  pose proof (Hlocs _ _ Hp) as Hlt.
  destruct (add_entries_ok top p false (sorted_names dirs) st Hok Hlt)
    as (st1 & Hrun1 & Hok1 & Hlen1 & Hmono1 & Hnew1 & Hdom1 & Hkeep1).
  destruct (add_entries_ok top p true (sorted_names files) st1 Hok1 ltac:(lia))
    as (st2 & Hrun2 & Hok2 & Hlen2 & Hmono2 & Hnew2 & Hdom2 & Hkeep2).
  exists st2. split_and!; [|done|by auto| | |by eapply keeps_objects_trans].
  - rewrite Hrun1. exact Hrun2.
  - intros e He Hskip. apply Hmono2, Hnew1; [|done]. by apply elem_of_sorted_names.
  - intros loc [Hloc|(e & He & ->)]%Hdom2.
    + apply Hdom1 in Hloc as [Hloc|(e & He & ->)]; [by left|].
      apply (proj1 (elem_of_sorted_names _ _)) in He.
      right. exists e. split; [|done]. rewrite elem_of_app. by left.
    + apply (proj1 (elem_of_sorted_names _ _)) in He.
      right. exists e. split; [|done]. rewrite elem_of_app. by right.
Qed.

Lemma populate_walk_ok events : forall st,
  populating_ok st ->
  match populate_walk join is_special ignored events st with
  | Populated cb => populated cb /\ no_holes cb /\ codebase_is_file cb = false
                    /\ keeps_objects (codebase st) cb
  | KeyError _ => True
  | Failed _ => False
  end.
Proof.
  induction events as [|[[top dirs] files] events IH]; intros st Hok.
  - cbn. destruct Hok as (? & ? & _ & ? & _). split_and!; try done.
    apply keeps_objects_refl.
  - cbn [populate_walk]. destruct (is_special top || ignored top); [by apply IH|].
    destruct (res_by_loc st !! top) as [p|] eqn:Hp; [|done].
    destruct (populate_event_ok top dirs files p st Hok Hp)
      as (st' & -> & Hok' & _ & _ & _ & Hkeep).
    specialize (IH st' Hok').
    destruct (populate_walk join is_special ignored events st'); try done.
    destruct IH as (? & ? & ? & ?). split_and!; try done.
    by eapply keeps_objects_trans.
Qed.

Lemma lone_populated (root_name : string) (is_file use_cache : bool) :
  populated (mkCodebase [new_Resource root_name 0 None is_file use_cache]
               [SResource 0%nat] 0%nat is_file).
Proof.
  split.
  - intros [|i] s Hs; [|done]. right. simplify_eq/=. by eexists _, _.
  - eexists. split; [by apply (live_intro _ 0)|done].
  - intros h a r H _. apply live_inv in H as ([|i] & -> & H & _); [done|done].
  - intros h a r c H Hc. apply live_inv in H as ([|i] & -> & H & Hr); [|done].
    simplify_eq/=. by apply elem_of_nil in Hc.
  - intros h a r H. apply live_inv in H as ([|i] & -> & H & Hr); [|done].
    simplify_eq/=. constructor.
  - intros h a r q H Hq. apply live_inv in H as ([|i] & -> & H & Hr); [|done].
    simplify_eq/=.
Qed.

(** [populate] never fails on a resource. When it returns, the tree is
    populated and the list has no hole; the root is named after the location
    and is a file exactly when the codebase is. *)
Theorem populate_populated (location : string) (single_file use_cache : bool) :
  match populate file_name join is_special ignored os_walk location single_file
          use_cache
  with
  | Populated cb =>
      populated cb /\ no_holes cb /\ codebase_is_file cb = single_file
      /\ exists r, heap cb !! root cb = Some r
                   /\ name r = file_name location /\ is_file r = single_file
  | KeyError _ => single_file = false
  | Failed _ => False
  end.
Proof.
  unfold populate.
  pose proof (lone_populated (file_name location) single_file use_cache).
  destruct single_file.
  - split_and!; [done|done|done|]. by eexists.
  - set (st := mkPopulating _ _ _).
    assert (Hok : populating_ok st).
    { split_and!; try done. intros loc a. subst st. cbn [res_by_loc codebase].
      intros [_ <-]%lookup_singleton_Some. cbn. lia. }
    pose proof (populate_walk_ok (os_walk location) st Hok) as Hwalk.
    destruct (populate_walk _ _ _ _ st); [|done|done].
    destruct Hwalk as (? & ? & ? & Hroot & Hkeep). split_and!; try done.
    destruct (Hkeep 0%nat _ eq_refl) as (r' & Hr' & ? & ?).
    exists r'. by rewrite Hroot.
Qed.

Lemma populate_walk_total location events : forall pre st,
  populating_ok st ->
  well_nested join location (pre ++ events) ->
  (forall top entry_name,
     skipped is_special ignored top = true ->
     skipped is_special ignored (join top entry_name) = true) ->
  is_Some (res_by_loc st !! location) ->
  (forall top dirs files entry_name,
     (top, dirs, files) ∈ pre -> skipped is_special ignored top = false ->
     entry_name ∈ dirs -> skipped is_special ignored (join top entry_name) = false ->
     is_Some (res_by_loc st !! join top entry_name)) ->
  exists cb, populate_walk join is_special ignored events st = Populated cb.
Proof.
  induction events as [|[[top dirs] files] events IH]; intros pre st Hok Hnest Hher Hloc Hpre.
  - by eexists.
  - cbn [populate_walk]. fold (skipped is_special ignored top).
    assert (Hnest' : well_nested join location ((pre ++ [(top, dirs, files)]) ++ events)).
    { by rewrite <- app_assoc. }
    destruct (skipped is_special ignored top) eqn:Hskip.
    { apply (IH (pre ++ [(top, dirs, files)]) st); try done.
      intros top' dirs' files' e [Hin|Hin%list_elem_of_singleton]%elem_of_app; [by eauto|].
      injection Hin as -> -> ->. congruence. }
    assert (Htop : is_Some (res_by_loc st !! top)).
    { destruct (Hnest (length pre) top dirs files) as [->|Hup].
      - by rewrite lookup_app_r, Nat.sub_diag.
      - done.
      - destruct Hup as (j & top' & dirs' & files' & e & Hj & Hev & He & ->).
        rewrite lookup_app_l in Hev by done.
        apply list_elem_of_lookup_2 in Hev.
        apply (Hpre top' dirs' files' e); try done.
        destruct (skipped is_special ignored top') eqn:Hskip'; [|done].
        rewrite (Hher top' e Hskip') in Hskip. done. }
    destruct Htop as [p Hp]. rewrite Hp.
    destruct (populate_event_ok top dirs files p st Hok Hp)
      as (st' & -> & Hok' & Hmono & Hnew & _ & _).
    apply (IH (pre ++ [(top, dirs, files)]) st'); try done; [by apply Hmono|].
    intros top' dirs' files' e [Hin|Hin%list_elem_of_singleton]%elem_of_app.
    + intros. apply Hmono. by eapply Hpre.
    + injection Hin as -> -> ->. intros _. apply Hnew.
Qed.

(** When what [os_walk] yields is nested as [os.walk] has it, and what is
    under a location left out is left out too, [populate] returns. *)
Theorem populate_returns (location : string) (single_file use_cache : bool) :
  well_nested join location (os_walk location) ->
  (forall top entry_name,
     skipped is_special ignored top = true ->
     skipped is_special ignored (join top entry_name) = true) ->
  exists cb,
    populate file_name join is_special ignored os_walk location single_file use_cache
    = Populated cb.
Proof.
  intros Hnest Hher. unfold populate. destruct single_file; [by eexists|].
  set (st := mkPopulating _ _ _).
  assert (Hok : populating_ok st).
  { split_and!; try done; [apply lone_populated|].
    intros loc a. subst st. cbn [res_by_loc codebase].
    intros [_ <-]%lookup_singleton_Some. cbn. lia. }
  apply (populate_walk_total location (os_walk location) [] st); try done.
  - subst st. cbn [res_by_loc]. rewrite lookup_singleton_eq. by eexists.
  - by intros ? ? ? ? ?%elem_of_nil.
Qed.

Lemma populate_walk_KeyError top dirs files post pre : forall st,
  populating_ok st ->
  skipped is_special ignored top = false ->
  res_by_loc st !! top = None ->
  (forall top' dirs' files' entry_name,
     (top', dirs', files') ∈ pre -> entry_name ∈ dirs' ++ files' ->
     join top' entry_name = top -> skipped is_special ignored top' = true) ->
  exists t,
    populate_walk join is_special ignored (pre ++ (top, dirs, files) :: post) st
    = KeyError t.
Proof.
  induction pre as [|[[top' dirs'] files'] pre IH]; intros st Hok Hskip Hnone Hpre.
  - cbn [app populate_walk]. fold (skipped is_special ignored top).
    rewrite Hskip, Hnone. by eexists.
  - cbn [app populate_walk]. fold (skipped is_special ignored top').
    destruct (skipped is_special ignored top') eqn:Hskip'.
    { apply IH; try done. intros. eapply Hpre; [by right|done..]. }
    destruct (res_by_loc st !! top') as [p|] eqn:Hp; [|by eexists].
    destruct (populate_event_ok top' dirs' files' p st Hok Hp)
      as (st' & -> & Hok' & _ & _ & Hdom & _).
    apply IH; try done.
    + destruct (res_by_loc st' !! top) as [a|] eqn:Ha; [|done].
      destruct (Hdom top ltac:(by eexists)) as [[? Hold]|(e & He & Heq)]; [congruence|].
      rewrite (Hpre top' dirs' files' e) in Hskip'; [done|by left|done|done].
    + intros. eapply Hpre; [by right|done..].
Qed.

(** A directory that is not left out, while the directories that list it are,
    makes [populate] raise [KeyError]. *)
Theorem populate_KeyError (location : string) (use_cache : bool)
    top dirs files pre post :
  os_walk location = pre ++ (top, dirs, files) :: post ->
  top <> location ->
  skipped is_special ignored top = false ->
  (forall top' dirs' files' entry_name,
     (top', dirs', files') ∈ pre -> entry_name ∈ dirs' ++ files' ->
     join top' entry_name = top -> skipped is_special ignored top' = true) ->
  exists t,
    populate file_name join is_special ignored os_walk location false use_cache
    = KeyError t.
Proof.
  intros Hwalk Hne Hskip Hpre. unfold populate. rewrite Hwalk.
  apply populate_walk_KeyError; try done.
  - split_and!; try done; [apply lone_populated|].
    intros loc a. cbn [res_by_loc codebase].
    intros [_ <-]%lookup_singleton_Some. cbn. lia.
  - cbn [res_by_loc]. by rewrite lookup_singleton_ne.
Qed.

End PopulateFacts.

Section PopulateExamples.

Local Open Scope string_scope.

Lemma populate_returns_witness :
  exists cb,
    populate (fun s => s) Listing.join Listing.nothing Listing.nothing Listing.plain
      "root" false false
    = Populated cb.
Proof.
  apply (populate_returns (fun s => s) Listing.join Listing.nothing Listing.nothing
           Listing.plain "root" false false).
  - intros i top dirs files Hi.
    destruct i as [|[|i]]; simplify_eq/=; [by left|right].
    exists 0%nat, "root", ["b"], ["a.txt"], "b".
    split_and!; [lia|done|by left|done].
  - done.
Defined.

Lemma populate_KeyError_witness :
  exists t,
    populate (fun s => s) Listing.join Listing.nothing Listing.only_git
      Listing.with_git "root" false false
    = KeyError t.
Proof.
  apply (populate_KeyError (fun s => s) Listing.join Listing.nothing Listing.only_git
           Listing.with_git "root" false "root/.git/objects" [] []
           [("root", [".git"], []); ("root/.git", ["objects"], [])] []).
  - reflexivity.
  - done.
  - reflexivity.
  - intros top' dirs' files' e Hin He Heq.
    apply elem_of_cons in Hin as [Hin|Hin%list_elem_of_singleton];
      injection Hin as -> -> ->; [|reflexivity].
    rewrite app_nil_r in He. apply list_elem_of_singleton in He as ->. done.
Defined.

End PopulateExamples.

(** ** The registry: round trip and what it keeps *)

Section RegistryRoundTrip.

Import Registry.

Lemma find_codebase_None_inv (codebases : gmap Z codebase_ref) codebase :
  find_codebase codebases codebase = None ->
  map_Forall (fun _ c => c <> codebase) codebases.
Proof.
  unfold find_codebase. intros Hfind cid c Hcid ->.
  destruct (List.find _ _) as [e|] eqn:Hf; [done|].
  pose proof (List.find_none _ _ Hf (cid, codebase)) as Hnone.
  cbn in Hnone. rewrite Nat.eqb_refl in Hnone.
  assert (false = true -> False) by done. apply H. symmetry. apply Hnone.
  by apply list_elem_of_In, elem_of_map_to_list.
Qed.

(** The id given to a codebase that is not in the registry. *)
Lemma add_codebase_fresh (codebases : gmap Z codebase_ref) codebase :
  map_Forall (fun _ c => c <> codebase) codebases ->
  exists new_cid,
    add_codebase true codebase codebases
      = Ok (new_cid, <[new_cid := codebase]> codebases)
    /\ codebases !! new_cid = None
    /\ ((forall cid, is_Some (codebases !! cid) -> 1 <= cid) -> 1 <= new_cid).
Proof.
  intros Hnew. unfold add_codebase. simpl.
  case_bool_decide as Hne.
  - rewrite (find_codebase_None _ _ Hnew).
    destruct (Py_max_spec (fst <$> map_to_list codebases)) as (m & -> & Hin & Hmax).
    { intros Hnil. apply fmap_nil_inv, map_to_list_empty_iff in Hnil. done. }
    exists (m + 1). simpl. split_and!; [done| |].
    + destruct (codebases !! (m + 1)) as [c|] eqn:Hl; [|done].
      assert (m + 1 <= m); [|lia]. apply Hmax.
      apply list_elem_of_fmap. exists (m + 1, c). split; [done|].
      by apply elem_of_map_to_list.
    + intros Hpos. apply list_elem_of_fmap in Hin as ([k v] & -> & Hin).
      apply elem_of_map_to_list in Hin. specialize (Hpos k ltac:(eauto)). simpl. lia.
  - assert (codebases = ∅) as -> by (destruct (decide (codebases = ∅)); done).
    exists 1. split_and!; [done|done|]. intros _. lia.
Qed.

(** A codebase that was not registered: [add_codebase] stores it under an id
    that [get_codebase] then resolves to it, the other ids resolve as before,
    and [del_codebase] of that id hands the codebase back and leaves the
    registry as it was before the registration. *)
Theorem add_then_del_codebase (codebases : gmap Z codebase_ref) codebase :
  map_Forall (fun _ c => c <> codebase) codebases ->
  exists cid codebases',
    add_codebase true codebase codebases = Ok (cid, codebases')
    /\ get_codebase cid codebases' = Some codebase
    /\ (forall cid', cid' <> cid ->
        get_codebase cid' codebases' = get_codebase cid' codebases)
    /\ del_codebase true cid codebases' = Ok (Some codebase, codebases).
Proof.
  intros Hnew.
  destruct (add_codebase_fresh codebases codebase Hnew) as (cid & Hadd & Hnone & _).
  exists cid, (<[cid := codebase]> codebases). unfold get_codebase, del_codebase.
  split_and!; [done|by rewrite lookup_insert_eq| |].
  - intros cid' Hne. by rewrite lookup_insert_ne.
  - cbn [negb]. rewrite lookup_insert_eq. by rewrite delete_insert_id.
Qed.

Lemma add_codebase_consistent (codebases codebases' : gmap Z codebase_ref) codebase cid :
  registry_consistent codebases ->
  add_codebase true codebase codebases = Ok (cid, codebases') ->
  registry_consistent codebases'.
Proof.
  intros [Hinj Hpos] Hadd.
  destruct (find_codebase codebases codebase) as [cid0|] eqn:Hfind.
  - assert (codebases <> ∅).
    { intros ->. by vm_compute in Hfind. }
    unfold add_codebase in Hadd. cbn [negb] in Hadd.
    rewrite bool_decide_eq_true_2, Hfind in Hadd by done.
    injection Hadd as <- <-. done.
  - apply find_codebase_None_inv in Hfind.
    destruct (add_codebase_fresh codebases codebase Hfind)
      as (new_cid & Hadd' & Hnone & Hone).
    rewrite Hadd in Hadd'. injection Hadd' as -> ->. split.
    + intros cid1 cid2 c.
      rewrite !lookup_insert_Some.
      intros [[<- <-]|[Hne1 H1]] [[<- Heq]|[Hne2 H2]]; try done.
      * by destruct (Hfind _ _ H2).
      * subst c. by destruct (Hfind _ _ H1).
      * by eapply Hinj.
    + intros k [c Hk]. apply lookup_insert_Some in Hk as [[<- _]|[_ Hk]]; eauto.
Qed.

Lemma del_codebase_consistent (codebases codebases' : gmap Z codebase_ref) cid gone :
  registry_consistent codebases ->
  del_codebase true cid codebases = Ok (gone, codebases') ->
  registry_consistent codebases'.
Proof.
  intros [Hinj Hpos] [= _ <-]. split.
  - intros cid1 cid2 c [_ H1]%lookup_delete_Some [_ H2]%lookup_delete_Some.
    by eapply Hinj.
  - intros k [c [_ Hk]%lookup_delete_Some]. eauto.
Qed.

Lemma run_consistent (ops : list op) : forall codebases,
  registry_consistent codebases -> registry_consistent (fst (run codebases ops)).
Proof.
  induction ops as [|o ops IH]; intros codebases Hc; [done|].
  cbn [run]. destruct (step codebases o) as [codebases' new] eqn:Hstep.
  specialize (IH codebases').
  destruct (run codebases' ops) as [final assigned]. cbn [fst] in *. apply IH.
  destruct o as [codebase|cid]; cbn [step] in Hstep.
  - destruct (add_codebase true codebase codebases) as [[cid m]|] eqn:Hadd.
    + injection Hstep as <- _. by eapply add_codebase_consistent.
    + by injection Hstep as <- _.
  - destruct (del_codebase true cid codebases) as [[gone m]|] eqn:Hdel.
    + injection Hstep as <- _. by eapply del_codebase_consistent.
    + by injection Hstep as <- _.
Qed.

(** Whatever codebases a process registers and unregisters, the registry
    never holds a codebase under two ids, and never under an id below 1. *)
Theorem registry_stays_consistent (ops : list op) :
  registry_consistent (fst (run ∅ ops)).
Proof.
  apply run_consistent. split.
  - intros cid1 cid2 c H. by rewrite lookup_empty in H.
  - intros cid [c H]. by rewrite lookup_empty in H.
Qed.

Lemma add_then_del_codebase_witness :
  exists cid codebases',
    add_codebase true 5%nat {[ 1 := 3%nat; 2 := 4%nat ]} = Ok (cid, codebases')
    /\ get_codebase cid codebases' = Some 5%nat
    /\ (forall cid', cid' <> cid ->
        get_codebase cid' codebases'
        = get_codebase cid' {[ 1 := 3%nat; 2 := 4%nat ]})
    /\ del_codebase true cid codebases'
       = Ok (Some 5%nat, {[ 1 := 3%nat; 2 := 4%nat ]}).
Proof.
  apply (add_then_del_codebase {[ 1 := 3%nat; 2 := 4%nat ]} 5%nat).
  apply (bool_decide_unpack _). by vm_compute.
Defined.

End RegistryRoundTrip.

(** ** The cache keys *)

Section CacheKeys.

Local Open Scope string_scope.

Lemma string_length_app (s1 s2 : string) :
  String.length (s1 ++ s2) = (String.length s1 + String.length s2)%nat.
Proof.
  induction s1 as [|c s1 IH]; [done|].
  change (S (String.length (s1 ++ s2)) = S (String.length s1 + String.length s2)).
  by rewrite IH.
Qed.

Lemma length_substring (s : string) : forall n m,
  (n + m <= String.length s)%nat -> String.length (substring n m s) = m.
Proof.
  induction s as [|c s IH]; intros n m Hlen.
  - cbn in Hlen. assert (n = 0%nat) as -> by lia. assert (m = 0%nat) as -> by lia. done.
  - destruct n as [|n].
    + destruct m as [|m]; [done|]. cbn. rewrite IH; [done|]. cbn in Hlen. lia.
    + cbn. apply IH. cbn in Hlen. lia.
Qed.

Lemma zeros_S (k : nat) :
  String.concat "" (replicate (S k) "0") = String "0" (String.concat "" (replicate k "0")).
Proof. destruct k; reflexivity. Qed.

Lemma zero_pad_length (width : nat) (s : string) :
  (width <= String.length (zero_pad width s))%nat.
Proof.
  unfold zero_pad. rewrite string_length_app.
  assert (String.length (String.concat "" (replicate (width - String.length s) "0"))
          = (width - String.length s)%nat) as ->; [|lia].
  induction (width - String.length s)%nat as [|k IH]; [done|].
  rewrite zeros_S. cbn. by rewrite IH.
Qed.

(** Reading [hx] back as a number. *)
Lemma zero_pad_to_N (width : nat) (s : string) :
  HexString.Raw.to_N (zero_pad width s) 0 = HexString.Raw.to_N s 0.
Proof.
  unfold zero_pad. induction (width - String.length s)%nat as [|k IH]; [done|].
  rewrite zeros_S.
  change (HexString.Raw.to_N (String.concat "" (replicate k "0") ++ s) 0
          = HexString.Raw.to_N s 0).
  exact IH.
Qed.

Lemma format_08x_to_N (n : N) :
  HexString.Raw.to_N (format_08x (Z.of_N n)) 0 = n.
Proof.
  destruct n as [|p]; [reflexivity|].
  change (HexString.Raw.to_N (zero_pad 8 (HexString.Raw.of_pos p "")) 0 = N.pos p).
  rewrite zero_pad_to_N. apply HexString.Raw.to_N_of_pos.
Qed.

(** ['%08x' % rid] tells the resource ids apart. *)
Lemma format_08x_inj (rid1 rid2 : Z) :
  0 <= rid1 -> 0 <= rid2 -> format_08x rid1 = format_08x rid2 -> rid1 = rid2.
Proof.
  intros H1 H2 Heq.
  rewrite <- (Z2N.id rid1), <- (Z2N.id rid2) in Heq by done.
  apply (f_equal (fun s => HexString.Raw.to_N s 0)) in Heq.
  rewrite !format_08x_to_N in Heq. lia.
Qed.

Lemma format_08x_length (rid0 : Z) :
  0 <= rid0 -> (8 <= String.length (format_08x rid0))%nat.
Proof.
  intros H. destruct rid0 as [|p|p]; [apply zero_pad_length..|lia].
Qed.

Lemma two_chars (s : string) :
  String.length s = 2%nat -> exists a b, s = String a (String b "").
Proof.
  destruct s as [|a [|b [|c s]]]; try done. by exists a, b.
Qed.

Lemma make_cache_keys_path_inj (rid1 rid2 : Z) (r1 r2 : Resource) :
  0 <= rid1 -> 0 <= rid2 ->
  cache_keys r1 = make_cache_keys rid1 ->
  cache_keys r2 = make_cache_keys rid2 ->
  _get_cached_path r1 = _get_cached_path r2 ->
  rid1 = rid2.
Proof.
  intros H1 H2 Hk1 Hk2. unfold _get_cached_path. rewrite Hk1, Hk2.
  unfold make_cache_keys.
  pose proof (format_08x_length rid1 H1) as Hl1.
  pose proof (format_08x_length rid2 H2) as Hl2.
  destruct (two_chars (substring (String.length (format_08x rid1) - 2) 2
                         (format_08x rid1))) as (a1 & b1 & ->).
  { apply length_substring. lia. }
  destruct (two_chars (substring (String.length (format_08x rid2) - 2) 2
                         (format_08x rid2))) as (a2 & b2 & ->).
  { apply length_substring. lia. }
  intros Heq.
  change (String a1 (String b1 (String "/" (format_08x rid1)))
          = String a2 (String b2 (String "/" (format_08x rid2)))) in Heq.
  injection Heq as _ _ Heq. by apply format_08x_inj.
Qed.

(** The cache keys are unique within a codebase: two resources with
    different ids are cached at different paths, and saving the scans of one
    leaves the scans of the other as they were. *)
Theorem put_scans_other_resource (r1 r2 : Resource) (files : cache_files)
    (scans : option OrderedDict) (update : bool) :
  0 <= rid r1 -> 0 <= rid r2 -> rid r1 <> rid r2 ->
  cache_keys r1 = make_cache_keys (rid r1) ->
  cache_keys r2 = make_cache_keys (rid r2) ->
  _get_cached_path r1 <> _get_cached_path r2
  /\ get_scans r2 (snd (put_scans r1 files scans update)) = get_scans r2 files.
Proof.
  intros H1 H2 Hne Hk1 Hk2.
  assert (Hpath : _get_cached_path r1 <> _get_cached_path r2).
  { intros Heq. by apply Hne, (make_cache_keys_path_inj _ _ r1 r2). }
  split; [done|].
  unfold put_scans. destruct scans as [[|kv scans]|]; [done| |done].
  destruct (use_cache r1); cbn [negb snd]; [|done].
  unfold get_scans. destruct (use_cache r2); cbn [negb]; [|done].
  by rewrite lookup_insert_ne.
Qed.

Lemma put_scans_other_resource_witness :
  _get_cached_path (new_Resource "a" 1 (Some 0) true true)
  <> _get_cached_path (new_Resource "b" 257 (Some 0) true true)
  /\ get_scans (new_Resource "b" 257 (Some 0) true true)
       (snd (put_scans (new_Resource "a" 1 (Some 0) true true) ∅
               (Some [("k", JStr "v")]) true))
     = get_scans (new_Resource "b" 257 (Some 0) true true) ∅.
Proof.
  apply (put_scans_other_resource (new_Resource "a" 1 (Some 0) true true)
           (new_Resource "b" 257 (Some 0) true true) ∅
           (Some [("k", JStr "v")]) true); cbn; (lia || done).
Defined.

End CacheKeys.

(** ** Ancestors and paths *)

Section Ancestors.

Context (cb : Codebase) (Hpop : populated cb).

(** The loop of [ancestors]: it climbs to the root and puts what it passes
    in front of what it holds. *)
Lemma ancestors_from_spec (fuel : nat) : forall h a r acc,
  live cb h a r ->
  (Z.to_nat h < fuel)%nat ->
  exists pre rids,
    ancestors_from fuel cb (SResource a) acc = Ok (pre ++ a :: acc)
    /\ Forall2 (fun a x => exists r, live cb x a r) pre rids
    /\ head (rids ++ [h]) = Some 0
    /\ (forall (i : nat) x y,
          (rids ++ [h]) !! i = Some x -> (rids ++ [h]) !! S i = Some y ->
          child_of cb x y)
    /\ (pre = [] <-> h = 0).
Proof.
  induction fuel as [|fuel IH]; intros h a r acc Hlive Hfuel; [lia|].
  cbn [ancestors_from as_resource]. cbn. rewrite (live_deref _ _ _ _ Hlive). cbn.
  destruct (pid r) as [p|] eqn:Hpid.
  - destruct (populated_parent cb Hpop _ _ _ _ Hlive Hpid) as (ap & rp & Hlp & Hin).
    assert (Hc : child_of cb p h) by (by exists ap, rp).
    pose proof (child_of_lt cb Hpop _ _ Hc) as Hlt.
    rewrite (live_getitem _ _ _ _ Hlp). cbn.
    destruct (IH p ap rp (a :: acc) Hlp) as (pre & rids & Hrun & HF & Hhead & Hchain & _).
    { destruct Hlp as (? & _). lia. }
    exists (pre ++ [ap]), (rids ++ [p]). split_and!.
    + by rewrite <- app_assoc.
    + apply Forall2_app; [done|]. constructor; [by eexists|constructor].
    + rewrite <- app_assoc. destruct rids; [|done]. cbn in *. done.
    + intros i x y Hx Hy. destruct (decide (i < length rids)%nat) as [Hi|Hi].
      * apply (Hchain i x y).
        -- rewrite <- app_assoc in Hx. rewrite lookup_app_l in Hx by done.
           by rewrite lookup_app_l.
        -- rewrite <- app_assoc in Hy.
           destruct (decide (S i < length rids)%nat).
           ++ rewrite lookup_app_l in Hy by done. by rewrite lookup_app_l.
           ++ assert (S i = length rids) as Heq by lia.
              rewrite lookup_app_r in Hy by lia. rewrite lookup_app_r by lia.
              rewrite Heq, Nat.sub_diag in *. cbn in *. done.
      * assert (i = length rids) as ->.
        { apply lookup_lt_Some in Hy. rewrite !length_app in Hy. cbn in Hy. lia. }
        rewrite <- app_assoc in Hx, Hy.
        rewrite lookup_app_r, Nat.sub_diag in Hx by lia.
        rewrite lookup_app_r in Hy by lia.
        replace (S (length rids) - length rids)%nat with 1%nat in Hy by lia.
        cbn in Hx, Hy. by simplify_eq.
    + split; [by intros [_ ?]%app_eq_nil|]. destruct Hlp as (? & _). lia.
  - pose proof (populated_root_only cb Hpop _ _ _ Hlive Hpid) as ->.
    exists [], []. split_and!; [done|constructor|done| |done].
    intros [|i] x y Hx Hy; done.
Qed.

(** [ancestors] of a resource of a populated tree is the line from the root
    down to the resource: it starts with the root, ends with the resource,
    and each one is the parent of the next. *)
Theorem ancestors_line (fuel : nat) h a r :
  live cb h a r ->
  (Z.to_nat h < fuel)%nat ->
  exists line rids,
    ancestors fuel cb a = Ok line
    /\ Forall2 (fun a x => exists r, live cb x a r) line rids
    /\ head line = Some (root cb) /\ last line = Some a
    /\ forall (i : nat) x y,
         rids !! i = Some x -> rids !! S i = Some y -> child_of cb x y.
Proof.
  intros Hlive Hfuel.
  destruct (ancestors_from_spec fuel h a r [] Hlive Hfuel)
    as (pre & rids & Hrun & HF & Hhead & Hchain & _).
  exists (pre ++ [a]), (rids ++ [h]).
  assert (HF' : Forall2 (fun a x => exists r, live cb x a r) (pre ++ [a]) (rids ++ [h])).
  { apply Forall2_app; [done|]. constructor; [by eexists|constructor]. }
  split_and!; [done|done| |apply last_snoc|done].
  destruct (populated_root cb Hpop) as (r0 & Hl0 & _).
  destruct (pre ++ [a]) as [|a0 line] eqn:Hline; [by destruct pre|].
  apply Forall2_cons_inv_l in HF' as (x0 & rids' & [r0' Hl0'] & _ & Heq).
  rewrite Heq in Hhead. injection Hhead as ->.
  by destruct (live_functional _ _ _ _ _ _ Hl0 Hl0') as [-> _].
Qed.

End Ancestors.

Section GetPathFacts.

Variable join : list string -> string.
Variable as_posixpath : string -> string.
Variable fsdecode : string -> string.
Variable base_location : string.

Context (cb : Codebase) (Hpop : populated cb).

(** [get_path] joins the names of the resources from the root down to the
    resource. With [absolute] the base location comes first and [strip_root]
    is not looked at; else [strip_root] leaves out the name of the root,
    unless the resource is the root itself. *)
Theorem get_path_segments (fuel : nat) h a r (absolute strip_root decode posix : bool) :
  live cb h a r ->
  (Z.to_nat h < fuel)%nat ->
  exists line segments,
    ancestors fuel cb a = Ok line
    /\ Forall2 (fun a' s => exists r', heap cb !! a' = Some r' /\ name r' = s)
         line segments
    /\ get_path join as_posixpath fsdecode base_location fuel cb a
         absolute strip_root decode posix
       = Ok ((if decode then fsdecode else fun s => s)
               ((if posix then as_posixpath else fun s => s)
                  (join
                     (if absolute then
                        (if posix then as_posixpath base_location else base_location)
                        :: segments
                      else if strip_root && negb (h =? 0) then tail segments
                      else segments)))).
Proof.
  intros Hlive Hfuel.
  destruct (ancestors_from_spec cb Hpop fuel h a r [] Hlive Hfuel)
    as (pre & rids & Hrun & HF & _ & _ & Hroot).
  assert (Hnames : exists segments,
    Forall2 (fun a' s => exists r', heap cb !! a' = Some r' /\ name r' = s)
      (pre ++ [a]) segments
    /\ mapM (fun a' => r' ← deref cb a'; Ok (name r')) (pre ++ [a]) = Ok segments).
  { assert (Hall : Forall (fun a' => is_Some (heap cb !! a')) (pre ++ [a])).
    { apply Forall_app. split.
      - clear -HF. induction HF as [|? ? ? ? [r' (_ & _ & Hr')]]; constructor; eauto.
      - constructor; [|constructor]. destruct Hlive as (_ & _ & ?). eauto. }
    revert Hall. generalize (pre ++ [a]). intros l Hall.
    induction Hall as [|a' l [r' Hr'] _ (segments & H1 & H2)].
    - exists []. split; [constructor|done].
    - exists (name r' :: segments). split; [constructor; eauto|].
      apply mapM_Ok. constructor.
      + unfold deref. by rewrite Hr'.
      + by apply mapM_Ok_inv. }
  destruct Hnames as (segments & Hsegs & Hmap).
  exists (pre ++ [a]), segments. split_and!; [done|done|].
  unfold get_path. unfold ancestors in *. rewrite Hrun. cbn. rewrite Hmap. cbn.
  f_equal.
  assert (Hlen : length segments = S (length pre)).
  { rewrite <- (Forall2_length _ _ _ Hsegs), length_app. cbn. lia. }
  assert (Hstrip : (if bool_decide (1 < length segments)%nat
                    then drop 1 segments else segments)
                   = if negb (h =? 0) then tail segments else segments).
  { destruct (Z.eqb_spec h 0) as [Hh|Hh]; cbn [negb].
    - apply Hroot in Hh. subst pre. rewrite bool_decide_eq_false_2; [done|].
      cbn in Hlen. lia.
    - rewrite bool_decide_eq_true_2; [by destruct segments|].
      destruct pre; [|cbn in Hlen; lia]. destruct Hh. by apply Hroot. }
  destruct absolute; [by destruct posix, decode|].
  destruct strip_root; cbn [andb]; [rewrite Hstrip|]; by destruct posix, decode.
Qed.

End GetPathFacts.

Section AncestorsExamples.

Lemma ancestors_line_witness :
  exists line rids,
    ancestors 4 Sample.tree 3%nat = Ok line
    /\ Forall2 (fun a x => exists r, live Sample.tree x a r) line rids
    /\ head line = Some (root Sample.tree) /\ last line = Some 3%nat
    /\ forall (i : nat) x y,
         rids !! i = Some x -> rids !! S i = Some y -> child_of Sample.tree x y.
Proof.
  apply (ancestors_line Sample.tree sample_tree_populated 4 3 3%nat Sample.c_txt).
  - by apply (live_intro Sample.tree 3).
  - simpl. lia.
Defined.

Lemma get_path_segments_witness :
  exists line segments,
    ancestors 4 Sample.tree 3%nat = Ok line
    /\ Forall2 (fun a' s => exists r', heap Sample.tree !! a' = Some r' /\ name r' = s)
         line segments
    /\ get_path (String.concat "/") (fun s => s) (fun s => s) "/tmp"%string 4
         Sample.tree 3%nat false true false false
       = Ok (String.concat "/" (tail segments)).
Proof.
  apply (get_path_segments (String.concat "/") (fun s => s) (fun s => s) "/tmp"%string
           Sample.tree sample_tree_populated 4 3 3%nat Sample.c_txt
           false true false false).
  - by apply (live_intro Sample.tree 3).
  - simpl. lia.
Defined.

End AncestorsExamples.

(** ** A file without a hash *)

Section MissingHash.

Import Merkle.
Local Open Scope string_scope.

Variable hexdigest : string -> string.

(** The files are fed smallest hash first and [None] sorts before every
    string: a file without a hash is the first one fed. *)
Lemma sorted_None_first (files : list record) (f : record) :
  f ∈ files -> sha1 f = None ->
  exists x rest, Py.sorted sha1_leb sha1 files = x :: rest /\ sha1 x = None.
Proof.
  intros Hin Hnone.
  pose proof (sorted_Permutation sha1_leb sha1 files) as Hperm.
  pose proof (sorted_StronglySorted sha1_leb sha1 sha1_leb_total sha1_leb_trans files)
    as Hsorted.
  rewrite <- Hperm in Hin.
  destruct (Py.sorted sha1_leb sha1 files) as [|x rest]; [by apply elem_of_nil in Hin|].
  exists x, rest. split; [done|].
  apply elem_of_cons in Hin as [<-|Hin]; [done|].
  apply StronglySorted_cons in Hsorted as [Hx _].
  rewrite Forall_forall in Hx. specialize (Hx f Hin).
  unfold Py.key_le in Hx. rewrite Hnone in Hx. by destruct (sha1 x).
Qed.

(** A directory that holds a file whose record has no [sha1] stops the pass
    with [TypeError], before any record of the directory is handed out. *)
Theorem visit_missing_sha1 (p : pass) (present_dir : dir_ref)
    (ds : list dir_ref) (fs : list record) (f : record) :
  get_dirs (tree p) present_dir = Ok ds ->
  get_files (tree p) present_dir = Ok fs ->
  f ∈ fs -> sha1 f = None ->
  visit hexdigest p present_dir = Raise TypeError.
Proof.
  intros Hds Hfs Hin Hnone. unfold visit. rewrite Hds, Hfs. cbn.
  unfold hash_dir.
  destruct (sorted_None_first fs f Hin Hnone) as (x & rest & -> & Hx).
  cbn. by rewrite Hx.
Qed.

End MissingHash.

Section MissingHashExamples.

Import Merkle.
Local Open Scope string_scope.

Lemma visit_missing_sha1_witness :
  visit (fun s => s)
    (mkPass (mkHeap [mkDir (mkRecord "a" "directory" None) 0 0] [[]]
               [[Stream.file "a/x" "11"; mkRecord "a/y" "file" None]]) [] [])
    0%nat
  = Raise TypeError.
Proof.
  apply (visit_missing_sha1 (fun s => s) _ 0%nat []
           [Stream.file "a/x" "11"; mkRecord "a/y" "file" None]
           (mkRecord "a/y" "file" None)).
  - reflexivity.
  - reflexivity.
  - right. left.
  - reflexivity.
Defined.

End MissingHashExamples.

(** ** After [add_child] *)

Section AddChildBreaks.

Context (cb : Codebase) (h : Z) (a : addr) (r : Resource).
Hypothesis Hpop : populated cb.
Hypothesis Hfull : no_holes cb.
Hypothesis Hlive : live cb h a r.

Variable child_name : string.
Variable child_is_file : bool.

#[local] Abbreviation next := (Z.of_nat (length (resources cb))).
#[local] Abbreviation res :=
  (new_Resource child_name next (Some (rid r)) child_is_file (use_cache r)).
#[local] Abbreviation after := (after_add_child a res cb).

Lemma no_holes_next_rid : _get_next_rid cb = next.
Proof.
  unfold _get_next_rid. rewrite Hfull. f_equal.
  induction (seq 0 (length (heap cb))) as [|i l IH]; [done|].
  cbn. by rewrite IH.
Qed.

Lemma add_child_eq :
  add_child a child_name child_is_file cb = (Ok (length (heap cb)), after).
Proof.
  unfold add_child. rewrite M_bind_eq. unfold reading.
  rewrite no_holes_next_rid. rewrite M_bind_eq.
  destruct Hlive as (_ & _ & Hr). rewrite (_add_child_eq _ _ _ _ _ _ Hr).
  rewrite M_bind_eq. done.
Qed.

Lemma after_heap_old a' r' :
  heap cb !! a' = Some r' ->
  exists r'', heap after !! a' = Some r''
              /\ name r'' = name r' /\ is_file r'' = is_file r'
              /\ (a' <> a -> r'' = r').
Proof.
  intros Hr'. destruct Hlive as (_ & _ & Hr).
  destruct (decide (a' = a)) as [->|Hne].
  - rewrite Hr in Hr'. injection Hr' as <-. eexists. split.
    + apply (after_add_heap cb a r res Hr). right. right. done.
    + done.
  - exists r'. split; [|done].
    apply (after_add_heap cb a r res Hr). right. left. done.
Qed.

Lemma after_getitem_old c ac rc :
  live cb c ac rc -> Py.getitem (resources after) c = Ok (SResource ac).
Proof.
  intros (Hc & Hs & _). apply getitem_nonneg; [done|]. unfold after_add_child. cbn.
  by apply lookup_app_l_Some.
Qed.

Lemma after_getitem_new : Py.getitem (resources after) next = Ok (SInt next).
Proof.
  apply getitem_nonneg; [lia|]. unfold after_add_child. cbn. rewrite Nat2Z.id.
  by rewrite lookup_app_r, Nat.sub_diag.
Qed.

Lemma mapM_error {A B : Type} (f : A -> result B) (l : list A) (e : exn) :
  (forall y, y ∈ l -> (exists v, f y = Ok v) \/ f y = Raise e) ->
  (exists y, y ∈ l /\ f y = Raise e) ->
  mapM f l = Raise e.
Proof.
  induction l as [|x l IH]; intros Hall (y & Hy & Hfy).
  - by apply elem_of_nil in Hy.
  - cbn. fold (mapM f l).
    destruct (Hall x ltac:(left)) as [[v Hv]| ->]; [|done].
    rewrite Hv. cbn. rewrite IH; [done| |].
    + intros z Hz. apply Hall. by right.
    + apply elem_of_cons in Hy as [->|Hy]; [congruence|eauto].
Qed.

Lemma after_children_old x ax rx :
  live cb x ax rx -> x <> h ->
  exists addrs,
    children cb ax = Ok (SResource <$> addrs)
    /\ children after ax = Ok (SResource <$> addrs)
    /\ Forall2 (fun c ac => exists rc, live cb c ac rc) (children_rids rx) addrs.
Proof.
  intros Hx Hne.
  destruct (children_live cb Hpop _ _ _ Hx) as (addrs & Hch & HF).
  exists addrs. split_and!; [done| |done].
  assert (ax <> a).
  { intros ->. apply Hne. by eapply live_addr_inj. }
  unfold children, deref.
  destruct (after_heap_old ax rx) as (r'' & -> & _ & _ & Heq);
    [by destruct Hx as (_ & _ & ?)|].
  rewrite (Heq H). cbn. apply mapM_Ok.
  clear Hch. induction HF as [|c ac ? ? [rc Hc] _ IH]; [constructor|].
  constructor; [|done]. by eapply after_getitem_old.
Qed.

Lemma after_sort_children addrs :
  Forall (fun a' => is_Some (heap cb !! a')) addrs ->
  sort_children after (SResource <$> addrs) = sort_children cb (SResource <$> addrs).
Proof.
  intros Hall. unfold sort_children. f_equal.
  induction Hall as [|a' l [r' Hr'] _ IH]; [done|].
  cbn. fold (mapM (fun s => k ← sorter after s; Ok (k, s)) (SResource <$> l)).
  fold (mapM (fun s => k ← sorter cb s; Ok (k, s)) (SResource <$> l)).
  rewrite IH. f_equal. unfold sorter, attr_of, deref. cbn.
  destruct (after_heap_old a' r' Hr') as (r'' & Hr'' & Hn & Hf & _).
  rewrite Hr'', Hr'. cbn. by rewrite Hn, Hf.
Qed.

Lemma mapM_ext {A B : Type} (f g : A -> result B) (l : list A) :
  (forall y, y ∈ l -> f y = g y) -> mapM f l = mapM g l.
Proof.
  induction l as [|x l IH]; intros Hext; [done|].
  cbn. fold (mapM f l). fold (mapM g l).
  rewrite (Hext x) by left. rewrite IH; [done|]. intros y Hy. apply Hext. by right.
Qed.

(** Away from the resource that was given a child, a walk goes as before. *)
Lemma after_walk_frame (topdown sort : bool) (fuel : nat) : forall x ax rx,
  live cb x ax rx -> ~ descendant cb x h ->
  _walk fuel after ax topdown sort = _walk fuel cb ax topdown sort.
Proof.
  induction fuel as [|fuel IH]; intros x ax rx Hx Hnd; [done|].
  assert (Hne : x <> h) by (intros ->; apply Hnd, rtc_refl).
  destruct (after_children_old x ax rx Hx Hne) as (addrs & Hch & Hch' & HF).
  cbn [_walk]. rewrite Hch, Hch'. cbn.
  assert (Hall : Forall (fun a' => is_Some (heap cb !! a')) addrs).
  { clear -HF. induction HF as [|? ? ? ? [rc (_ & _ & Hr)]]; constructor; eauto. }
  assert (Hkid : forall ac, ac ∈ addrs ->
            _walk fuel after ac topdown sort = _walk fuel cb ac topdown sort).
  { intros ac Hac. apply list_elem_of_lookup in Hac as [i Hi].
    destruct (Forall2_lookup_r _ _ _ _ _ HF Hi) as (c & Hc & rc & Hlc).
    apply (IH c ac rc Hlc). intros Hd. apply Hnd. eapply rtc_l; [|exact Hd].
    exists ax, rx. split; [done|]. by eapply list_elem_of_lookup_2. }
  assert (Hcs : (if sort && negb (bool_decide (SResource <$> addrs = []))
                 then sort_children after (SResource <$> addrs)
                 else Ok (SResource <$> addrs))
                = (if sort && negb (bool_decide (SResource <$> addrs = []))
                   then sort_children cb (SResource <$> addrs)
                   else Ok (SResource <$> addrs))).
  { destruct (sort && _); [|done]. by apply after_sort_children. }
  rewrite Hcs.
  assert (Hcs' : exists addrs',
            (if sort && negb (bool_decide (SResource <$> addrs = []))
             then sort_children cb (SResource <$> addrs)
             else Ok (SResource <$> addrs)) = Ok (SResource <$> addrs')
            /\ addrs ≡ₚ addrs').
  { destruct (sort && _).
    - destruct (sort_children_live cb addrs Hall) as (addrs' & -> & Hperm & _). eauto.
    - by exists addrs. }
  destruct Hcs' as (addrs' & -> & Hperm). cbn.
  rewrite (mapM_ext _ (fun child => a0 ← as_resource child;
                                   _walk fuel cb a0 topdown sort)); [done|].
  intros s (ac & -> & Hac)%list_elem_of_fmap. cbn. apply Hkid. by rewrite Hperm.
Qed.

Lemma mapM_app_Ok {A B : Type} (f : A -> result B) l1 l2 k1 k2 :
  mapM f l1 = Ok k1 -> mapM f l2 = Ok k2 -> mapM f (l1 ++ l2) = Ok (k1 ++ k2).
Proof.
  intros H1%mapM_Ok_inv H2%mapM_Ok_inv. apply mapM_Ok. by apply Forall2_app.
Qed.

Lemma after_children_new :
  exists addrs,
    children after a = Ok ((SResource <$> addrs) ++ [SInt next])
    /\ Forall2 (fun c ac => exists rc, live cb c ac rc) (children_rids r) addrs.
Proof.
  destruct (children_live cb Hpop _ _ _ Hlive) as (addrs & Hch & HF).
  exists addrs. split; [|done].
  unfold children, deref. pose proof Hlive as (_ & _ & Hr).
  assert (Ha : heap after !! a
               = Some (with_children_rids (children_rids r ++ [next]) r)).
  { apply (after_add_heap cb a r res Hr). right. right. done. }
  rewrite Ha. cbn. apply mapM_app_Ok.
  - apply mapM_Ok. clear Hch Ha.
    induction HF as [|c ac ? ? [rc Hc] _ IH]; [constructor|].
    constructor; [|done]. by eapply after_getitem_old.
  - cbn. by rewrite after_getitem_new.
Qed.

(** The walk of a populated tree, for the record. *)
Lemma walk_Ok (topdown sort : bool) (fuel : nat) x ax rx :
  live cb x ax rx ->
  (length (resources cb) - Z.to_nat x <= fuel)%nat ->
  exists walked, _walk fuel cb ax topdown sort = Ok walked.
Proof.
  intros Hx Hfuel.
  destruct (_walk_walks cb Hpop topdown sort fuel x ax rx Hx Hfuel)
    as (walked & _ & Hw & _). eauto.
Qed.

(** From the resource that was given a child up to the root, every walk runs
    into the int that [add_child] put in the list. *)
Lemma after_walk_raises (topdown sort : bool) x :
  descendant cb x h ->
  forall (fuel : nat) ax rx,
    live cb x ax rx ->
    (length (resources cb) - Z.to_nat x <= fuel)%nat ->
    _walk fuel after ax topdown sort = Raise AttributeError.
Proof.
  intros Hd. pattern x. revert x Hd. apply rtc_ind_l.
  - intros fuel ax rx Hx Hfuel.
    destruct (live_functional _ _ _ _ _ _ Hx Hlive) as [-> ->].
    destruct fuel as [|fuel].
    { pose proof (live_lt _ _ _ _ Hlive). destruct Hlive as (? & _). lia. }
    destruct after_children_new as (addrs & Hch & HF).
    cbn [_walk]. rewrite Hch. cbn.
    assert (Hwalks : forall ac, ac ∈ addrs ->
              exists v, _walk fuel after ac topdown sort = Ok v).
    { intros ac Hac. apply list_elem_of_lookup in Hac as [i Hi].
      destruct (Forall2_lookup_r _ _ _ _ _ HF Hi) as (c & Hc & rc & Hlc).
      apply list_elem_of_lookup_2 in Hc.
      destruct (populated_children cb Hpop _ _ _ _ Hlive Hc) as (Hlt & _).
      rewrite (after_walk_frame topdown sort fuel c ac rc Hlc).
      - apply (walk_Ok topdown sort fuel c ac rc Hlc).
        destruct Hlive as (? & _). lia.
      - intros Hd%(descendant_le cb Hpop). lia. }
    assert (Hvalid : forall ac, ac ∈ addrs -> exists k, sorter after (SResource ac) = Ok k).
    { intros ac Hac. apply list_elem_of_lookup in Hac as [i Hi].
      destruct (Forall2_lookup_r _ _ _ _ _ HF Hi) as (c & Hc & rc & (_ & _ & Hrc)).
      destruct (after_heap_old ac rc Hrc) as (r'' & Hr'' & _).
      unfold sorter, attr_of, deref. cbn. rewrite Hr''. cbn. eauto. }
    rewrite bool_decide_eq_false_2 by (by intros [_ ?]%app_eq_nil).
    rewrite andb_true_r.
    destruct sort.
    + unfold sort_children.
      rewrite (mapM_error _ _ AttributeError); [done| |].
      * intros s [(ac & -> & Hac)%list_elem_of_fmap| ->%list_elem_of_singleton]%elem_of_app.
        -- left. destruct (Hvalid ac Hac) as [k ->]. cbn. eauto.
        -- by right.
      * exists (SInt next). split; [|done]. apply elem_of_app. right. by left.
    + cbn. rewrite (mapM_error _ _ AttributeError); [done| |].
      * intros s [(ac & -> & Hac)%list_elem_of_fmap| ->%list_elem_of_singleton]%elem_of_app.
        -- left. cbn. by apply Hwalks.
        -- by right.
      * exists (SInt next). split; [|done]. apply elem_of_app. right. by left.
  - intros x c Hxc Hcy IH fuel ax rx Hx Hfuel.
    pose proof (child_of_lt cb Hpop _ _ Hxc) as Hlt.
    pose proof (descendant_le cb Hpop _ _ Hcy) as Hle.
    destruct fuel as [|fuel].
    { pose proof (live_lt _ _ _ _ Hx). destruct Hx as (? & _). lia. }
    destruct (after_children_old x ax rx Hx ltac:(lia)) as (addrs & Hch & Hch' & HF).
    cbn [_walk]. rewrite Hch'. cbn.
    assert (Hall : Forall (fun a' => is_Some (heap cb !! a')) addrs).
    { clear -HF. induction HF as [|? ? ? ? [rc (_ & _ & Hr)]]; constructor; eauto. }
    assert (Hcs' : exists addrs',
              (if sort && negb (bool_decide (SResource <$> addrs = []))
               then sort_children after (SResource <$> addrs)
               else Ok (SResource <$> addrs)) = Ok (SResource <$> addrs')
              /\ addrs ≡ₚ addrs').
    { destruct (sort && _).
      - rewrite (after_sort_children addrs Hall).
        destruct (sort_children_live cb addrs Hall) as (addrs' & -> & Hperm & _). eauto.
      - by exists addrs. }
    destruct Hcs' as (addrs' & -> & Hperm). cbn.
    rewrite (mapM_error _ _ AttributeError); [done| |].
    + intros s (ac & -> & Hac)%list_elem_of_fmap. rewrite <- Hperm in Hac.
      apply list_elem_of_lookup in Hac as [i Hi].
      destruct (Forall2_lookup_r _ _ _ _ _ HF Hi) as (k & Hk & rk & Hlk).
      apply list_elem_of_lookup_2 in Hk.
      assert (Hxk : child_of cb x k) by (by exists ax, rx).
      pose proof (child_of_lt cb Hpop _ _ Hxk) as Hltk.
      cbn. destruct (decide (k = c)) as [->|Hne].
      * right. apply (IH fuel ac rk Hlk). destruct Hx as (? & _). lia.
      * left. rewrite (after_walk_frame topdown sort fuel k ac rk Hlk).
        -- apply (walk_Ok topdown sort fuel k ac rk Hlk). destruct Hx as (? & _). lia.
        -- intros Hd. by apply (siblings_disjoint cb Hpop x k c h).
    + destruct Hxc as (ax' & rx' & Hx' & Hc).
      destruct (live_functional _ _ _ _ _ _ Hx Hx') as [<- <-].
      apply list_elem_of_lookup in Hc as [i Hi].
      destruct (Forall2_lookup_l _ _ _ _ _ HF Hi) as (ac & Hac & rc & Hlc).
      exists (SResource ac). split.
      * apply list_elem_of_fmap. exists ac. split; [done|].
        rewrite <- Hperm. by eapply list_elem_of_lookup_2.
      * cbn. apply (IH fuel ac rc Hlc).
        apply list_elem_of_lookup_2 in Hi. destruct Hx as (? & _). lia.
Qed.

Lemma after_count_resources l : forall acc,
  (forall s, s ∈ l -> s = SNone \/ exists a', s = SResource a' /\ is_Some (heap cb !! a')) ->
  count_resources after (l ++ [SInt next]) acc = Raise AttributeError.
Proof.
  induction l as [|s l IH]; intros acc Hall; [done|].
  destruct (Hall s ltac:(left)) as [->|(a' & -> & [r' Hr'])].
  - cbn [app count_resources]. apply IH. intros s' Hs'. apply Hall. by right.
  - cbn [app count_resources]. unfold attr_of, deref. cbn.
    destruct (after_heap_old a' r' Hr') as (r'' & -> & _). cbn.
    apply IH. intros s' Hs'. apply Hall. by right.
Qed.


End AddChildBreaks.

Section AddChildExamples.

Local Open Scope string_scope.


End AddChildExamples.

(** ** Walking after a removal *)

Section RemoveThenWalk.

(** After [remove_resource], [Codebase.walk] hands out, once each, the
    resources that were in the list and are not the one removed or below
    it. *)
Theorem remove_resource_then_walk (cb : Codebase) (h : Z) (a : addr) (r : Resource)
    (fuel : nat) (topdown sort : bool) :
  populated cb ->
  live cb h a r ->
  is_root r = false ->
  (length (resources cb) <= fuel)%nat ->
  exists removed cb' walked rids,
    remove_resource fuel a cb = (Ok removed, cb')
    /\ Codebase_walk fuel cb' topdown sort false = Ok walked
    /\ Forall2 (fun a' x => exists r', live cb' x a' r') walked rids
    /\ NoDup rids
    /\ forall x, x ∈ rids <-> (exists ax rx, live cb x ax rx) /\ ~ descendant cb h x.
Proof.
  intros Hpop Hlive Hroot Hfuel. unfold is_root in Hroot.
  destruct (pid r) as [p|] eqn:Hpid; [|done].
  destruct (remove_resource_below_root cb h a r p fuel Hpop Hlive Hpid Hfuel)
    as (removed & cb' & Hrun & Hrids & Hlen & Hin & Hout
        & (ap & rp & Hparent & Hheap) & Hr & _).
  pose proof (populated_after_remove cb cb' h a r p ap rp removed Hpop Hlive Hpid
                Hparent Hrids Hlen Hin Hout Hheap Hr) as Hpop'.
  destruct (populated_root cb' Hpop') as (r0 & Hl0 & _).
  destruct (walk_shape cb' Hpop' topdown sort fuel 0 (root cb') r0 Hl0)
    as (walked & rids & Hw & _ & HF & Hws); [lia|].
  exists removed, cb', walked, rids.
  split_and!; [done|by rewrite (Codebase_walk_eq cb' Hpop')|done| |].
  - by eapply walks_NoDup.
  - intros x. rewrite (walks_elem cb' _ _ _ _ _ Hws). split.
    + intros Hd. destruct (descendant_live cb' Hpop' _ _ _ _ Hl0 Hd) as (_ & ax & rx & Hx).
      destruct (live_after cb cb' h p ap rp Hparent Hlen Hin Hout Hheap Hr _ _ _ Hx)
        as (Hnd & r1 & Hx1 & _).
      split; [by eexists _, _|done].
    + intros [(ax & rx & Hx) Hnd].
      eapply (live_descendant_root cb' Hpop').
      by eapply (live_before cb cb' h p ap rp Hparent Hout Hheap).
Qed.

Lemma remove_resource_then_walk_witness :
  exists removed cb' walked rids,
    remove_resource 4 1%nat Sample.tree = (Ok removed, cb')
    /\ Codebase_walk 4 cb' true false false = Ok walked
    /\ Forall2 (fun a' x => exists r', live cb' x a' r') walked rids
    /\ NoDup rids
    /\ forall x, x ∈ rids
         <-> (exists ax rx, live Sample.tree x ax rx) /\ ~ descendant Sample.tree 1 x.
Proof.
  apply (remove_resource_then_walk Sample.tree 1 1%nat Sample.b_dir 4 true false
           sample_tree_populated).
  - by apply (live_intro Sample.tree 1).
  - reflexivity.
  - simpl. lia.
Defined.

End RemoveThenWalk.

(** ** The record of the root *)

Section MerkleRoot.

Import Merkle.
Local Open Scope string_scope.

Variable hexdigest : string -> string.

Lemma build_tree_root (fuel : nat) (results : list record) (root : dir_ref) (h : heap) :
  build_tree fuel results = Ok (root, h) ->
  exists sample_file rest,
    results = sample_file :: rest
    /\ dir_paths h !! root = Some (first_segment (path sample_file)).
Proof.
  unfold build_tree. destruct results as [|sample_file rest]; [done|].
  change (Py.getitem (sample_file :: rest) 0) with (Ok sample_file).
  cbn [mbind result_bind].
  destruct (create_empty_dir empty_heap (first_segment (path sample_file)))
    as [r0 h0] eqn:Hnew.
  destruct (add_records _ _ _ _) as [b|] eqn:Hrun; cbn; [|done].
  intros [= <- <-]. exists sample_file, rest. split; [done|].
  apply add_records_paths in Hrun. cbn [objects] in Hrun.
  unfold create_empty_dir in Hnew. apply new_Dir_inv in Hnew as (-> & Hp & _).
  eapply prefix_lookup_Some; [|exact Hrun]. by rewrite Hp.
Qed.

(** A directory is handed out with its path and a digest, and the paths of
    the directories stay as they are. *)
Lemma visit_yields (p p' : pass) (present_dir : dir_ref) :
  visit hexdigest p present_dir = Ok p' ->
  dir_paths (tree p') = dir_paths (tree p)
  /\ exists dir_path dir_type digest,
       dir_paths (tree p) !! present_dir = Some dir_path
       /\ last (yielded p') = Some (mkRecord dir_path dir_type (Some digest)).
Proof.
  unfold visit.
  destruct (get_dirs (tree p) present_dir) as [ds|]; [|done]. cbn.
  destruct (get_files (tree p) present_dir) as [fs|]; [|done]. cbn.
  destruct (hash_dir hexdigest (hash_stack p) ds fs) as [[[dir_hash stack] recs]|];
    [|done]. cbn.
  unfold get_dir. cbn. rewrite list_lookup_alter_eq.
  destruct (dir_objects (tree p) !! present_dir) as [o|] eqn:Ho; [|done]. cbn.
  intros [= <-]. cbn. split.
  - apply set_dir_paths. intros o' _. done.
  - exists (path (data o)), (type (data o)), (hexdigest dir_hash). split.
    + unfold dir_paths. by rewrite list_lookup_fmap, Ho.
    + rewrite !app_assoc. apply last_snoc.
Qed.

Lemma visit_all_paths (walked : list dir_ref) : forall p p',
  visit_all hexdigest p walked = Ok p' -> dir_paths (tree p') = dir_paths (tree p).
Proof.
  induction walked as [|d walked IH]; intros p p'; cbn.
  - by intros [= <-].
  - destruct (visit hexdigest p d) as [p1|] eqn:Hv; [|done]. cbn.
    intros Hrest%IH. rewrite Hrest. by apply visit_yields in Hv as [? _].
Qed.

Lemma visit_all_snoc (walked : list dir_ref) (d : dir_ref) : forall p p',
  visit_all hexdigest p (walked ++ [d]) = Ok p' ->
  exists p1, visit_all hexdigest p walked = Ok p1 /\ visit hexdigest p1 d = Ok p'.
Proof.
  induction walked as [|x walked IH]; intros p p'; cbn.
  - destruct (visit hexdigest p d) as [p1|] eqn:Hv; [|done]. cbn.
    intros [= <-]. by exists p.
  - destruct (visit hexdigest p x) as [p1|] eqn:Hv; [|done]. cbn. apply IH.
Qed.

(** When [build_merkle_tree] returns, the last record it hands out is that of
    the root: its path is the first segment of the path of the first record,
    and it carries a digest. *)
Theorem build_merkle_tree_root_last (fuel : nat) (results yielded_records : list record) :
  build_merkle_tree hexdigest fuel results = Ok yielded_records ->
  exists sample_file rest root_type digest,
    results = sample_file :: rest
    /\ last yielded_records
       = Some (mkRecord (first_segment (path sample_file)) root_type (Some digest)).
Proof.
  unfold build_merkle_tree.
  destruct (build_tree fuel results) as [[root h]|] eqn:Hbuild; [|done]. cbn.
  destruct (postorder_walk fuel h root) as [walked|] eqn:Hwalk; [|done]. cbn.
  destruct (visit_all hexdigest (mkPass h [] []) walked) as [p|] eqn:Hvisit; [|done].
  cbn. intros [= <-].
  destruct (build_tree_root fuel results root h Hbuild) as (sample_file & rest & -> & Hroot).
  assert (Hlast : exists ws, walked = (ws ++ [root])%list).
  { destruct fuel as [|fuel']; [done|]. cbn in Hwalk.
    destruct (get_dirs h root) as [ds|]; [|done]. cbn in Hwalk.
    destruct (mapM (postorder_walk fuel' h) ds) as [subs|]; [|done]. cbn in Hwalk.
    injection Hwalk as <-. by eexists. }
  destruct Hlast as (ws & ->).
  destruct (visit_all_snoc ws root _ _ Hvisit) as (p1 & Hws & Hroot_visit).
  apply visit_all_paths in Hws. cbn [tree] in Hws.
  destruct (visit_yields _ _ _ Hroot_visit)
    as (_ & dir_path & dir_type & digest & Hpath & Hyield).
  rewrite Hws, Hroot in Hpath. injection Hpath as <-.
  by exists sample_file, rest, dir_type, digest.
Qed.

End MerkleRoot.

Section MerkleRootExamples.

Import Merkle.
Local Open Scope string_scope.

Lemma build_merkle_tree_root_last_witness :
  exists yielded_records root_type digest,
    build_merkle_tree (fun s => s) 3 Stream.x_then_y = Ok yielded_records
    /\ last yielded_records = Some (mkRecord "a" root_type (Some digest)).
Proof.
  destruct (build_merkle_tree (fun s => s) 3 Stream.x_then_y) as [ys|] eqn:Hrun; [|done].
  destruct (build_merkle_tree_root_last (fun s => s) 3 Stream.x_then_y ys Hrun)
    as (sample_file & rest & root_type & digest & [= <- <-] & Hlast).
  by exists ys, root_type, digest.
Defined.

End MerkleRootExamples.

(** ** The resources with their ids *)

Section WithRid.

Lemma elem_of_enumerate_from {A : Type} (l : list A) : forall (k i : Z) (x : A),
  (i, x) ∈ enumerate_from k l <-> exists j : nat, i = k + Z.of_nat j /\ l !! j = Some x.
Proof.
  induction l as [|y l IH]; intros k i x; cbn [enumerate_from].
  - split; [by intros ?%elem_of_nil|]. by intros (j & _ & ?).
  - rewrite elem_of_cons, IH. split.
    + intros [[= -> ->]|(j & -> & Hj)].
      * exists 0%nat. split; [lia|done].
      * exists (S j). split; [lia|done].
    + intros ([|j] & -> & Hj).
      * left. cbn in Hj. injection Hj as ->. f_equal. lia.
      * right. exists j. split; [lia|done].
Qed.

Lemma enumerate_from_sorted {A : Type} (l : list A) : forall k : Z,
  StronglySorted Z.lt (fst <$> enumerate_from k l).
Proof.
  induction l as [|y l IH]; intros k; cbn; [constructor|].
  constructor; [apply IH|]. apply Forall_forall.
  intros i ([i' x] & -> & (j & -> & _)%elem_of_enumerate_from)%list_elem_of_fmap.
  cbn. lia.
Qed.

Lemma filter_fst_sorted {A : Type} (P : Z * A -> bool) (l : list (Z * A)) :
  StronglySorted Z.lt (fst <$> l) -> StronglySorted Z.lt (fst <$> List.filter P l).
Proof.
  induction l as [|e l IH]; [done|]. cbn [fmap list_fmap List.filter].
  intros [Hall Hl]%StronglySorted_cons.
  destruct (P e); [|by apply IH]. cbn. constructor; [by apply IH|].
  apply Forall_forall. intros i ([i' x] & -> & Hin)%list_elem_of_fmap.
  apply list_elem_of_In, filter_In in Hin as [Hin%list_elem_of_In _].
  rewrite Forall_forall in Hall. apply Hall. apply list_elem_of_fmap. by exists (i', x).
Qed.

(** [get_resources_with_rid] on a populated tree yields every resource of
    the list with its own [rid], by increasing [rid], and nothing for the
    places that hold [None]. *)
Theorem get_resources_with_rid_spec (cb : Codebase) :
  populated cb ->
  (forall i s, (i, s) ∈ get_resources_with_rid cb
     <-> exists a r, s = SResource a /\ live cb i a r /\ rid r = i)
  /\ StronglySorted Z.lt (fst <$> get_resources_with_rid cb).
Proof.
  intros Hpop. split.
  - intros i s. unfold get_resources_with_rid.
    rewrite list_elem_of_In, filter_In, <- list_elem_of_In, elem_of_enumerate_from.
    cbn [snd]. split.
    + intros [(j & -> & Hj) Hs].
      destruct (populated_slot cb Hpop _ _ Hj) as [->|(a & r & -> & Hr & Hrid)]; [done|].
      exists a, r. split_and!; [done| |lia].
      rewrite Z.add_0_l. by apply live_intro.
    + intros (a & r & -> & (Hi & Hs & Hr) & _). split; [|done].
      exists (Z.to_nat i). split; [lia|done].
  - apply filter_fst_sorted, enumerate_from_sorted.
Qed.

Lemma get_resources_with_rid_spec_witness :
  (forall i s, (i, s) ∈ get_resources_with_rid Sample.tree
     <-> exists a r, s = SResource a /\ live Sample.tree i a r /\ rid r = i)
  /\ StronglySorted Z.lt (fst <$> get_resources_with_rid Sample.tree).
Proof.
  apply (get_resources_with_rid_spec Sample.tree sample_tree_populated).
Defined.

End WithRid.

(** ** The order of the children after [populate] *)

Section PopulateOrder.

Variable join : string -> string -> string.
Variable is_special : string -> bool.
Variable ignored : string -> bool.

Lemma resource_at_no_holes cb c :
  no_holes cb -> 0 <= c -> resource_at cb c = heap cb !! Z.to_nat c.
Proof.
  intros Hfull Hc. unfold resource_at. rewrite (proj2 (Z.ltb_ge c 0)) by lia.
  rewrite (no_holes_lookup _ _ Hfull). case_decide as Hlt; [done|].
  symmetry. apply lookup_ge_None. lia.
Qed.

Lemma sort_key_after_add_old cb p rp res c :
  no_holes cb -> heap cb !! p = Some rp ->
  0 <= c < Z.of_nat (length (heap cb)) ->
  sort_key (after_add p res cb) c = sort_key cb c.
Proof.
  intros Hfull Hp Hc. unfold sort_key.
  rewrite (resource_at_no_holes _ _ (after_add_no_holes cb p res Hfull)) by lia.
  rewrite (resource_at_no_holes _ _ Hfull) by lia.
  destruct (heap cb !! Z.to_nat c) as [rc|] eqn:Hrc.
  2:{ apply lookup_ge_None in Hrc. lia. }
  destruct (decide (Z.to_nat c = p)) as [Heq|Hne].
  - rewrite Heq in *. rewrite Hp in Hrc. injection Hrc as <-.
    rewrite (proj2 (after_add_heap cb p rp res Hp p _)
               (or_intror (or_intror (conj eq_refl eq_refl)))). done.
  - by rewrite (proj2 (after_add_heap cb p rp res Hp (Z.to_nat c) rc)
                  (or_intror (or_introl (conj Hne Hrc)))).
Qed.

Lemma sort_key_after_add_new cb p rp res :
  no_holes cb -> heap cb !! p = Some rp ->
  sort_key (after_add p res cb) (Z.of_nat (length (heap cb)))
  = (is_file res, name res).
Proof.
  intros Hfull Hp. unfold sort_key.
  rewrite (resource_at_no_holes _ _ (after_add_no_holes cb p res Hfull)) by lia.
  rewrite Nat2Z.id.
  by rewrite (proj2 (after_add_heap cb p rp res Hp (length (heap cb)) res)
                (or_introl (conj eq_refl eq_refl))).
Qed.

Lemma children_in_range cb a r c :
  populated cb -> no_holes cb -> heap cb !! a = Some r -> c ∈ children_rids r ->
  0 <= c < Z.of_nat (length (heap cb)).
Proof.
  intros Hpop Hfull Hr Hc.
  assert (Hl : live cb (Z.of_nat a) a r).
  { apply (live_no_holes _ _ _ _ Hfull). split_and!; [lia|lia|done]. }
  destruct (populated_children cb Hpop _ _ _ _ Hl Hc) as (Hlt & ac & rc & Hlc & _).
  pose proof (live_lt _ _ _ _ Hlc) as Hlen.
  rewrite Hfull, length_fmap, length_seq in Hlen. lia.
Qed.

Lemma StronglySorted_impl_elem {A : Type} (R R' : relation A) (l : list A) :
  (forall x y, x ∈ l -> y ∈ l -> R x y -> R' x y) ->
  StronglySorted R l -> StronglySorted R' l.
Proof.
  intros HR Hs. induction Hs as [|x l _ IH Hx]; [constructor|].
  constructor.
  - apply IH. intros y z Hy Hz. apply HR; by right.
  - rewrite Forall_forall in *. intros y Hy. apply HR; [by left|by right|by apply Hx].
Qed.

(** A child added after children with smaller keys leaves the children in
    order. *)
Lemma after_add_sorted cb p rp res :
  populated cb -> no_holes cb -> children_sorted cb ->
  heap cb !! p = Some rp ->
  rid res = Z.of_nat (length (heap cb)) ->
  children_rids res = [] ->
  (forall c, c ∈ children_rids rp ->
     sorter_leb (sort_key cb c) (is_file res, name res) = true) ->
  children_sorted (after_add p res cb).
Proof.
  intros Hpop Hfull Hsorted Hp Hrid Hkids Hle a r' Hr'.
  assert (Hold : forall a0 r0, heap cb !! a0 = Some r0 ->
            StronglySorted (sorted_by_key (after_add p res cb)) (children_rids r0)).
  { intros a0 r0 Hr0. eapply StronglySorted_impl_elem; [|apply (Hsorted a0 r0 Hr0)].
    intros c1 c2 Hc1 Hc2. unfold sorted_by_key.
    rewrite !(sort_key_after_add_old cb p rp res _ Hfull Hp); [done|..];
      by eapply children_in_range. }
  apply (after_add_heap cb p rp res Hp) in Hr' as [[-> ->]|[[Hne Hr]|[-> ->]]].
  - rewrite Hkids. constructor.
  - by eapply Hold.
  - cbn [children_rids with_children_rids].
    apply StronglySorted_app_2; [|by eapply Hold|repeat constructor].
    intros c1 c2 Hc1 ->%list_elem_of_singleton. unfold sorted_by_key.
    rewrite Hrid, (sort_key_after_add_new cb p rp res Hfull Hp).
    rewrite (sort_key_after_add_old cb p rp res _ Hfull Hp); [by apply Hle|].
    by eapply children_in_range.
Qed.

(** What [add_entry] does, spelled out. *)
Lemma add_entry_cases top p rp entry_is_file st entry_name st' :
  populating_ok st ->
  heap (codebase st) !! p = Some rp ->
  add_entry join is_special ignored top p entry_is_file st entry_name = Ok st' ->
  (skipped is_special ignored (join top entry_name) = true /\ st' = st)
  \/ (skipped is_special ignored (join top entry_name) = false
      /\ st' = mkPopulating
                 (after_add p
                    (new_Resource entry_name
                       (Z.of_nat (length (heap (codebase st)))) (Some (rid rp))
                       entry_is_file (use_cache rp)) (codebase st))
                 (Z.of_nat (length (heap (codebase st))))
                 (<[join top entry_name := length (heap (codebase st))]>
                    (res_by_loc st))).
Proof.
  intros (_ & _ & Hlast & _) Hrp. unfold add_entry, skipped.
  destruct (is_special (join top entry_name) || ignored (join top entry_name)).
  { intros [= <-]. by left. }
  rewrite (_add_child_eq _ _ _ _ _ _ Hrp).
  replace (last_rid st + 1) with (Z.of_nat (length (heap (codebase st)))) by lia.
  intros [= <-]. right. done.
Qed.

(** One entry added to a resource whose children have smaller keys. *)
Lemma add_entry_sorted top p rp entry_is_file st entry_name st' done :
  populating_sorted st done ->
  heap (codebase st) !! p = Some rp ->
  (forall loc, res_by_loc st !! loc = Some p -> loc ∈ done) ->
  (forall c, c ∈ children_rids rp ->
     sorter_leb (sort_key (codebase st) c) (entry_is_file, entry_name) = true) ->
  add_entry join is_special ignored top p entry_is_file st entry_name = Ok st' ->
  populating_sorted st' done
  /\ (forall loc, res_by_loc st' !! loc = Some p -> loc ∈ done)
  /\ exists rp',
       heap (codebase st') !! p = Some rp'
       /\ (forall c, c ∈ children_rids rp' ->
             (c ∈ children_rids rp
              /\ sort_key (codebase st') c = sort_key (codebase st) c)
             \/ sort_key (codebase st') c = (entry_is_file, entry_name)).
Proof.
  intros (Hok & Hsorted & Hfresh & Hinj) Hrp Hdone Hle Hrun.
  pose proof Hok as (Hpop & Hfull & Hlast & Hdir & Hlocs).
  destruct (add_entry_cases _ _ _ _ _ _ _ Hok Hrp Hrun) as [[_ ->]|[Hskip ->]].
  { split_and!; [done|done|]. exists rp. split; [done|]. intros c Hc. by left. }
  set (res := new_Resource entry_name (Z.of_nat (length (heap (codebase st))))
                (Some (rid rp)) entry_is_file (use_cache rp)).
  assert (Hp_lt : (p < length (heap (codebase st)))%nat) by by eapply lookup_lt_Some.
  destruct (add_entry_ok join is_special ignored top p entry_is_file st entry_name
              Hok Hp_lt) as (st1 & Hrun1 & Hok1 & _).
  rewrite Hrun in Hrun1. injection Hrun1 as <-.
  assert (Hheap : forall a0 r0,
            heap (after_add p res (codebase st)) !! a0 = Some r0 <->
            (a0 = length (heap (codebase st)) /\ r0 = res)
            \/ (a0 <> p /\ heap (codebase st) !! a0 = Some r0)
            \/ (a0 = p /\ r0 = with_children_rids (children_rids rp ++ [rid res]) rp)).
  { apply (after_add_heap (codebase st) p rp res Hrp). }
  split_and!.
  - split_and!; [done| | |]; cbn [codebase res_by_loc].
    + apply (after_add_sorted (codebase st) p rp res); try done.
    + intros loc a0 r0 Hloc Hr0 Hnot.
      apply Hheap in Hr0 as [[-> ->]|[[Hne Hr0]|[-> ->]]]; [done| |].
      * apply lookup_insert_Some in Hloc as [[_ <-]|[_ Hloc]].
        -- apply lookup_lt_Some in Hr0. lia.
        -- by eapply Hfresh.
      * apply lookup_insert_Some in Hloc as [[_ Heq]|[_ Hloc]]; [lia|].
        destruct Hnot. by apply Hdone.
    + intros loc1 loc2 a0.
      rewrite !lookup_insert_Some.
      intros [[<- <-]|[Hne1 H1]] [[<- Heq]|[Hne2 H2]]; try done.
      * apply Hlocs in H2. lia.
      * subst a0. apply Hlocs in H1. lia.
      * by eapply Hinj.
  - cbn [res_by_loc]. intros loc [[_ Heq]|[_ Hloc]]%lookup_insert_Some; [lia|].
    by apply Hdone.
  - eexists. split; [apply Hheap; right; right; done|].
    cbn [codebase children_rids with_children_rids].
    intros c [Hc| ->%list_elem_of_singleton]%elem_of_app.
    + left. split; [done|].
      apply (sort_key_after_add_old (codebase st) p rp res _ Hfull Hrp).
      by eapply children_in_range.
    + right. apply (sort_key_after_add_new (codebase st) p rp res Hfull Hrp).
Qed.

Lemma sorter_leb_same (b : bool) (n1 n2 : string) :
  sorter_leb (b, n1) (b, n2) = String.leb n1 n2.
Proof. by destruct b. Qed.

(** The entries of one kind, added in the order of their names. *)
Lemma add_entries_sorted top p entry_is_file names : forall st rp st' done,
  populating_sorted st done ->
  heap (codebase st) !! p = Some rp ->
  (forall loc, res_by_loc st !! loc = Some p -> loc ∈ done) ->
  StronglySorted (fun n1 n2 => String.leb n1 n2 = true) names ->
  (forall c n, c ∈ children_rids rp -> n ∈ names ->
     sorter_leb (sort_key (codebase st) c) (entry_is_file, n) = true) ->
  add_entries join is_special ignored top p entry_is_file names st = Ok st' ->
  populating_sorted st' done
  /\ (forall loc, res_by_loc st' !! loc = Some p -> loc ∈ done)
  /\ exists rp',
       heap (codebase st') !! p = Some rp'
       /\ (forall c, c ∈ children_rids rp' ->
             (c ∈ children_rids rp
              /\ sort_key (codebase st') c = sort_key (codebase st) c)
             \/ fst (sort_key (codebase st') c) = entry_is_file).
Proof.
  induction names as [|x names IH]; intros st rp st' done Hst Hrp Hdone Hnames Hle.
  - cbn. intros [= <-]. split_and!; [done|done|]. exists rp. split; [done|].
    intros c Hc. by left.
  - cbn [add_entries].
    destruct (add_entry join is_special ignored top p entry_is_file st x)
      as [st1|] eqn:Hx; [|done]. cbn.
    apply StronglySorted_cons in Hnames as [Hx_le Hnames].
    rewrite Forall_forall in Hx_le.
    destruct (add_entry_sorted top p rp entry_is_file st x st1 done Hst Hrp Hdone)
      as (Hst1 & Hdone1 & rp1 & Hrp1 & Hkids1); [|done|].
    { intros c Hc. apply Hle; [done|by left]. }
    intros Hrest.
    destruct (IH st1 rp1 st' done Hst1 Hrp1 Hdone1 Hnames)
      as (Hst' & Hdone' & rp' & Hrp' & Hkids'); [|done|].
    { intros c n Hc Hn. destruct (Hkids1 c Hc) as [[Hc0 ->]| ->].
      - apply Hle; [done|by right].
      - rewrite sorter_leb_same. by apply Hx_le. }
    split_and!; [done|done|]. exists rp'. split; [done|].
    intros c Hc. destruct (Hkids' c Hc) as [[Hc1 Hk]|Hk]; [|by right].
    destruct (Hkids1 c Hc1) as [[Hc0 Hk0]|Hk0].
    + left. split; [done|congruence].
    + right. by rewrite Hk, Hk0.
Qed.

Lemma sorted_names_sorted (names : list string) :
  StronglySorted (fun n1 n2 => String.leb n1 n2 = true) (sorted_names names).
Proof.
  apply (sorted_StronglySorted String.leb (fun s => s) String.leb_total string_leb_trans).
Qed.

Lemma populating_sorted_more st done top :
  populating_sorted st done -> populating_sorted st (top :: done).
Proof.
  intros (Hok & Hsorted & Hfresh & Hinj). split_and!; try done.
  intros loc a r Hloc Hr Hnot. eapply Hfresh; [done|done|].
  intros Hin. apply Hnot. by right.
Qed.

(** One turn of the loop, for a directory not gone through before. *)
Lemma populate_event_sorted top dirs files p st st' done :
  populating_sorted st done ->
  res_by_loc st !! top = Some p ->
  top ∉ done ->
  (st1 ← add_entries join is_special ignored top p false (sorted_names dirs) st;
   add_entries join is_special ignored top p true (sorted_names files) st1) = Ok st' ->
  populating_sorted st' (top :: done).
Proof.
  intros Hst Hp Hnot Hrun.
  pose proof Hst as (Hok & Hsorted & Hfresh & Hinj).
  pose proof Hok as (_ & _ & _ & _ & Hlocs).
  destruct (heap (codebase st) !! p) as [rp|] eqn:Hrp.
  2:{ apply lookup_ge_None in Hrp. apply Hlocs in Hp. lia. }
  pose proof (Hfresh top p rp Hp Hrp Hnot) as Hnil.
  assert (Hdone : forall loc, res_by_loc st !! loc = Some p -> loc ∈ top :: done).
  { intros loc Hloc. rewrite (Hinj _ _ _ Hloc Hp). by left. }
  destruct (add_entries join is_special ignored top p false (sorted_names dirs) st)
    as [st1|] eqn:Hdirs; [|done]. cbn in Hrun.
  destruct (add_entries_sorted top p false (sorted_names dirs) st rp st1 (top :: done)
              (populating_sorted_more _ _ _ Hst) Hrp Hdone (sorted_names_sorted dirs))
    as (Hst1 & Hdone1 & rp1 & Hrp1 & Hkids1); [|done|].
  { intros c n Hc. rewrite Hnil in Hc. by apply elem_of_nil in Hc. }
  destruct (add_entries_sorted top p true (sorted_names files) st1 rp1 st' (top :: done)
              Hst1 Hrp1 Hdone1 (sorted_names_sorted files))
    as (Hst' & _); [|done|done].
  intros c n Hc _. destruct (Hkids1 c Hc) as [[Hc0 _]|Hk].
  - rewrite Hnil in Hc0. by apply elem_of_nil in Hc0.
  - unfold sorter_leb. rewrite Hk. done.
Qed.

Lemma populate_walk_children_sorted events : forall st done,
  populating_sorted st done ->
  NoDup (fst ∘ fst <$> events) ->
  (forall top, top ∈ (fst ∘ fst <$> events) -> top ∉ done) ->
  match populate_walk join is_special ignored events st with
  | Populated cb => populated cb /\ no_holes cb /\ children_sorted cb
  | _ => True
  end.
Proof.
  induction events as [|[[top dirs] files] events IH]; intros st done Hst Hnd Hnew.
  - cbn. by destruct Hst as ((? & ? & _) & ? & _).
  - cbn [populate_walk]. cbn in Hnd. apply NoDup_cons in Hnd as [Htop Hnd].
    destruct (is_special top || ignored top).
    { apply (IH st done); [done|done|]. intros t Ht. apply Hnew. by right. }
    destruct (res_by_loc st !! top) as [p|] eqn:Hp; [|done].
    destruct (st1 ← add_entries join is_special ignored top p false (sorted_names dirs) st;
              add_entries join is_special ignored top p true (sorted_names files) st1)
      as [st'|] eqn:Hrun; [|done].
    apply (IH st' (top :: done)); [|done|].
    + eapply populate_event_sorted; [done|done| |done]. apply Hnew. by left.
    + intros t Ht [->|Hin]%elem_of_cons; [done|]. apply (Hnew t); [by right|done].
Qed.

End PopulateOrder.

Section PopulateOrderFacts.

Variable file_name : string -> string.
Variable join : string -> string -> string.
Variable is_special : string -> bool.
Variable ignored : string -> bool.
Variable os_walk : string -> list (string * list string * list string).

Lemma populate_sorted (location : string) (single_file use_cache : bool) :
  NoDup (fst ∘ fst <$> os_walk location) ->
  match populate file_name join is_special ignored os_walk location single_file
          use_cache
  with
  | Populated cb => populated cb /\ no_holes cb /\ children_sorted cb
  | _ => True
  end.
Proof.
  intros Hnd. unfold populate. destruct single_file.
  - split_and!; [apply lone_populated|done|].
    intros [|a] r; [|done]. intros [= <-]. constructor.
  - set (st := mkPopulating _ _ _).
    assert (Hst : populating_sorted st []).
    { split_and!.
      - split_and!; try done; [apply lone_populated|].
        intros loc a. subst st. cbn [res_by_loc codebase].
        intros [_ <-]%lookup_singleton_Some. cbn. lia.
      - intros [|a] r; [|done]. intros [= <-]. constructor.
      - intros loc a r. subst st. cbn [res_by_loc codebase].
        intros [_ <-]%lookup_singleton_Some [= <-] _. done.
      - intros loc1 loc2 a. subst st. cbn [res_by_loc].
        intros [<- _]%lookup_singleton_Some [<- _]%lookup_singleton_Some. done. }
    apply (populate_walk_children_sorted join is_special ignored
             (os_walk location) st [] Hst Hnd).
    intros top _ Hin. by apply elem_of_nil in Hin.
Qed.

Lemma sorted_id {A K : Type} (leb : K -> K -> bool) (key : A -> K) (l : list A) :
  StronglySorted (Py.key_le leb key) l -> Py.sorted leb key l = l.
Proof.
  induction 1 as [|x l _ IH Hx]; [done|]. cbn. rewrite IH.
  destruct l as [|y l]; [done|]. cbn.
  apply Forall_cons in Hx as [Hxy _]. unfold Py.key_le in Hxy. by rewrite Hxy.
Qed.

(** Children that are in order are left as they are by the sort. *)
Lemma sort_children_sorted cb kids addrs :
  Forall2 (fun c ac => exists rc, live cb c ac rc) kids addrs ->
  StronglySorted (sorted_by_key cb) kids ->
  sort_children cb (SResource <$> addrs) = Ok (SResource <$> addrs).
Proof.
  intros HF Hsorted.
  assert (Hkeyed : exists keyed,
    mapM (fun s => k ← sorter cb s; Ok (k, s)) (SResource <$> addrs) = Ok keyed
    /\ Forall2 (fun k c => fst k = sort_key cb c) keyed kids
    /\ snd <$> keyed = SResource <$> addrs).
  { clear Hsorted. induction HF as [|c ac kids addrs [rc Hc] _ (keyed & H1 & H2 & H3)].
    - exists []. split_and!; [done|constructor|done].
    - exists ((sort_key cb c, SResource ac) :: keyed). split_and!.
      + apply mapM_Ok. constructor; [|by apply mapM_Ok_inv].
        unfold sorter, attr_of. cbn. rewrite (live_deref _ _ _ _ Hc). cbn.
        unfold sort_key. by rewrite (live_resource_at _ _ _ _ Hc).
      + by constructor.
      + cbn. by rewrite H3. }
  destruct Hkeyed as (keyed & Hrun & Hkeys & Hsnd).
  unfold sort_children. rewrite Hrun. cbn. rewrite sorted_id; [by rewrite Hsnd|].
  eapply StronglySorted_Forall2; [exact Hkeys|exact Hsorted|].
  intros k1 c1 k2 c2 H1 H2 Hle. unfold Py.key_le. by rewrite H1, H2.
Qed.

Lemma _walk_sort_same cb (topdown : bool) (fuel : nat) :
  populated cb -> children_sorted cb ->
  forall h a r, live cb h a r ->
    _walk fuel cb a topdown true = _walk fuel cb a topdown false.
Proof.
  intros Hpop Hsorted. induction fuel as [|fuel IH]; intros h a r Hlive; [done|].
  destruct (children_live cb Hpop _ _ _ Hlive) as (addrs & Hch & HF).
  cbn [_walk]. rewrite Hch. cbn.
  assert (Hsame : (if negb (bool_decide (SResource <$> addrs = []))
                   then sort_children cb (SResource <$> addrs)
                   else Ok (SResource <$> addrs)) = Ok (SResource <$> addrs)).
  { destruct (negb _); [|done].
    apply (sort_children_sorted cb (children_rids r)); [done|].
    destruct Hlive as (_ & _ & Hr). by eapply Hsorted. }
  rewrite Hsame. cbn. f_equal. apply mapM_ext.
  intros s (ac & -> & Hac)%list_elem_of_fmap. cbn.
  apply list_elem_of_lookup in Hac as [i Hi].
  destruct (Forall2_lookup_r _ _ _ _ _ HF Hi) as (c & _ & rc & Hlc).
  by eapply IH.
Qed.

Lemma Codebase_walk_sort_same cb (fuel : nat) (topdown skip_root : bool) :
  populated cb -> children_sorted cb ->
  Codebase_walk fuel cb topdown true skip_root
  = Codebase_walk fuel cb topdown false skip_root.
Proof.
  intros Hpop Hsorted. destruct (populated_root cb Hpop) as (r & Hlive & _).
  unfold Codebase_walk, walk. rewrite (live_deref _ _ _ _ Hlive). cbn.
  by rewrite (_walk_sort_same cb topdown fuel Hpop Hsorted _ _ _ Hlive).
Qed.

(** When [os_walk] yields every directory once, [populate] lists the
    children of every resource in the order [sort] asks for: directories
    first, then files, each by name. *)
Theorem populate_children_order (location : string) (single_file use_cache : bool)
    (cb : Codebase) :
  NoDup (fst ∘ fst <$> os_walk location) ->
  populate file_name join is_special ignored os_walk location single_file use_cache
  = Populated cb ->
  forall a r (i j : nat) c1 c2 a1 a2 r1 r2,
    heap cb !! a = Some r ->
    children_rids r !! i = Some c1 -> children_rids r !! j = Some c2 ->
    (i < j)%nat ->
    live cb c1 a1 r1 -> live cb c2 a2 r2 ->
    sorter_leb (is_file r1, name r1) (is_file r2, name r2) = true.
Proof.
  intros Hnd Hrun. pose proof (populate_sorted location single_file use_cache Hnd) as H.
  rewrite Hrun in H. destruct H as (_ & _ & Hsorted).
  intros a r i j c1 c2 a1 a2 r1 r2 Hr Hi Hj Hij H1 H2.
  pose proof (StronglySorted_lookup _ _ _ _ _ _ (Hsorted a r Hr) Hi Hj Hij) as Hle.
  unfold sorted_by_key, sort_key in Hle.
  by rewrite (live_resource_at _ _ _ _ H1), (live_resource_at _ _ _ _ H2) in Hle.
Qed.

(** On the tree [populate] builds, when [os_walk] yields every directory
    once, [sort] changes nothing: a sorted walk hands out what the unsorted
    one does, in the same order. *)
Theorem populate_walk_sort_redundant (location : string) (single_file use_cache : bool)
    (cb : Codebase) (fuel : nat) (topdown skip_root : bool) :
  NoDup (fst ∘ fst <$> os_walk location) ->
  populate file_name join is_special ignored os_walk location single_file use_cache
  = Populated cb ->
  Codebase_walk fuel cb topdown true skip_root
  = Codebase_walk fuel cb topdown false skip_root.
Proof.
  intros Hnd Hrun. pose proof (populate_sorted location single_file use_cache Hnd) as H.
  rewrite Hrun in H. destruct H as (Hpop & _ & Hsorted).
  by apply Codebase_walk_sort_same.
Qed.

End PopulateOrderFacts.

Section PopulateOrderExamples.

Local Open Scope string_scope.

Lemma plain_listing_NoDup : NoDup (fst ∘ fst <$> Listing.plain "root").
Proof. apply (bool_decide_unpack _). by vm_compute. Qed.

Lemma populate_children_order_witness :
  exists cb,
    populate (fun s => s) Listing.join Listing.nothing Listing.nothing Listing.plain
      "root" false false = Populated cb
    /\ forall a r (i j : nat) c1 c2 a1 a2 r1 r2,
         heap cb !! a = Some r ->
         children_rids r !! i = Some c1 -> children_rids r !! j = Some c2 ->
         (i < j)%nat ->
         live cb c1 a1 r1 -> live cb c2 a2 r2 ->
         sorter_leb (is_file r1, name r1) (is_file r2, name r2) = true.
Proof.
  eexists. split; [reflexivity|].
  apply (populate_children_order (fun s => s) Listing.join Listing.nothing
           Listing.nothing Listing.plain "root" false false _ plain_listing_NoDup).
  reflexivity.
Defined.

Lemma populate_walk_sort_redundant_witness :
  exists cb,
    populate (fun s => s) Listing.join Listing.nothing Listing.nothing Listing.plain
      "root" false false = Populated cb
    /\ Codebase_walk 4 cb false true false = Codebase_walk 4 cb false false false.
Proof.
  eexists. split; [reflexivity|].
  apply (populate_walk_sort_redundant (fun s => s) Listing.join Listing.nothing
           Listing.nothing Listing.plain "root" false false _ 4 false false
           plain_listing_NoDup).
  reflexivity.
Defined.

End PopulateOrderExamples.

(** ** Counts without the root *)

Section SkipRoot.

Lemma total_add (w1 w2 : Z -> Z) l :
  total (fun c => w1 c + w2 c) l = total w1 l + total w2 l.
Proof.
  induction l as [|x l IH]; [done|]. rewrite !total_cons, IH. lia.
Qed.

Lemma total_attr_at cb (f : Resource -> Z) kids rs :
  Forall2 (fun c rc => exists ac, live cb c ac rc) kids rs ->
  total (attr_at cb f) kids = sum_over f rs.
Proof.
  induction 1 as [|c rc kids rs [ac Hc] _ IH]; [done|].
  rewrite total_cons, IH. unfold attr_at, sum_over.
  by rewrite (live_resource_at _ _ _ _ Hc).
Qed.

Lemma counts_read cb (fuel : nat) (update skip_root : bool) cb' :
  (if update then update_counts fuel else mret tt) cb = (Ok tt, cb') ->
  counts fuel update skip_root cb
  = (r ← deref cb' (root cb');
     if skip_root && negb (codebase_is_file cb') then
       cs ← children cb' (root cb');
       counts ← mapM (fun c => res ← attr_of cb' c;
                               Ok (files_count res, dirs_count res, size res)) cs;
       sum_counts counts
     else
       if codebase_is_file cb' then Ok (files_count r + 1, dirs_count r, size r)
       else Ok (files_count r, dirs_count r + 1, size r),
     cb').
Proof. intros Hupd. unfold counts. by rewrite M_bind_eq, Hupd. Qed.

(** The sum [counts] takes over the children of the root. *)
Lemma children_sum cb r :
  populated cb -> live cb 0 (root cb) r -> children_rids r <> [] ->
  exists rs,
    Forall2 (fun c rc => exists ac, live cb c ac rc) (children_rids r) rs
    /\ (cs ← children cb (root cb);
        counts ← mapM (fun c => res ← attr_of cb c;
                                Ok (files_count res, dirs_count res, size res)) cs;
        sum_counts counts)
       = Ok (sum_over files_count rs, sum_over dirs_count rs, sum_over size rs).
Proof.
  intros Hpop Hlive Hne.
  destruct (children_live cb Hpop _ _ _ Hlive) as (addrs & -> & HF). cbn.
  assert (Hrs : exists rs,
    Forall2 (fun c rc => exists ac, live cb c ac rc) (children_rids r) rs
    /\ Forall2 (fun s rc => attr_of cb s = Ok rc) (SResource <$> addrs) rs).
  { clear -HF. induction HF as [|c ac cs addrs [rc Hc] _ (rs & H1 & H2)].
    - exists []. split; constructor.
    - exists (rc :: rs). split; constructor; eauto.
      unfold attr_of. cbn. by eapply live_deref. }
  destruct Hrs as (rs & Hlives & Hattr). exists rs. split; [done|].
  rewrite (mapM_Ok _ _ ((fun rc => (files_count rc, dirs_count rc, size rc)) <$> rs)).
  - cbn. rewrite sum_counts_Ok; [done|].
    intros ->. apply Forall2_nil_inv_r in Hlives. done.
  - apply Forall2_fmap_r. eapply Forall2_impl; [exact Hattr|].
    intros s rc Hs. cbn. by rewrite Hs.
Qed.

(** With [skip_root], [counts] leaves out more than the root: the children
    of the root are not counted either, only what is below them. *)
Theorem counts_skip_root_misses_children cb (fuel : nat) (update : bool) (r : Resource) :
  populated cb -> aggregates_current cb ->
  (length (resources cb) <= fuel)%nat ->
  heap cb !! root cb = Some r ->
  codebase_is_file cb = false ->
  children_rids r <> [] ->
  exists rs files dirs sz files' dirs' sz',
    Forall2 (fun c rc => exists ac, live cb c ac rc) (children_rids r) rs
    /\ counts fuel update false cb = (Ok (files, dirs, sz), cb)
    /\ counts fuel update true cb = (Ok (files', dirs', sz'), cb)
    /\ files = files' + Z.of_nat (length (List.filter is_file rs))
    /\ dirs = dirs' + Z.of_nat (length (List.filter (fun rc => negb (is_file rc)) rs)) + 1
    /\ (is_file r = false -> sz = sz').
Proof.
  intros Hpop Hcur Hfuel Hr Hdir Hne.
  assert (Hupd : (if update then update_counts fuel else mret tt) cb = (Ok tt, cb)).
  { destruct update; [by apply update_counts_current|done]. }
  destruct (populated_root cb Hpop) as (r' & Hlive & _).
  assert (r' = r) as -> by (destruct Hlive as (_ & _ & ?); congruence).
  destruct (children_sum cb r Hpop Hlive Hne) as (rs & Hrs & Hsum).
  assert (Hcurr : current_at cb 0) by (intros ? ?; apply Hcur).
  apply (current_at_sum _ _ _ _ Hpop Hlive) in Hcurr as (Hf & Hd & Hs).
  rewrite total_add in Hf, Hd.
  assert (Hat : Forall2 (fun x rc => resource_at cb x = Some rc) (children_rids r) rs).
  { eapply Forall2_impl; [exact Hrs|]. intros c rc [ac Hc]. by eapply live_resource_at. }
  destruct (total_weights _ _ _ Hat) as [Hfw Hdw].
  rewrite (total_attr_at _ _ _ _ Hrs), Hfw in Hf.
  rewrite (total_attr_at _ _ _ _ Hrs), Hdw in Hd.
  rewrite (total_attr_at _ _ _ _ Hrs) in Hs.
  exists rs, (files_count r), (dirs_count r + 1), (size r),
    (sum_over files_count rs), (sum_over dirs_count rs), (sum_over size rs).
  split_and!; [done| | |lia|lia|done].
  - rewrite (counts_read _ _ _ _ _ Hupd), (live_deref _ _ _ _ Hlive), Hdir. done.
  - rewrite (counts_read _ _ _ _ _ Hupd), (live_deref _ _ _ _ Hlive), Hdir. cbn.
    by rewrite Hsum.
Qed.

(** With [skip_root], on a directory whose root has no children, there is
    nothing to sum and [counts] raises [ValueError]. *)
Theorem counts_skip_root_empty cb (fuel : nat) (update : bool) (r : Resource) :
  populated cb ->
  (length (resources cb) <= fuel)%nat ->
  heap cb !! root cb = Some r ->
  codebase_is_file cb = false ->
  children_rids r = [] ->
  exists cb', counts fuel update true cb = (Raise ValueError, cb').
Proof.
  intros Hpop Hfuel Hr Hdir Hnil.
  assert (Hupd : exists cb',
    (if update then update_counts fuel else mret tt) cb = (Ok tt, cb')
    /\ same_tree cb cb').
  { destruct update.
    - destruct (update_counts_spec cb fuel Hpop Hfuel) as (cb' & ? & ? & _). eauto.
    - exists cb. split; [done|apply same_tree_refl]. }
  destruct Hupd as (cb' & Hupd & Hsame). exists cb'.
  destruct (populated_root cb Hpop) as (r0 & Hlive & _).
  assert (r0 = r) as -> by (destruct Hlive as (_ & _ & ?); congruence).
  destruct (same_tree_live _ _ _ _ _ Hsame Hlive) as (f & d & s & Hlive').
  destruct Hsame as (_ & Hroot & Hfile & _).
  rewrite (counts_read _ _ _ _ _ Hupd), Hroot, Hfile, Hdir.
  rewrite (live_deref _ _ _ _ Hlive'). cbn. unfold children.
  rewrite (live_deref _ _ _ _ Hlive'). cbn. by rewrite Hnil.
Qed.

Lemma counts_skip_root_misses_children_witness :
  exists rs files dirs sz files' dirs' sz',
    Forall2 (fun c rc => exists ac, live Sample.tree c ac rc) [1; 2] rs
    /\ counts 4 true false Sample.tree = (Ok (files, dirs, sz), Sample.tree)
    /\ counts 4 true true Sample.tree = (Ok (files', dirs', sz'), Sample.tree)
    /\ files = files' + Z.of_nat (length (List.filter is_file rs))
    /\ dirs = dirs' + Z.of_nat (length (List.filter (fun rc => negb (is_file rc)) rs)) + 1
    /\ (is_file Sample.root_dir = false -> sz = sz').
Proof.
  apply (counts_skip_root_misses_children Sample.tree 4 true Sample.root_dir
           sample_tree_populated sample_tree_current); [simpl; lia|done..].
Defined.

Lemma counts_skip_root_empty_witness :
  exists cb', counts 1 true true Sample.lone_dir = (Raise ValueError, cb').
Proof.
  apply (counts_skip_root_empty Sample.lone_dir 1 true
           (new_Resource "root" 0 None false false)
           (lone_populated "root" false false)); [simpl; lia|done..].
Defined.

End SkipRoot.
